(** * The policy search loop and its metric extractors

    Shallow embedding of [run_loop_docker.py] and
    [ChampSim_CRC2/eval_ipc_docker.py]: the extraction of IPC and hit rate
    from simulator output, the parsing of generator responses, the naming
    of candidates, the selection of the best candidate and the loop over
    iterations with its early exit.

    Modelling conventions.
    - A Python [str] is a [string]; a character is a code point below 256
      (Latin-1), and Python's Unicode predicates ([isalnum], [isspace],
      [lower], the classes [\s] and [\d] of [re], case-insensitive
      matching) are written out for that range.  [Wide] has [sanitize]
      over code points, with the tables at three code points above 255,
      to tell where the Latin-1 reading stops being the whole story.
    - A Python [float] is the rational it denotes ([Q]): rounding, overflow
      and NaN are not modelled.  A division is written with its
      [ZeroDivisionError] unless it stands behind a test of the divisor,
      and the true division of two [int]s with its [OverflowError], which
      it raises when the quotient rounds beyond the largest float.
    - [int(s)] is the exact integer ([Z]); the interpreter's configurable
      cap on the number of digits of [s] is taken as switched off.
    - [re] patterns are kept as the source text and read by [Re.compile]
      into a syntax tree; matching is the backtracking search of [re] for
      the constructs the patterns use.
    - Exceptions are a [result].  The sqlite table written by [record] is a
      list of rows threaded through the loop.  The generator, the compiler
      and the simulator are oracles ([docker], [world]), and so is the
      writing of a source file, which may raise; inserting a row is taken
      to succeed.
    - [print] is left out, except for the dump [parse_ipc] prints before it
      raises.
    - A Python [set] of strings is a list read up to order and repetition;
      [sorted] of it lists its elements once, in ascending order.  The
      [ValueError] of [pick_workloads] is kept with its message. *)

From Stdlib Require Import List String Ascii Bool Arith ZArith QArith Qabs Lia Sorted.
From Stdlib Require DecimalString DecimalNat.
Import ListNotations.

Local Open Scope string_scope.
Local Open Scope list_scope.
Local Open Scope nat_scope.

(* ------------------------------------------------------------------------- *)
(** ** Python strings over Latin-1 *)
(* ------------------------------------------------------------------------- *)
Module PyStr.

Definition code (c : ascii) : nat := nat_of_ascii c.

Definition between (lo hi : nat) (c : ascii) : bool :=
  (lo <=? code c) && (code c <=? hi).

Definition code_is (n : nat) (c : ascii) : bool := code c =? n.

(** [[0-9]], and also [\d] and [str.isdecimal] below code 256. *)
Definition isdigit09 (c : ascii) : bool := between 48 57 c.

(** [str.isspace] and the class [\s]: TAB..CR, FS..US, SPACE, NEL, NBSP. *)
Definition isspace (c : ascii) : bool :=
  between 9 13 c || between 28 32 c || code_is 133 c || code_is 160 c.

(** [str.isalpha]: categories Lu, Ll, Lo below code 256. *)
Definition isalpha (c : ascii) : bool :=
  between 65 90 c || between 97 122 c
  || code_is 170 c || code_is 181 c || code_is 186 c
  || between 192 214 c || between 216 246 c || between 248 255 c.

(** [str.isnumeric]: the digits, superscripts 1-3 and the vulgar fractions. *)
Definition isnumeric (c : ascii) : bool :=
  isdigit09 c || code_is 178 c || code_is 179 c || code_is 185 c || between 188 190 c.

(** [str.isalnum()] is [isalpha() or isdecimal() or isdigit() or isnumeric()]. *)
Definition isalnum (c : ascii) : bool := isalpha c || isnumeric c.

Definition isupper (c : ascii) : bool :=
  between 65 90 c || between 192 214 c || between 216 222 c.

(** [str.lower()] on one character. *)
Definition lower (c : ascii) : ascii :=
  if isupper c then ascii_of_nat (code c + 32) else c.

(** Simple upper-casing, for characters whose upper case stays below 256. *)
Definition upper (c : ascii) : ascii :=
  if between 97 122 c || between 224 246 c || between 248 254 c
  then ascii_of_nat (code c - 32) else c.

Definition chars (s : string) : list ascii := list_ascii_of_string s.
Definition str (l : list ascii) : string := string_of_list_ascii l.

Fixpoint lstrip (p : ascii -> bool) (l : list ascii) : list ascii :=
  match l with
  | c :: l' => if p c then lstrip p l' else l
  | [] => []
  end.

Definition rstrip (p : ascii -> bool) (l : list ascii) : list ascii :=
  rev (lstrip p (rev l)).

(** [l.strip(chars)] with the set of characters given as a predicate. *)
Definition strip_by (p : ascii -> bool) (l : list ascii) : list ascii :=
  rstrip p (lstrip p l).

(** [s.strip()] *)
Definition strip (s : string) : string := str (strip_by isspace (chars s)).

(** [s[-n:]] for [n > 0]: the last [n] characters, or all of [s]. *)
Definition tail_slice (n : nat) (s : string) : string :=
  str (skipn (List.length (chars s) - n) (chars s)).

(** Truth value of an [Optional[str]]: neither [None] nor empty. *)
Definition truthy (o : option string) : bool :=
  match o with
  | Some s => negb (String.eqb s EmptyString)
  | None => false
  end.

Definition digit_val (c : ascii) : Z := Z.of_nat (code c - 48).

Fixpoint digits_val (acc : Z) (l : list ascii) : Z :=
  match l with
  | c :: l' => digits_val (10 * acc + digit_val c)%Z l'
  | [] => acc
  end.

(** [int(s)] for a non-empty string of ASCII digits; [None] is [ValueError]. *)
Definition int_of_str (s : string) : option Z :=
  match chars s with
  | [] => None
  | l => if forallb isdigit09 l then Some (digits_val 0%Z l) else None
  end.

Fixpoint split_dot (l : list ascii) : list ascii * option (list ascii) :=
  match l with
  | [] => ([], None)
  | c :: l' =>
      if code_is 46 c then ([], Some l')
      else let '(a, b) := split_dot l' in (c :: a, b)
  end.

(** [float(s)] for a decimal literal [digits], [digits.digits], [.digits] or
    [digits.]; [None] is [ValueError]. *)
Definition float_of_str (s : string) : option Q :=
  match split_dot (chars s) with
  | (ip, None) =>
      match ip with
      | [] => None
      | _ => if forallb isdigit09 ip then Some (inject_Z (digits_val 0%Z ip)) else None
      end
  | (ip, Some fp) =>
      match ip ++ fp with
      | [] => None
      | ds =>
          if forallb isdigit09 ds
          then Some (Qmake (digits_val 0%Z ds)
                           (Z.to_pos (10 ^ Z.of_nat (List.length fp))))
          else None
      end
  end.

End PyStr.

(* ------------------------------------------------------------------------- *)
(** ** The fragment of Python's [re] used by the two scripts *)
(* ------------------------------------------------------------------------- *)
Module Re.
Import PyStr.

(** One-character matchers. *)
Inductive cset : Type :=
| CLit (c : ascii)                       (* a literal, [\n], [\.] *)
| CSpace                                 (* [\s] *)
| CDigit                                 (* [\d] *)
| CAny                                   (* [.] *)
| CClass (rs : list (ascii * ascii)).    (* [[0-9]], [[u]] *)

Inductive quant : Type :=
| Once | Opt | Star | Plus | StarLazy.   (* none, [?], [*], [+], [*?] *)

Inductive node : Type :=
| Atom (c : cset) (q : quant)
| Open                                   (* [(] *)
| Close.                                 (* [)] *)

Definition regex : Type := list node.

Record flags : Type := { IGNORECASE : bool; DOTALL : bool }.

(** No flags, [re.IGNORECASE], and [re.DOTALL | re.IGNORECASE]. *)
Definition fl_none : flags := {| IGNORECASE := false; DOTALL := false |}.
Definition fl_I : flags := {| IGNORECASE := true; DOTALL := false |}.
Definition fl_SI : flags := {| IGNORECASE := true; DOTALL := true |}.

(** *** Reading a pattern *)

Fixpoint class_items (l : list ascii) : option (list (ascii * ascii) * list ascii) :=
  match l with
  | [] => None
  | "]"%char :: rest => Some ([], rest)
  | lo :: "-"%char :: hi :: rest =>
      if code_is 93 hi then None else
      match class_items rest with
      | Some (rs, rest') => Some ((lo, hi) :: rs, rest')
      | None => None
      end
  | c :: rest =>
      match class_items rest with
      | Some (rs, rest') => Some ((c, c) :: rs, rest')
      | None => None
      end
  end.

Definition read_quant (l : list ascii) : option (quant * list ascii) :=
  match l with
  | "*"%char :: "?"%char :: rest => Some (StarLazy, rest)
  | "*"%char :: rest => Some (Star, rest)
  | "+"%char :: "?"%char :: _ => None
  | "+"%char :: rest => Some (Plus, rest)
  | "?"%char :: "?"%char :: _ => None
  | "?"%char :: rest => Some (Opt, rest)
  | _ => Some (Once, l)
  end.

Definition read_set (l : list ascii) : option (cset * list ascii) :=
  match l with
  | "\"%char :: "s"%char :: rest => Some (CSpace, rest)
  | "\"%char :: "d"%char :: rest => Some (CDigit, rest)
  | "\"%char :: "n"%char :: rest => Some (CLit "010"%char, rest)
  | "\"%char :: "."%char :: rest => Some (CLit "."%char, rest)
  | "\"%char :: _ => None
  | "["%char :: rest =>
      match class_items rest with
      | Some (rs, rest') => Some (CClass rs, rest')
      | None => None
      end
  | "."%char :: rest => Some (CAny, rest)
  | "*"%char :: _ | "+"%char :: _ | "?"%char :: _ | "|"%char :: _
  | "{"%char :: _ | "^"%char :: _ | "$"%char :: _ | ")"%char :: _ | "("%char :: _ => None
  | c :: rest => Some (CLit c, rest)
  | [] => None
  end.

Fixpoint read (fuel : nat) (l : list ascii) : option regex :=
  match fuel with
  | 0 => None
  | S fuel' =>
      match l with
      | [] => Some []
      | "("%char :: "?"%char :: _ => None
      | "("%char :: rest => option_map (cons Open) (read fuel' rest)
      | ")"%char :: rest => option_map (cons Close) (read fuel' rest)
      | _ =>
          match read_set l with
          | Some (c, rest) =>
              match read_quant rest with
              | Some (q, rest') => option_map (cons (Atom c q)) (read fuel' rest')
              | None => None
              end
          | None => None
          end
      end
  end.

(** [re.compile(pattern)]; [None] for a pattern outside the fragment. *)
Definition compile (pattern : string) : option regex :=
  read (S (String.length pattern)) (chars pattern).

(** *** Matching *)

Definition in_range (x : ascii) (r : ascii * ascii) : bool :=
  (code (fst r) <=? code x) && (code x <=? code (snd r)).

Definition accepts (fl : flags) (c : cset) (x : ascii) : bool :=
  match c with
  | CLit a =>
      if IGNORECASE fl then Ascii.eqb (lower x) (lower a) else Ascii.eqb x a
  | CSpace => isspace x
  | CDigit => isdigit09 x
  | CAny => DOTALL fl || negb (code_is 10 x)
  | CClass rs =>
      existsb (in_range x) rs
      || (IGNORECASE fl
          && (existsb (in_range (lower x)) rs || existsb (in_range (upper x)) rs))
  end.

Section Matcher.
Variable fl : flags.

(** A greedy repeat of a one-character matcher: the longest run first,
    giving back one character at a time until the continuation [k]
    succeeds. *)
Fixpoint greedy {R : Type} (ok : ascii -> bool) (k : list ascii -> nat -> option R)
  (s : list ascii) (pos : nat) : option R :=
  match s with
  | x :: s' =>
      if ok x then
        match greedy ok k s' (S pos) with
        | Some res => Some res
        | None => k s pos
        end
      else k s pos
  | [] => k s pos
  end.

(** A lazy repeat: the shortest run first. *)
Fixpoint lazy {R : Type} (ok : ascii -> bool) (k : list ascii -> nat -> option R)
  (s : list ascii) (pos : nat) : option R :=
  match k s pos with
  | Some res => Some res
  | None =>
      match s with
      | x :: s' => if ok x then lazy ok k s' (S pos) else None
      | [] => None
      end
  end.

(** Backtracking match of [r] against [s], which starts at offset [pos] of
    the subject.  [caps] collects the offsets at which groups open and
    close, latest first.  The result is the end offset and the group
    offsets of the first successful path. *)
Fixpoint match_here (r : regex) (s : list ascii) (pos : nat) (caps : list nat)
  {struct r} : option (nat * list nat) :=
  match r with
  | [] => Some (pos, caps)
  | Open :: r' => match_here r' s pos (pos :: caps)
  | Close :: r' => match_here r' s pos (pos :: caps)
  | Atom c Once :: r' =>
      match s with
      | x :: s' => if accepts fl c x then match_here r' s' (S pos) caps else None
      | [] => None
      end
  | Atom c Opt :: r' =>
      match s with
      | x :: s' =>
          if accepts fl c x then
            match match_here r' s' (S pos) caps with
            | Some res => Some res
            | None => match_here r' s pos caps
            end
          else match_here r' s pos caps
      | [] => match_here r' s pos caps
      end
  | Atom c Star :: r' =>
      greedy (accepts fl c) (fun s1 p1 => match_here r' s1 p1 caps) s pos
  | Atom c Plus :: r' =>
      match s with
      | x :: s' =>
          if accepts fl c x
          then greedy (accepts fl c) (fun s1 p1 => match_here r' s1 p1 caps) s' (S pos)
          else None
      | [] => None
      end
  | Atom c StarLazy :: r' =>
      lazy (accepts fl c) (fun s1 p1 => match_here r' s1 p1 caps) s pos
  end.

(** A match object: [m.start()], [m.end()], and the texts of the groups. *)
Record Match : Type := { m_start : nat; m_end : nat; m_groups : list string }.

Definition slice (text : list ascii) (a b : nat) : string :=
  str (firstn (b - a) (skipn a text)).

(** Group texts from the offsets [caps] (latest first, alternately a closing
    and an opening offset). *)
Fixpoint groups_of (text : list ascii) (caps : list nat) (acc : list string)
  : list string :=
  match caps with
  | b :: a :: caps' => groups_of text caps' (slice text a b :: acc)
  | _ => acc
  end.

Definition match_at (r : regex) (text s : list ascii) (pos : nat) : option Match :=
  match match_here r s pos [] with
  | Some (e, caps) =>
      Some {| m_start := pos; m_end := e; m_groups := groups_of text caps [] |}
  | None => None
  end.

(** The leftmost match at or after offset [pos], where [s] is the subject
    from [pos] on. *)
Fixpoint search_from (r : regex) (text s : list ascii) (pos : nat) : option Match :=
  match match_at r text s pos with
  | Some m => Some m
  | None =>
      match s with
      | _ :: s' => search_from r text s' (S pos)
      | [] => None
      end
  end.

(** All non-overlapping matches, left to right.  [skip] counts the
    characters still covered by the previous match. *)
Fixpoint scan (r : regex) (text s : list ascii) (pos skip : nat) : list Match :=
  match skip with
  | S k =>
      match s with
      | _ :: s' => scan r text s' (S pos) k
      | [] => []
      end
  | 0 =>
      match match_at r text s pos with
      | Some m =>
          m :: match s with
               | _ :: s' => scan r text s' (S pos) (m_end m - pos - 1)
               | [] => []
               end
      | None =>
          match s with
          | _ :: s' => scan r text s' (S pos) 0
          | [] => []
          end
      end
  end.

End Matcher.

(** [m.group(n)] for [n >= 1]. *)
Definition group (n : nat) (m : Match) : string :=
  nth (n - 1) (m_groups m) EmptyString.

(** [re.search(pattern, text, flags)].  A pattern outside the fragment
    matches nothing; every pattern below is inside it (see the [pat_*]
    lemmas). *)
Definition search (pattern : string) (text : string) (fl : flags) : option Match :=
  match compile pattern with
  | Some r => search_from fl r (chars text) (chars text) 0
  | None => None
  end.

(** [re.findall(pattern, text, flags)] for a pattern with one group: the
    list of the texts of group 1. *)
Definition findall (pattern : string) (text : string) (fl : flags) : list string :=
  match compile pattern with
  | Some r => map (group 1) (scan fl r (chars text) (chars text) 0 0)
  | None => []
  end.

End Re.

(* ------------------------------------------------------------------------- *)
(** ** Exceptions *)
(* ------------------------------------------------------------------------- *)

Inductive exn : Type :=
| CalledProcessError (returncode : Z)    (* subprocess.run(check=True) *)
| RuntimeError (msg : string)
| ZeroDivisionError
| ValueError
| TypeError
| OverflowError
| OtherError (what : string).            (* any other exception class *)

Inductive result (A : Type) : Type :=
| Ok (a : A)
| Raise (e : exn).
Arguments Ok {A} a.
Arguments Raise {A} e.

Definition bind {A B : Type} (r : result A) (k : A -> result B) : result B :=
  match r with
  | Ok a => k a
  | Raise e => Raise e
  end.

Notation "x <- r ;; k" := (bind r (fun x => k))
  (at level 61, r at next level, right associativity).

Definition is_ok {A : Type} (r : result A) : bool :=
  match r with Ok _ => true | Raise _ => false end.

(** Comparison of floats: [a > b]. *)
Definition Qgtb (a b : Q) : bool := negb (Qle_bool a b).

(** [a / b] on floats. *)
Definition py_div (a b : Q) : result Q :=
  if Qeq_bool b 0 then Raise ZeroDivisionError else Ok (a / b)%Q.

(** Where a quotient stops rounding to a float: the largest float is
    [2^1024 - 2^971], and from [2^1024 - 2^970] on the nearest float would
    be [2^1024]. *)
Definition FLOAT_OVERFLOW : Q := inject_Z (2 ^ 1024 - 2 ^ 970).

(** [a / b] on two [int]s: the true division raises [OverflowError] when
    the rounded quotient leaves the range of the floats. *)
Definition int_div (a b : Z) : result Q :=
  if (b =? 0)%Z then Raise ZeroDivisionError
  else if Qle_bool FLOAT_OVERFLOW (Qabs (inject_Z a / inject_Z b))
       then Raise OverflowError
       else Ok (inject_Z a / inject_Z b)%Q.

(** [float(s)] and [int(s)]. *)
Definition float (s : string) : result Q :=
  match PyStr.float_of_str s with Some q => Ok q | None => Raise ValueError end.

Definition int (s : string) : result Z :=
  match PyStr.int_of_str s with Some z => Ok z | None => Raise ValueError end.

(** A benchmark item: [{"name": ..., "trace_path": ...}]. *)
Record workload : Type := { wl_name : string; trace_path : string }.

Definition WORKLOADS : list workload :=
  [ {| wl_name := "astar";   trace_path := "ChampSim_CRC2/traces/astar_313B.trace.gz" |};
    {| wl_name := "lbm";     trace_path := "ChampSim_CRC2/traces/lbm_564B.trace.gz" |};
    {| wl_name := "mcf";     trace_path := "ChampSim_CRC2/traces/mcf_250B.trace.gz" |};
    {| wl_name := "milc";    trace_path := "ChampSim_CRC2/traces/milc_409B.trace.gz" |};
    {| wl_name := "omnetpp"; trace_path := "ChampSim_CRC2/traces/omnetpp_17B.trace.gz" |} ].

(* ------------------------------------------------------------------------- *)
(** ** [ChampSim_CRC2/eval_ipc_docker.py] *)
(* ------------------------------------------------------------------------- *)
Module EvalIpc.

Definition PER_CORE_PATTERN : string :=
  "CPU\s*\d+\s+cumulative\s+IPC:\s*([0-9]*\.?[0-9]+)".
Definition OVERALL_PATTERN : string := "Overall\s+IPC:\s*([0-9]*\.?[0-9]+)".

Definition _IPC_PATTERNS : list string := [PER_CORE_PATTERN; OVERALL_PATTERN].

(** The patterns written in place in [parse_ipc] and in the two hit-rate
    parsers. *)
Definition CUM_PATTERN : string := "c[u]?mmulative\s+IPC:\s*([0-9]*\.?[0-9]+)".
Definition INSTR_PATTERN : string := "Total\s+Instructions:\s*([0-9]+)".
Definition CYCLES_PATTERN : string := "Total\s+Cycles:\s*([0-9]+)".
Definition LLC_PATTERN : string := "LLC TOTAL\s+ACCESS:\s+(\d+)\s+HIT:\s+(\d+)".

(** [for pat in _IPC_PATTERNS: m = re.search(...); if m: return float(m.group(1))];
    [None] when the loop falls through. *)
Fixpoint search_patterns (pats : list string) (output : string) : option (result Q) :=
  match pats with
  | pat :: pats' =>
      match Re.search pat output Re.fl_I with
      | Some m => Some (float (Re.group 1 m))
      | None => search_patterns pats' output
      end
  | [] => None
  end.

(** The debug dump printed before the [raise] (the marker at the head of
    the first line is left out). *)
Definition dump_tail (output : string) : list string :=
  [ "IPC not found; last 500 chars of output:";
    "============================================================";
    PyStr.tail_slice 500 output;
    "============================================================" ].

Definition IPC_NOT_FOUND : exn := RuntimeError "IPC not found in simulator output.".

(** [parse_ipc(output)]: the lines it prints, and its result. *)
Definition parse_ipc (output : string) : list string * result Q :=
  match search_patterns _IPC_PATTERNS output with
  | Some r => ([], r)
  | None =>
      let cum_matches := Re.findall CUM_PATTERN output Re.fl_I in
      match cum_matches with
      | _ :: _ => ([], float (last cum_matches EmptyString))
      | [] =>
          let m_instr := Re.search INSTR_PATTERN output Re.fl_I in
          let m_cycles := Re.search CYCLES_PATTERN output Re.fl_I in
          match m_instr, m_cycles with
          | Some mi, Some mc =>
              match float (Re.group 1 mi) with
              | Raise e => ([], Raise e)
              | Ok instr =>
                  match float (Re.group 1 mc) with
                  | Raise e => ([], Raise e)
                  | Ok cycles =>
                      if Qgtb cycles 0 then ([], Ok (instr / cycles)%Q)
                      else (dump_tail output, Raise IPC_NOT_FOUND)
                  end
              end
          | _, _ => (dump_tail output, Raise IPC_NOT_FOUND)
          end
      end
  end.

(** [parse_cache_hit_rate(output)]: [Ok None] is the Python [None]. *)
Definition parse_cache_hit_rate (output : string) : result (option Q) :=
  match Re.search LLC_PATTERN output Re.fl_none with
  | None => Ok None
  | Some m =>
      access <- int (Re.group 1 m) ;;
      hit <- int (Re.group 2 m) ;;
      if (0 <? access)%Z then (rate <- int_div hit access ;; Ok (Some rate))
      else Ok (Some 0%Q)
  end.

(** [cc.with_suffix(".out")] *)
Inductive executable : Type := Out (cc : string).

(** What [run_in_docker] does for a build and for a run. *)
Record docker : Type := {
  docker_build : string -> result unit;                  (* the .cc file *)
  docker_sim : executable -> string -> result string     (* the trace: stdout *)
}.

(** One row of [results]; the fields [policy] ([cc_path.stem]) and
    [cpp_file_path] ([str(cc_path)]) are both kept as [cc_path]. *)
Record ipc_row : Type := {
  r_workload : string;
  r_cc_path : string;
  r_ipc : Q;
  r_cache_hit_rate : option Q
}.

Section Evaluate.
Variable dk : docker.

(** [compile_policy(cc)]: re-raises what the build raises. *)
Definition compile_policy (cc : string) : result executable :=
  _ <- docker_build dk cc ;; Ok (Out cc).

(** [run_executable(exe, trace_path, warmup, sim)]; the two instruction
    counts only go into the command line. *)
Definition run_executable (exe : executable) (trace : string) : result string :=
  docker_sim dk exe trace.

(** The [for w in workloads] loop of [evaluate_policy]. *)
Fixpoint evaluate_rows (cc_path : string) (exe : executable)
  (workloads : list workload) (results : list ipc_row) : result (list ipc_row) :=
  match workloads with
  | [] => Ok results
  | w :: rest =>
      out <- run_executable exe (trace_path w) ;;
      ipc <- snd (parse_ipc out) ;;
      hit <- parse_cache_hit_rate out ;;
      evaluate_rows cc_path exe rest
        (results ++ [ {| r_workload := wl_name w; r_cc_path := cc_path;
                         r_ipc := ipc; r_cache_hit_rate := hit |} ])
  end.

(** [sum(r["ipc"] for r in results)] *)
Definition sum_ipc (results : list ipc_row) : Q :=
  fold_left (fun acc r => acc + r_ipc r)%Q results 0%Q.

(** [evaluate_policy(cc_path, workloads, warmup, sim)] *)
Definition evaluate_policy (cc_path : string) (workloads : list workload)
  : result (Q * list ipc_row) :=
  exe <- compile_policy cc_path ;;
  results <- evaluate_rows cc_path exe workloads [] ;;
  mean_ipc <- match results with
              | _ :: _ => py_div (sum_ipc results) (inject_Z (Z.of_nat (List.length results)))
              | [] => Ok 0%Q
              end ;;
  Ok (mean_ipc, results).

End Evaluate.
End EvalIpc.

(* ------------------------------------------------------------------------- *)
(** ** [run_loop_docker.py] *)
(* ------------------------------------------------------------------------- *)
Module RunLoop.

Definition ITERATIONS : nat := 50.
Definition CANDIDATES : nat := 3.
Definition workloads : list workload := WORKLOADS.

Definition underscore : ascii := "_"%char.

(** [c if c.isalnum() else "_"] *)
Definition replace_non_alnum (c : ascii) : ascii :=
  if PyStr.isalnum c then c else underscore.

(** [sanitize(name)]:
    ["".join(c if c.isalnum() else "_" for c in name).strip("_").lower()] *)
Definition sanitize (name : string) : string :=
  PyStr.str
    (map PyStr.lower
       (PyStr.strip_by (Ascii.eqb underscore)
          (map replace_non_alnum (PyStr.chars name)))).

(** [_extract(pattern)] inside [parse_policy_content] *)
Definition _extract (text pattern : string) : option string :=
  match Re.search pattern text Re.fl_SI with
  | Some m => Some (PyStr.strip (Re.group 1 m))
  | None => None
  end.

Definition NAME_PATTERN : string := "##\s*Policy\s*Name\s*\n(.*?)\n".
Definition DESC_PATTERN : string := "##\s*Policy\s*Description\s*\n(.*?)\n".
Definition CODE_PATTERN : string := "```cpp\s*(.*?)\s*```".

(** [parse_policy_content(text)] *)
Definition parse_policy_content (text : string)
  : option string * option string * option string :=
  let name := _extract text NAME_PATTERN in
  let desc := _extract text DESC_PATTERN in
  let code := _extract text CODE_PATTERN in
  (name, desc, code).

(** Lines 304-307 of [main]:
    [name, desc, code = parse_policy_content(text)] followed by
    [if not (name and desc and code): continue]. *)
Definition parsed_candidate (text : string) : option (string * string * string) :=
  let '(name, desc, code) := parse_policy_content text in
  if negb (PyStr.truthy name && PyStr.truthy desc && PyStr.truthy code)
  then None
  else
    match name, desc, code with
    | Some name, Some desc, Some code => Some (name, desc, code)
    | _, _, _ => None
    end.

(** [parse_hit_rate(output)] *)
Definition parse_hit_rate (output : string) : result Q :=
  match Re.search EvalIpc.LLC_PATTERN output Re.fl_none with
  | Some m =>
      access_count <- int (Re.group 1 m) ;;
      hit_count <- int (Re.group 2 m) ;;
      if (0 <? access_count)%Z
      then int_div hit_count access_count
      else Ok 0%Q
  | None => Raise (RuntimeError "LLC TOTAL not found")
  end.

(** The file [EXAMPLE_DIR / f"{i:03}_{j:02}_{base}.cc"], kept as its three
    components. *)
Record path : Type := { p_iter : nat; p_slot : nat; p_base : string }.

(** [cc.with_suffix(".out")] *)
Inductive executable : Type := Out (cc : path).

(** A row of the [experiments] table, as [record] inserts it. *)
Record row : Type := {
  row_workload : string;
  row_policy : string;
  row_description : string;
  row_workload_description : string;
  row_cpp_file_path : path;
  row_cache_hit_rate : Q;
  row_score : Q
}.

(** [record(workload, name, desc, cc, rate, workload_desc)]: one INSERT. *)
Definition record (db : list row) (wl name desc : string) (cc : path) (rate : Q)
  (workload_desc : string) : list row :=
  db ++ [ {| row_workload := wl; row_policy := name; row_description := desc;
             row_workload_description := workload_desc; row_cpp_file_path := cc;
             row_cache_hit_rate := rate; row_score := rate |} ].

(** The outside of the loop: the generator's answer for slot [j] of
    iteration [i] ([resp.choices[0].message.content], which may be [None],
    or the exception of the call), the writing of a source file
    ([cc.write_text(code)], which raises [OSError] where the file system
    refuses the name), the build of a written file, and the run of its
    executable on a trace.  The prompt of a call is a function of the
    state, so the answers are indexed by the place of the call. *)
Record world : Type := {
  llm : nat -> nat -> result (option string);
  write_text : path -> string -> result unit;           (* file, its text *)
  docker_build : path -> string -> result unit;         (* file, its text *)
  docker_sim : executable -> string -> result string    (* the trace: stdout *)
}.

(** An element of [candidate_results]. *)
Record cand : Type := {
  avg_hit : Q;
  c_name : string;
  c_desc : string;
  c_code : string;
  c_cc : path;
  per_wl : list (string * Q)
}.

(** The variables of [main] that live across iterations, and the table. *)
Record state : Type := {
  best_hit : Q;
  current_hit : Q;
  prev : option (string * string * string);   (* prev_name, prev_desc, prev_code *)
  db : list row
}.

Definition with_db (st : state) (d : list row) : state :=
  {| best_hit := best_hit st; current_hit := current_hit st; prev := prev st; db := d |}.

(** What an iteration does to the [for] loop. *)
Inductive signal : Type := Next | Break.

(** [max(l, key=key)]: the running maximum is replaced only by a strictly
    greater key. *)
Fixpoint max_from {A : Type} (key : A -> Q) (best : A) (l : list A) : A :=
  match l with
  | [] => best
  | x :: l' => if Qgtb (key x) (key best) then max_from key x l' else max_from key best l'
  end.

Definition py_max {A : Type} (key : A -> Q) (l : list A) : option A :=
  match l with
  | [] => None
  | x :: l' => Some (max_from key x l')
  end.

Section Loop.
Variable w : world.
Variable wls : list workload.        (* the global [workloads] *)

(** [compile_policy(cc)] and [run_policy(exe, trace_path)]: both print and
    re-raise. *)
Definition compile_policy (cc : path) (code : string) : result executable :=
  _ <- docker_build w cc code ;; Ok (Out cc).

Definition run_policy (exe : executable) (trace : string) : result string :=
  docker_sim w exe trace.

(** The loop [for trace_info in workloads] of one candidate.  The table is
    returned on every path: rows inserted before an exception stay. *)
Fixpoint evaluate (name desc : string) (cc : path) (exe : executable)
  (todo : list workload)
  (total_hit : Q) (acc : list (string * Q)) (d : list row)
  : list row * result (Q * list (string * Q)) :=
  match todo with
  | [] => (d, Ok (total_hit, acc))
  | trace_info :: rest =>
      match run_policy exe (trace_path trace_info) with
      | Raise e => (d, Raise e)
      | Ok out =>
          match parse_hit_rate out with
          | Raise e => (d, Raise e)
          | Ok hit =>
              evaluate name desc cc exe rest (total_hit + hit)%Q
                (acc ++ [(wl_name trace_info, hit)])
                (record d (wl_name trace_info) name desc cc hit "")
          end
      end
  end.

(** The body of [for j in range(CANDIDATES)]: [Ok None] is a [continue],
    [Ok (Some c)] the element appended to [candidate_results].  The suffix
    ["_t02"] of the file name is [f"_t{str(temp).replace('.', '')}"] for the
    fixed [TEMP = 0.2]. *)
Definition slot (i j : nat) (d : list row) : list row * result (option cand) :=
  match llm w i j with
  | Raise _ => (d, Ok None)                                  (* except Exception *)
  | Ok None => (d, Raise TypeError)                          (* re.search on None *)
  | Ok (Some text) =>
      match parsed_candidate text with
      | None => (d, Ok None)                                 (* parse failed *)
      | Some (name, desc, code) =>
          let cc := {| p_iter := i; p_slot := j;
                       p_base := (sanitize name ++ "_t02")%string |} in
          match write_text w cc code with
          | Raise e => (d, Raise e)                          (* outside any [try] *)
          | Ok _ =>
              match compile_policy cc code with
              | Raise (CalledProcessError _) => (d, Ok None) (* except CalledProcessError *)
              | Raise e => (d, Raise e)
              | Ok exe =>
                  match evaluate name desc cc exe wls 0%Q [] d with
                  | (d', Raise e) => (d', Raise e)
                  | (d', Ok (total_hit, pw)) =>
                      match py_div total_hit (inject_Z (Z.of_nat (List.length wls))) with
                      | Raise e => (d', Raise e)
                      | Ok avg =>
                          (d', Ok (Some {| avg_hit := avg; c_name := name;
                                           c_desc := desc; c_code := code;
                                           c_cc := cc; per_wl := pw |}))
                      end
                  end
              end
          end
      end
  end.

(** [for j in range(CANDIDATES)], from slot [j] on, [n] slots to go. *)
Fixpoint slots (i j n : nat) (candidate_results : list cand) (d : list row)
  : list row * result (list cand) :=
  match n with
  | 0 => (d, Ok candidate_results)
  | S n' =>
      match slot i j d with
      | (d', Raise e) => (d', Raise e)
      | (d', Ok None) => slots i (S j) n' candidate_results d'
      | (d', Ok (Some c)) => slots i (S j) n' (candidate_results ++ [c]) d'
      end
  end.

(** The head of an iteration [i >= 1]: [if current_hit > best_hit:
    best_hit = current_hit]. *)
Definition feedback (i : nat) (st : state) : state :=
  if i =? 0 then st
  else if Qgtb (current_hit st) (best_hit st)
       then {| best_hit := current_hit st; current_hit := current_hit st;
               prev := prev st; db := db st |}
       else st.

(** [best_hit > 0 and (current_hit / best_hit) > 1.3] *)
Definition early_exit (best current : Q) : bool :=
  Qgtb best 0 && Qgtb (current / best) 1.3.

(** One pass through the body of [for i in range(ITERATIONS)]. *)
Definition iteration (ncand : nat) (i : nat) (st : state) : state * result signal :=
  let st1 := feedback i st in
  match slots i 0 ncand [] (db st1) with
  | (d, Raise e) => (with_db st1 d, Raise e)
  | (d, Ok candidate_results) =>
      match py_max avg_hit candidate_results with
      | None => (with_db st1 d, Ok Next)    (* [] : if not candidate_results: continue *)
      | Some best_cand =>
          let st2 :=
            {| best_hit := best_hit st1;
               current_hit := avg_hit best_cand;
               prev := Some (c_name best_cand, c_desc best_cand, c_code best_cand);
               db := record d "all" (c_name best_cand) (c_desc best_cand)
                       (c_cc best_cand) (avg_hit best_cand) "" |} in
          if early_exit (best_hit st2) (current_hit st2)
          then (st2, Ok Break)
          else (st2, Ok Next)
      end
  end.

(** [for i in range(ITERATIONS)], from iteration [i] on, [n] to go. *)
Fixpoint for_range (ncand : nat) (i n : nat) (st : state) : state * result unit :=
  match n with
  | 0 => (st, Ok tt)
  | S n' =>
      match iteration ncand i st with
      | (st', Ok Next) => for_range ncand (S i) n' st'
      | (st', Ok Break) => (st', Ok tt)
      | (st', Raise e) => (st', Raise e)
      end
  end.

(** An observation of the loop: the state at the head of iteration [k],
    when the loop gets there. *)
Fixpoint state_at (ncand : nat) (st0 : state) (k : nat) : option state :=
  match k with
  | 0 => Some st0
  | S k' =>
      match state_at ncand st0 k' with
      | Some st =>
          match iteration ncand k' st with
          | (st', Ok Next) => Some st'
          | _ => None
          end
      | None => None
      end
  end.

End Loop.

(** [main()], from the first assignment of [best_hit] on: [initial] is
    [top_policies[0]["score"]], [d] the table at that moment. *)
Definition main (w : world) (initial : Q) (d : list row) : state * result unit :=
  for_range w workloads CANDIDATES 0 ITERATIONS
    {| best_hit := initial; current_hit := initial; prev := None; db := d |}.

End RunLoop.

(* ------------------------------------------------------------------------- *)
(** ** [run_loop_docker.py]: [sanitize] on names beyond Latin-1 *)
(* ------------------------------------------------------------------------- *)
Module Wide.

(** A character is its code point; a Latin-1 character is the one of
    [PyStr]. *)
Definition cp (c : ascii) : nat := PyStr.code c.

Definition latin1 (c : nat) : bool := c <? 256.

(** U+0130 LATIN CAPITAL LETTER I WITH DOT ABOVE, U+0307 COMBINING DOT
    ABOVE, U+03D2 GREEK UPSILON WITH HOOK SYMBOL. *)
Definition I_DOT : nat := 304.
Definition DOT_ABOVE : nat := 775.
Definition UPSILON_HOOK : nat := 978.

(** [str.isalnum], [str.isupper] and [str.lower] on one character: below
    256 as in [PyStr]; at the three code points above as the interpreter's
    tables have them ([lower] of U+0130 is two characters); [None]
    elsewhere, where the tables are not written out. *)
Definition isalnum (c : nat) : option bool :=
  if latin1 c then Some (PyStr.isalnum (ascii_of_nat c))
  else if c =? I_DOT then Some true
  else if c =? DOT_ABOVE then Some false
  else if c =? UPSILON_HOOK then Some true
  else None.

Definition isupper (c : nat) : option bool :=
  if latin1 c then Some (PyStr.isupper (ascii_of_nat c))
  else if c =? I_DOT then Some true
  else if c =? DOT_ABOVE then Some false
  else if c =? UPSILON_HOOK then Some true
  else None.

Definition lower (c : nat) : option (list nat) :=
  if latin1 c then Some [cp (PyStr.lower (ascii_of_nat c))]
  else if c =? I_DOT then Some [105; DOT_ABOVE]
  else if c =? DOT_ABOVE then Some [DOT_ABOVE]
  else if c =? UPSILON_HOOK then Some [UPSILON_HOOK]
  else None.

Fixpoint all {A B : Type} (f : A -> option B) (l : list A) : option (list B) :=
  match l with
  | [] => Some []
  | x :: l' =>
      match f x, all f l' with
      | Some y, Some r => Some (y :: r)
      | _, _ => None
      end
  end.

Definition underscore : nat := 95.

(** [c if c.isalnum() else "_"] *)
Definition replace_non_alnum (c : nat) : option nat :=
  match isalnum c with
  | Some b => Some (if b then c else underscore)
  | None => None
  end.

Fixpoint lstrip (l : list nat) : list nat :=
  match l with
  | c :: l' => if c =? underscore then lstrip l' else l
  | [] => []
  end.

(** [s.strip("_")] *)
Definition strip (l : list nat) : list nat := rev (lstrip (rev (lstrip l))).

(** [sanitize(name)], where the tables are written out for every character
    met on the way. *)
Definition sanitize (name : list nat) : option (list nat) :=
  match all replace_non_alnum name with
  | Some replaced =>
      match all lower (strip replaced) with
      | Some lowered => Some (List.concat lowered)
      | None => None
      end
  | None => None
  end.

End Wide.

(* ------------------------------------------------------------------------- *)
(** ** [eval_ipc_docker.py]: the choice of workloads *)
(* ------------------------------------------------------------------------- *)
Module Pick.

(** [s.lower()] *)
Definition str_lower (s : string) : string :=
  PyStr.str (map PyStr.lower (PyStr.chars s)).

(** [n.strip().lower()] *)
Definition normalise (n : string) : string := str_lower (PyStr.strip n).

(** [x in s] for a set of strings.  A set is a list read up to order and
    repetition: the code asks it for membership, for emptiness and for its
    sorted listing only. *)
Definition mem (x : string) (s : list string) : bool := existsb (String.eqb x) s.

(** [sorted(s)]: the strings in ascending order of their code points. *)
Fixpoint insert (x : string) (l : list string) : list string :=
  match l with
  | [] => [x]
  | y :: l' => if String.leb x y then x :: l else y :: insert x l'
  end.

Fixpoint sorted (l : list string) : list string :=
  match l with
  | [] => []
  | x :: l' => insert x (sorted l')
  end.

(** What [pick_workloads] does: it returns a list, or raises
    [ValueError(message)]. *)
Inductive picked : Type :=
| Selected (l : list workload)
| Unknown (message : string).

(** [pick_workloads(names)], over the suite [WORKLOADS]. *)
Definition pick_workloads (suite : list workload) (names : list string) : picked :=
  match names with
  | [] => Selected suite
  | _ :: _ =>
      let name_set := map normalise names in
      let selected :=
        filter (fun w => mem (str_lower (wl_name w)) name_set) suite in
      let missing :=
        nodup string_dec
          (filter (fun n => negb (mem n (map (fun w => str_lower (wl_name w)) selected)))
             name_set) in
      match missing with
      | _ :: _ =>
          Unknown ("Unknown workload(s): " ++ String.concat ", " (sorted missing))
      | [] => Selected selected
      end
  end.

End Pick.

(* ------------------------------------------------------------------------- *)
(** ** The name of a candidate's file, [run_loop_docker.py] line 306 *)
(* ------------------------------------------------------------------------- *)
Module FileName.

(** [str(n)] for an [int] that is not negative *)
Definition decimal (n : nat) : string :=
  DecimalString.NilEmpty.string_of_uint (Nat.to_uint n).

(** [f"{n:0{width}}"] for such an [n], from its decimal writing [s]: zeros
    in front up to [width] characters. *)
Definition zfill (width : nat) (s : string) : string :=
  (PyStr.str (repeat "0"%char (width - String.length s)) ++ s)%string.

(** [f"{i:03}_{j:02}_{base}.cc"], the name of the file under [EXAMPLE_DIR] *)
Definition file_name (cc : RunLoop.path) : string :=
  (zfill 3 (decimal (RunLoop.p_iter cc)) ++ "_"
   ++ zfill 2 (decimal (RunLoop.p_slot cc)) ++ "_"
   ++ RunLoop.p_base cc ++ ".cc")%string.

End FileName.

(* ========================================================================= *)
(** * Vocabulary of the properties, and sample inputs *)
(* ========================================================================= *)

Import PyStr Re EvalIpc RunLoop.

(** The first and the last character of a string, when it has one. *)
Definition first_is (p : ascii -> bool) (l : list ascii) : bool :=
  match l with c :: _ => p c | [] => false end.

Definition last_is (p : ascii -> bool) (l : list ascii) : bool :=
  first_is p (rev l).

Definition is_sep (c : ascii) : bool := Ascii.eqb underscore c.



(** What a quantifier allows as the length of a run. *)
Definition quant_ok (q : quant) (n : nat) : Prop :=
  match q with
  | Once => n = 1
  | Opt => n <= 1
  | Plus => 1 <= n
  | Star | StarLazy => True
  end.

(** [derives fl r s pos caps s' e caps']: the pattern [r] consumes a prefix of
    [s] and leaves [s']; offsets run from [pos] to [e], and the group
    offsets grow from [caps] to [caps']. *)
Inductive derives (fl : flags)
  : regex -> list ascii -> nat -> list nat -> list ascii -> nat -> list nat -> Prop :=
| d_nil s pos caps : derives fl [] s pos caps s pos caps
| d_open r s pos caps s' e caps' :
    derives fl r s pos (pos :: caps) s' e caps' ->
    derives fl (Open :: r) s pos caps s' e caps'
| d_close r s pos caps s' e caps' :
    derives fl r s pos (pos :: caps) s' e caps' ->
    derives fl (Close :: r) s pos caps s' e caps'
| d_atom c q r wd s pos caps s' e caps' :
    forallb (accepts fl c) wd = true ->
    quant_ok q (List.length wd) ->
    derives fl r s (pos + List.length wd) caps s' e caps' ->
    derives fl (Atom c q :: r) (wd ++ s) pos caps s' e caps'.

Definition groupless (r : regex) : bool :=
  forallb (fun n => match n with Atom _ _ => true | _ => false end) r.

(** A word matched by a pattern without groups. *)
Definition matches_word (fl : flags) (body : regex) (wd : list ascii) : Prop :=
  exists s' pos caps e, derives fl body (wd ++ s') pos caps s' e caps.

Definition D09 : cset := CClass [("0"%char, "9"%char)].

(** The bodies of the groups: [[0-9]*\.?[0-9]+], [[0-9]+] and [\d+]. *)
Definition decimal_body : regex :=
  [Atom D09 Star; Atom (CLit "."%char) Opt; Atom D09 Plus].

Definition digits09_body : regex := [Atom D09 Plus].

Definition digits_body : regex := [Atom CDigit Plus].

(** A pattern is of the form [pre ( body )], with no group in [pre]. *)
Definition ends_in_group (pattern : string) (body : regex) : Prop :=
  exists pre, compile pattern = Some (pre ++ Open :: body ++ [Close])
              /\ groupless pre = true.

(** The four strategies, in the words of the specification: each either
    yields a value or is absent. *)
Definition strategy : Type := string -> option Q.

(** (a) the per-core cumulative rate, first match. *)
Definition per_core_rate : strategy := fun output =>
  match search PER_CORE_PATTERN output fl_I with
  | Some m => float_of_str (group 1 m)
  | None => None
  end.

(** (b) the aggregate summary rate, first match. *)
Definition summary_rate : strategy := fun output =>
  match search OVERALL_PATTERN output fl_I with
  | Some m => float_of_str (group 1 m)
  | None => None
  end.

(** (c) the third pattern of the code, [c[u]?mmulative ...], last match. *)
Definition last_cumulative : strategy := fun output =>
  match findall CUM_PATTERN output fl_I with
  | [] => None
  | l => float_of_str (last l EmptyString)
  end.

(** (d) total instructions over total cycles, when the cycles are positive. *)
Definition totals_ratio : strategy := fun output =>
  match search INSTR_PATTERN output fl_I, search CYCLES_PATTERN output fl_I with
  | Some mi, Some mc =>
      match float_of_str (group 1 mi), float_of_str (group 1 mc) with
      | Some instr, Some cycles =>
          if Qgtb cycles 0 then Some (instr / cycles)%Q else None
      | _, _ => None
      end
  | _, _ => None
  end.

Fixpoint first_success (l : list strategy) (output : string) : option Q :=
  match l with
  | [] => None
  | f :: l' =>
      match f output with
      | Some v => Some v
      | None => first_success l' output
      end
  end.

Definition strategies : list strategy :=
  [per_core_rate; summary_rate; last_cumulative; totals_ratio].

(** The per-core pattern as [compile] reads it. *)
Definition per_core_regex : regex :=
  match compile PER_CORE_PATTERN with Some r => r | None => [] end.

Definition per_core_line : string := "CPU 0 cumulative IPC: 1.2345".

(** A run output as the simulator prints it: heartbeat, final per-core
    report, cache statistics. *)
Definition sample_output : string :=
"Heartbeat CPU 0 instructions: 10000003 cycles: 9609228 heartbeat IPC: 1.04067 cumulative IPC: 1.04067 (Simulation time: 0 hr 0 min 21 sec)
Finished CPU 0 instructions: 10000000 cycles: 8100486 cumulative IPC: 1.23449 (Simulation time: 0 hr 0 min 40 sec)

CPU 0 cumulative IPC: 1.2345 instructions: 10000000 cycles: 8100486
LLC TOTAL     ACCESS:     245741  HIT:      81913  MISS:     163828
".

Definition totals_output : string :=
"Total Instructions: 1000
Total Cycles: 500".

Definition zero_cycles_output : string :=
"Total Instructions: 1000
Total Cycles: 0".

Definition two_per_core_lines : string :=
"CPU 0 cumulative IPC: 1.0
CPU 0 cumulative IPC: 2.0".

Definition two_typo_lines : string :=
"Heartbeat CPU 0 cummulative IPC: 1.0
Heartbeat CPU 0 cummulative IPC: 2.0".

(** Two reports as the simulator prints them, heartbeat and final. *)
Definition heartbeat_pair : string :=
"Heartbeat CPU 0 instructions: 10000003 cycles: 9609228 heartbeat IPC: 1.04067 cumulative IPC: 1.0 (Simulation time: 0 hr 0 min 21 sec)
Finished CPU 0 instructions: 10000000 cycles: 8100486 cumulative IPC: 2.0 (Simulation time: 0 hr 0 min 40 sec)".

(** In the words of the specification, strategy (c) is a case-insensitive,
    typo-tolerant cumulative pattern of which the last match is taken; the
    comment above the pattern of the code names the two spellings,
    cumulative and cummulative.  This pattern reads both. *)
Definition TOLERANT_CUM_PATTERN : string :=
  "cum?mulative\s+IPC:\s*([0-9]*\.?[0-9]+)".

Definition tolerant_last_cumulative : strategy := fun output =>
  match findall TOLERANT_CUM_PATTERN output fl_I with
  | [] => None
  | l => float_of_str (last l EmptyString)
  end.

(** The line of 1.2345 after an earlier report, and with one more digit. *)
Definition earlier_report_output : string :=
"CPU 0 cumulative IPC: 9.9
CPU 0 cumulative IPC: 1.2345".

Definition longer_number_output : string := "CPU 0 cumulative IPC: 1.23456".

(** Outputs on which two strategies would succeed. *)
Definition summary_then_per_core : string :=
"Overall IPC: 3.0
CPU 0 cumulative IPC: 1.5".

Definition summary_and_typo : string :=
"Overall IPC: 0.75
cummulative IPC: 0.5".

(** A report in another case than the patterns are written in. *)
Definition upper_case_report : string := "cpu 0 CUMULATIVE ipc: 0.25".

Definition typo_and_totals : string :=
"cummulative IPC: 0.5
Total Instructions: 1000
Total Cycles: 500".

Definition zero_access_output : string :=
"CPU 0 cumulative IPC: 0.5 instructions: 10 cycles: 20
LLC TOTAL     ACCESS:          0  HIT:          0  MISS:          0
".

(** The sections of a response in the words of the specification: "three
    labeled sections, matched case-insensitively [...]: a name line, a
    description paragraph, and one fenced code block".  A label is a line
    that starts with [##]; the line of a labelled section is the first line
    after its label that is not blank, and there is none when that line is
    another label or a fence. *)
Fixpoint lines_of (l : list ascii) : list (list ascii) :=
  match l with
  | [] => [[]]
  | c :: l' =>
      if code_is 10 c then [] :: lines_of l'
      else match lines_of l' with
           | cur :: rest => (c :: cur) :: rest
           | [] => [[c]]
           end
  end.

(** A line without its white space, in lower case. *)
Definition squash (l : list ascii) : string :=
  str (map lower (filter (fun c => negb (isspace c)) l)).

Definition is_label (l : list ascii) : bool := String.prefix "##" (squash l).

Definition is_fence (l : list ascii) : bool := String.prefix "```" (squash l).

Fixpoint content_line (ls : list (list ascii)) : option string :=
  match ls with
  | [] => None
  | l :: rest =>
      if forallb isspace l then content_line rest
      else if is_label l || is_fence l then None
      else Some (strip (str l))
  end.

Fixpoint labelled_line (label : string) (ls : list (list ascii)) : option string :=
  match ls with
  | [] => None
  | l :: rest =>
      if String.eqb (squash l) label then content_line rest
      else labelled_line label rest
  end.

Definition name_line (text : string) : option string :=
  labelled_line "##policyname" (lines_of (chars text)).

Definition description_paragraph (text : string) : option string :=
  labelled_line "##policydescription" (lines_of (chars text)).

Definition complete_response : string :=
"Some reasoning first.

## Policy Name
Streaming DRRIP

## Policy Description
Set-dueling DRRIP with a streaming detector.

## C++ Implementation
```cpp
#include <vector>
void InitReplacementState() {}
```
".

(** A response whose name line was left empty, and one whose description
    was. *)
Definition nameless_response : string :=
"## Policy Name

## Policy Description
Set-dueling DRRIP with a streaming detector.

## C++ Implementation
```cpp
#include <vector>
void InitReplacementState() {}
```
".

Definition undescribed_response : string :=
"## Policy Name
Streaming DRRIP

## Policy Description

## C++ Implementation
```cpp
#include <vector>
void InitReplacementState() {}
```
".

Definition response_without_code : string :=
"## Policy Name
Streaming DRRIP

## Policy Description
Set-dueling DRRIP with a streaming detector.
".

Definition ok_docker : EvalIpc.docker :=
  {| EvalIpc.docker_build := fun _ => Ok tt;
     EvalIpc.docker_sim := fun _ _ => Ok zero_access_output |}.

(** The generation slot a candidate comes from. *)
Definition slot_of (c : cand) : nat := p_slot (c_cc c).

(** The statistics line of a run with the given counters. *)
Definition llc_line (access hit : string) : string :=
  ("LLC TOTAL     ACCESS: " ++ access ++ "  HIT: " ++ hit ++ "  MISS: 0")%string.

Definition start (initial : Q) : state :=
  {| best_hit := initial; current_hit := initial; prev := None; db := [] |}.

(** Every slot answers well; slot 0 hits 25 of 100, the others 50 of 100. *)
Definition tie_world : world :=
  {| llm := fun _ _ => Ok (Some complete_response);
     write_text := fun _ _ => Ok tt;
     docker_build := fun _ _ => Ok tt;
     docker_sim := fun '(Out cc) _ =>
       match p_slot cc with
       | 0 => Ok (llc_line "100" "25")
       | _ => Ok (llc_line "100" "50")
       end |}.

(** Every candidate builds; a run on the trace of lbm exits with status 1. *)
Definition failing_run_world : world :=
  {| llm := fun _ _ => Ok (Some complete_response);
     write_text := fun _ _ => Ok tt;
     docker_build := fun _ _ => Ok tt;
     docker_sim := fun exe trace =>
       if String.eqb trace "ChampSim_CRC2/traces/lbm_564B.trace.gz"
       then Raise (CalledProcessError 1)
       else Ok (llc_line "100" "50") |}.

(** The runs succeed but print no statistics line. *)
Definition silent_run_world : world :=
  {| llm := fun _ _ => Ok (Some complete_response);
     write_text := fun _ _ => Ok tt;
     docker_build := fun _ _ => Ok tt;
     docker_sim := fun _ _ => Ok "Simulation complete." |}.

(** In every iteration slot 0 gets no answer, slot 1 an answer without
    code, slot 2 a file that does not build; later slots are fine. *)
Definition flaky_world : world :=
  {| llm := fun _ j =>
       match j with
       | 0 => Raise (OtherError "APIConnectionError")
       | 1 => Ok (Some response_without_code)
       | _ => Ok (Some complete_response)
       end;
     write_text := fun _ _ => Ok tt;
     docker_build := fun cc _ =>
       match p_slot cc with
       | 2 => Raise (CalledProcessError 1)
       | _ => Ok tt
       end;
     docker_sim := fun _ _ => Ok (llc_line "100" "50") |}.


(** The generator always returns a text when it returns. *)
Definition answers_are_texts (w : world) : Prop :=
  forall i j, llm w i j <> Ok None.

(** Every source file can be written. *)
Definition writes_succeed (w : world) : Prop :=
  forall cc code, write_text w cc code = Ok tt.

(** A build fails only with a non-zero exit status. *)
Definition builds_fail_by_exit_status (w : world) : Prop :=
  forall cc code e, docker_build w cc code = Raise e ->
  exists rc, e = CalledProcessError rc.

(** Every run succeeds and prints a statistics line. *)
Definition runs_succeed (w : world) : Prop :=
  forall exe trace, exists out,
    docker_sim w exe trace = Ok out /\ is_ok (parse_hit_rate out) = true.

(** ** Vocabulary of the further properties *)
(** A list obtained from another by leaving elements out. *)
Inductive subseq {A : Type} : list A -> list A -> Prop :=
| subseq_nil : subseq [] []
| subseq_skip x l l' : subseq l l' -> subseq l (x :: l')
| subseq_keep x l l' : subseq l l' -> subseq (x :: l) (x :: l').

(** The normalised name of a request is the lower-cased name of a workload
    of the suite. *)
Definition known (suite : list workload) (x : string) : Prop :=
  exists w, In w suite /\ Pick.str_lower (wl_name w) = x.

Definition leb_rel (a b : string) : Prop := String.leb a b = true.

(** The two lists [pick_workloads] builds for a non-empty request. *)
Definition selection (suite : list workload) (names : list string) : list workload :=
  filter (fun w => Pick.mem (Pick.str_lower (wl_name w)) (map Pick.normalise names)) suite.

Definition missing (suite : list workload) (names : list string) : list string :=
  nodup string_dec
    (filter (fun n => negb (Pick.mem n (map (fun w => Pick.str_lower (wl_name w))
                                          (selection suite names))))
       (map Pick.normalise names)).

(** The letter m, in either case. *)
Definition is_m (c : ascii) : bool := Ascii.eqb (PyStr.lower c) "m"%char.

(** Does the text hold the letter m twice in a row? *)
Fixpoint has_mm (l : list ascii) : bool :=
  match l with
  | a :: (b :: _) as l' => (is_m a && is_m b) || has_mm l'
  | _ => false
  end.


Definition bare_cumulative_lines : string :=
"cumulative IPC: 1.0
cumulative IPC: 2.0".

(** A row of [evaluate_policy] is what the run of the executable on the
    trace of a workload gives. *)
Definition observed (dk : EvalIpc.docker) (cc : string) (w : workload)
  (r : EvalIpc.ipc_row) : Prop :=
  EvalIpc.r_workload r = wl_name w
  /\ EvalIpc.r_cc_path r = cc
  /\ exists out,
       EvalIpc.docker_sim dk (EvalIpc.Out cc) (trace_path w) = Ok out
       /\ snd (EvalIpc.parse_ipc out) = Ok (EvalIpc.r_ipc r)
       /\ EvalIpc.parse_cache_hit_rate out = Ok (EvalIpc.r_cache_hit_rate r).

(** The run of the executable on the trace of a workload succeeds, its
    output holds an IPC, and the reading of its hit rate does not raise. *)
Definition measurable (dk : EvalIpc.docker) (cc : string) (w : workload) : Prop :=
  exists out,
    EvalIpc.docker_sim dk (EvalIpc.Out cc) (trace_path w) = Ok out
    /\ is_ok (snd (EvalIpc.parse_ipc out)) = true
    /\ is_ok (EvalIpc.parse_cache_hit_rate out) = true.

(** The run on the trace of a workload fails with [e]: in the run itself,
    in the reading of its IPC, or, after an IPC was read, in the reading of
    its hit rate. *)
Definition fails_with (dk : EvalIpc.docker) (cc : string) (w : workload) (e : exn)
  : Prop :=
  EvalIpc.docker_sim dk (EvalIpc.Out cc) (trace_path w) = Raise e
  \/ exists out,
       EvalIpc.docker_sim dk (EvalIpc.Out cc) (trace_path w) = Ok out
       /\ (snd (EvalIpc.parse_ipc out) = Raise e
           \/ (is_ok (snd (EvalIpc.parse_ipc out)) = true
               /\ EvalIpc.parse_cache_hit_rate out = Raise e)).

(** A build that succeeds, and runs that print the IPC of [sample_output],
    except on the trace of mcf, whose run exits with status 3. *)
Definition mcf_fails : EvalIpc.docker :=
  {| EvalIpc.docker_build := fun _ => Ok tt;
     EvalIpc.docker_sim := fun _ trace =>
       if String.eqb trace "ChampSim_CRC2/traces/mcf_250B.trace.gz"
       then Raise (CalledProcessError 3)
       else Ok sample_output |}.

Definition sample_docker : EvalIpc.docker :=
  {| EvalIpc.docker_build := fun _ => Ok tt;
     EvalIpc.docker_sim := fun _ _ => Ok sample_output |}.

(** The row that [record] inserts for the rate of a candidate on one
    workload. *)
Definition rate_row (name desc : string) (cc : path) (o : string * Q) : row :=
  {| row_workload := fst o; row_policy := name; row_description := desc;
     row_workload_description := ""; row_cpp_file_path := cc;
     row_cache_hit_rate := snd o; row_score := snd o |}.

(** The pair kept for a workload: its name, and the rate read from the
    output of the run of the candidate's executable on its trace. *)
Definition measured (w : world) (cc : path) (wl : workload) (o : string * Q) : Prop :=
  fst o = wl_name wl
  /\ exists out,
       docker_sim w (Out cc) (trace_path wl) = Ok out
       /\ parse_hit_rate out = Ok (snd o).

(** The run of a candidate on the trace of a workload fails with [e], in
    the run itself or in the reading of its hit rate. *)
Definition run_fails (w : world) (cc : path) (wl : workload) (e : exn) : Prop :=
  docker_sim w (Out cc) (trace_path wl) = Raise e
  \/ exists out,
       docker_sim w (Out cc) (trace_path wl) = Ok out
       /\ parse_hit_rate out = Raise e.

(** A row written during iterations [lo], ..., [hi - 1]: its score is its
    hit rate, which is not negative, and its file is of one of these
    iterations. *)
Definition row_between (lo hi : nat) (r : row) : Prop :=
  row_score r = row_cache_hit_rate r
  /\ (0 <= row_score r)%Q
  /\ row_workload_description r = ""
  /\ lo <= p_iter (row_cpp_file_path r) < hi.

(** The table lists [x] as the mean of a chosen candidate. *)
Definition recorded (d : list row) (x : Q) : Prop :=
  exists r, In r d /\ row_workload r = "all" /\ row_score r = x.

(** [best_hit] and [current_hit] are the initial score or a recorded mean,
    and the policy fed back is the one of the row of [current_hit]. *)
Definition backed (initial : Q) (st : state) : Prop :=
  (best_hit st = initial \/ recorded (db st) (best_hit st))
  /\ match prev st with
     | None => current_hit st = initial
     | Some (name, desc, _) =>
         exists r, In r (db st) /\ row_workload r = "all"
                   /\ row_score r = current_hit st
                   /\ row_policy r = name /\ row_description r = desc
     end.


(** [p in l], for texts as lists of characters. *)
Definition infix_of (p l : list ascii) : Prop :=
  exists a b, l = a ++ p ++ b.

(** The closing fence of a code block. *)
Definition fence : list ascii := chars "```".

(** A pattern is of the form [pre ( .*? ) post], with no group in [pre] or
    in [post]. *)
Definition lazy_group (pattern : string) (post : regex) : Prop :=
  exists pre,
    compile pattern = Some (pre ++ Open :: Atom CAny StarLazy :: Close :: post)
    /\ groupless pre = true /\ groupless post = true.

(** A text without whitespace at its ends. *)
Definition stripped (s : string) : Prop :=
  first_is isspace (chars s) = false /\ last_is isspace (chars s) = false.

(* ========================================================================= *)
(** * Properties *)
(* ========================================================================= *)

(** A property of all 256 characters is checked by enumeration. *)
Ltac each_char c :=
  destruct c as [[] [] [] [] [] [] [] []]; vm_compute; try intuition congruence.

(** ** Characters and strings *)
Section StringFacts.

Lemma chars_str (l : list ascii) : chars (str l) = l.
Proof. apply list_ascii_of_string_of_list_ascii. Qed.

Lemma str_chars (s : string) : str (chars s) = s.
Proof. apply string_of_list_ascii_of_string. Qed.


Lemma lower_underscore_iff (c : ascii) :
  lower c = "_"%char <-> c = "_"%char.
Proof. each_char c. Qed.

Lemma lstrip_split (p : ascii -> bool) (l : list ascii) :
  exists pre, l = pre ++ lstrip p l /\ Forall (fun c => p c = true) pre.
Proof.
  induction l as [|c l IH]; simpl.
  - exists []. split; [reflexivity | constructor].
  - destruct (p c) eqn:E.
    + destruct IH as (pre & Hl & Hp). exists (c :: pre). split.
      * simpl. now rewrite <- Hl.
      * now constructor.
    + exists []. split; [reflexivity | constructor].
Qed.

Lemma lstrip_head (p : ascii -> bool) (l : list ascii) :
  match lstrip p l with c :: _ => p c = false | [] => True end.
Proof.
  induction l as [|c l IH]; simpl; [exact Logic.I|].
  destruct (p c) eqn:E; [exact IH | exact E].
Qed.

Lemma rstrip_split (p : ascii -> bool) (l : list ascii) :
  exists post, l = rstrip p l ++ post /\ Forall (fun c => p c = true) post.
Proof.
  unfold rstrip. destruct (lstrip_split p (rev l)) as (pre & Hl & Hp).
  exists (rev pre). split.
  - rewrite <- rev_app_distr, <- Hl. symmetry. apply rev_involutive.
  - now apply Forall_rev.
Qed.

Lemma rstrip_last (p : ascii -> bool) (l : list ascii) :
  match rev (rstrip p l) with c :: _ => p c = false | [] => True end.
Proof. unfold rstrip. rewrite rev_involutive. apply lstrip_head. Qed.

Lemma strip_by_split (p : ascii -> bool) (l : list ascii) :
  exists pre post,
    l = pre ++ strip_by p l ++ post
    /\ Forall (fun c => p c = true) pre
    /\ Forall (fun c => p c = true) post
    /\ first_is p (strip_by p l) = false
    /\ last_is p (strip_by p l) = false.
Proof.
  unfold strip_by.
  destruct (lstrip_split p l) as (pre & Hl & Hpre).
  destruct (rstrip_split p (lstrip p l)) as (post & Hr & Hpost).
  exists pre, post. repeat split; try assumption.
  - now rewrite <- Hr.
  - pose proof (lstrip_head p l) as Hh. rewrite Hr in Hh.
    destruct (rstrip p (lstrip p l)) as [|c t]; [reflexivity|exact Hh].
  - unfold last_is. pose proof (rstrip_last p (lstrip p l)) as Ht.
    destruct (rev (rstrip p (lstrip p l))); [reflexivity|exact Ht].
Qed.

End StringFacts.

(** ** Candidate names: [sanitize] *)
Section Sanitize.












End Sanitize.

(** ** The matcher *)
Section MatcherFacts.

Lemma greedy_sound {R : Type} (ok : ascii -> bool) (k : list ascii -> nat -> option R)
  (s : list ascii) :
  forall pos res, greedy ok k s pos = Some res ->
  exists wd s1, s = wd ++ s1 /\ forallb ok wd = true
                /\ k s1 (pos + List.length wd) = Some res.
Proof.
  induction s as [|x s IH]; intros pos res; simpl.
  - intros H. exists [], []. rewrite Nat.add_0_r. auto.
  - destruct (ok x) eqn:Ex.
    + destruct (greedy ok k s (S pos)) as [res'|] eqn:Eg.
      * intros [= ->]. destruct (IH _ _ Eg) as (wd & s1 & -> & Hall & Hk).
        exists (x :: wd), s1. simpl. rewrite Ex, Hall.
        replace (pos + S (List.length wd)) with (S pos + List.length wd) by lia.
        auto.
      * intros H. exists [], (x :: s). rewrite Nat.add_0_r. auto.
    + intros H. exists [], (x :: s). rewrite Nat.add_0_r. auto.
Qed.

Lemma lazy_sound {R : Type} (ok : ascii -> bool) (k : list ascii -> nat -> option R)
  (s : list ascii) :
  forall pos res, lazy ok k s pos = Some res ->
  exists wd s1, s = wd ++ s1 /\ forallb ok wd = true
                /\ k s1 (pos + List.length wd) = Some res.
Proof.
  induction s as [|x s IH]; intros pos res; simpl.
  - destruct (k [] pos) eqn:Ek; [|discriminate].
    intros [= ->]. exists [], []. rewrite Nat.add_0_r. auto.
  - destruct (k (x :: s) pos) eqn:Ek.
    + intros [= ->]. exists [], (x :: s). rewrite Nat.add_0_r. auto.
    + destruct (ok x) eqn:Ex; [|discriminate].
      intros Hl. destruct (IH _ _ Hl) as (wd & s1 & -> & Hall & Hk).
      exists (x :: wd), s1. simpl. rewrite Ex, Hall.
      replace (pos + S (List.length wd)) with (S pos + List.length wd) by lia.
      auto.
Qed.

(** Every successful match follows the pattern. *)
Lemma match_here_sound (fl : flags) (r : regex) :
  forall s pos caps e caps',
    match_here fl r s pos caps = Some (e, caps') ->
    exists s', derives fl r s pos caps s' e caps'.
Proof.
  induction r as [|n r IH]; intros s pos caps e caps' H; simpl in H.
  - injection H as <- <-. exists s. constructor.
  - destruct n as [c q| |].
    + destruct q.
      * (* Once *)
        destruct s as [|x s]; [discriminate|].
        destruct (accepts fl c x) eqn:Ex; [|discriminate].
        destruct (IH _ _ _ _ _ H) as (s' & Hd). exists s'.
        apply (d_atom fl c Once r [x] s); simpl; [now rewrite Ex|reflexivity|].
        now replace (pos + 1) with (S pos) by lia.
      * (* Opt *)
        assert (Hskip : match_here fl r s pos caps = Some (e, caps') ->
                        exists s', derives fl (Atom c Opt :: r) s pos caps s' e caps').
        { intros H0. destruct (IH _ _ _ _ _ H0) as (s' & Hd). exists s'.
          apply (d_atom fl c Opt r [] s); simpl; [reflexivity|lia|].
          now rewrite Nat.add_0_r. }
        destruct s as [|x s]; [now apply Hskip|].
        destruct (accepts fl c x) eqn:Ex; [|now apply Hskip].
        destruct (match_here fl r s (S pos) caps) as [res|] eqn:Em; [|now apply Hskip].
        injection H as ->.
        destruct (IH _ _ _ _ _ Em) as (s' & Hd). exists s'.
        apply (d_atom fl c Opt r [x] s); simpl; [now rewrite Ex|lia|].
        now replace (pos + 1) with (S pos) by lia.
      * (* Star *)
        destruct (greedy_sound _ _ _ _ _ H) as (wd & s1 & -> & Hall & Hk).
        destruct (IH _ _ _ _ _ Hk) as (s' & Hd). exists s'.
        now apply d_atom.
      * (* Plus *)
        destruct s as [|x s]; [discriminate|].
        destruct (accepts fl c x) eqn:Ex; [|discriminate].
        destruct (greedy_sound _ _ _ _ _ H) as (wd & s1 & -> & Hall & Hk).
        destruct (IH _ _ _ _ _ Hk) as (s' & Hd). exists s'.
        apply (d_atom fl c Plus r (x :: wd) s1); simpl; [now rewrite Ex|lia|].
        now replace (pos + S (List.length wd)) with (S pos + List.length wd) by lia.
      * (* StarLazy *)
        destruct (lazy_sound _ _ _ _ _ H) as (wd & s1 & -> & Hall & Hk).
        destruct (IH _ _ _ _ _ Hk) as (s' & Hd). exists s'.
        now apply d_atom.
    + destruct (IH _ _ _ _ _ H) as (s' & Hd). exists s'. now constructor.
    + destruct (IH _ _ _ _ _ H) as (s' & Hd). exists s'. now constructor.
Qed.

Lemma derives_app_inv (fl : flags) (r1 r2 : regex) :
  forall s pos caps s' e caps',
    derives fl (r1 ++ r2) s pos caps s' e caps' ->
    exists s1 p1 c1,
      derives fl r1 s pos caps s1 p1 c1 /\ derives fl r2 s1 p1 c1 s' e caps'.
Proof.
  induction r1 as [|n r1 IH]; intros s pos caps s' e caps' H; simpl in H.
  - exists s, pos, caps. split; [constructor|exact H].
  - inversion H; subst;
      match goal with
      | Hd : derives _ (r1 ++ r2) _ _ _ _ _ _ |- _ =>
          destruct (IH _ _ _ _ _ _ Hd) as (s1 & p1 & c1 & Ha & Hb)
      end;
      exists s1, p1, c1; (split; [now constructor|exact Hb]).
Qed.

Lemma derives_consumed (fl : flags) r s pos caps s' e caps' :
  derives fl r s pos caps s' e caps' ->
  exists wd, s = wd ++ s' /\ e = pos + List.length wd.
Proof.
  induction 1 as [s pos caps| | |c q r wd s pos caps s' e caps' Hall Hq Hd IH].
  - exists []. simpl. split; [reflexivity|lia].
  - assumption.
  - assumption.
  - destruct IH as (wd' & -> & ->). exists (wd ++ wd').
    rewrite length_app, app_assoc. split; [reflexivity|lia].
Qed.

Lemma derives_groupless (fl : flags) r s pos caps s' e caps' :
  derives fl r s pos caps s' e caps' -> groupless r = true -> caps' = caps.
Proof.
  induction 1; simpl; intros Hg; try discriminate; auto.
Qed.

End MatcherFacts.

(** ** What the groups of a match hold *)
Section GroupFacts.

Lemma skipn_next {A : Type} (l : list A) :
  forall pos x s, skipn pos l = x :: s -> skipn (S pos) l = s.
Proof.
  induction l as [|a l IH]; intros [|pos] x s H; simpl in *; try discriminate.
  - injection H as _ <-. now destruct l.
  - now apply (IH pos x).
Qed.

Lemma skipn_prefix {A : Type} (wd : list A) :
  forall l pos s, skipn pos l = wd ++ s -> skipn (pos + List.length wd) l = s.
Proof.
  induction wd as [|x wd IH]; intros l pos s H; simpl in *.
  - now rewrite Nat.add_0_r.
  - replace (pos + S (List.length wd)) with (S pos + List.length wd) by lia.
    apply IH. now apply (skipn_next l pos x).
Qed.

Lemma firstn_prefix {A : Type} (wd s : list A) :
  firstn (List.length wd) (wd ++ s) = wd.
Proof. induction wd as [|x wd IH]; simpl; [reflexivity|now rewrite IH]. Qed.

Lemma derives_slice (fl : flags) (text : list ascii) r s pos caps s' e caps' :
  skipn pos text = s ->
  derives fl r s pos caps s' e caps' ->
  skipn e text = s'
  /\ exists wd, s = wd ++ s' /\ e = pos + List.length wd /\ slice text pos e = str wd.
Proof.
  intros Hs Hd. destruct (derives_consumed _ _ _ _ _ _ _ _ Hd) as (wd & Hw & He).
  subst s e. split.
  - now apply skipn_prefix.
  - exists wd. split; [exact Hw|]. split; [reflexivity|].
    unfold slice. rewrite Hw.
    replace (pos + List.length wd - pos) with (List.length wd) by lia.
    now rewrite firstn_prefix.
Qed.

(** A group [( body )] records its two offsets and nothing else. *)
Lemma derives_group (fl : flags) (text : list ascii) body s pos caps s' e caps' :
  groupless body = true ->
  skipn pos text = s ->
  derives fl (Open :: body ++ [Close]) s pos caps s' e caps' ->
  caps' = e :: pos :: caps
  /\ skipn e text = s'
  /\ exists wd, slice text pos e = str wd /\ matches_word fl body wd.
Proof.
  intros Hg Hs H. inversion H as [| ? ? ? ? ? ? ? Hd | |]; subst.
  apply derives_app_inv in Hd. destruct Hd as (s1 & p1 & c1 & Hb & Hc).
  pose proof (derives_groupless _ _ _ _ _ _ _ _ Hb Hg) as ->.
  inversion Hc as [| | ? ? ? ? ? ? ? Hn |]; subst.
  inversion Hn; subst.
  destruct (derives_slice _ _ _ _ _ _ _ _ _ eq_refl Hb) as (Hs' & wd & Hw & He & Hsl).
  repeat split; auto.
  exists wd. split; [exact Hsl|].
  exists s', pos, (pos :: caps), e. now rewrite <- Hw.
Qed.

(** A pattern that ends in its only group. *)
Lemma match_at_group1 (fl : flags) (pre body : regex) (text : list ascii) pos m :
  groupless pre = true -> groupless body = true ->
  match_at fl (pre ++ Open :: body ++ [Close]) text (skipn pos text) pos = Some m ->
  exists wd, m_groups m = [str wd] /\ matches_word fl body wd.
Proof.
  intros Hp Hb H. unfold match_at in H.
  destruct (match_here fl _ _ pos []) as [[e caps]|] eqn:Em; [|discriminate].
  injection H as <-. simpl.
  apply match_here_sound in Em. destruct Em as (s' & Hd).
  apply derives_app_inv in Hd. destruct Hd as (s1 & p1 & c1 & Hd1 & Hd2).
  pose proof (derives_groupless _ _ _ _ _ _ _ _ Hd1 Hp) as ->.
  destruct (derives_slice _ _ _ _ _ _ _ _ _ eq_refl Hd1) as (Hs1 & _).
  destruct (derives_group _ _ _ _ _ _ _ _ _ Hb Hs1 Hd2) as (-> & _ & wd & Hsl & Hw).
  exists wd. simpl. now rewrite Hsl.
Qed.

(** A pattern with two groups, the second at its end. *)
Lemma match_at_group2 (fl : flags) (pre b1 mid b2 : regex) (text : list ascii) pos m :
  groupless pre = true -> groupless b1 = true ->
  groupless mid = true -> groupless b2 = true ->
  match_at fl (pre ++ (Open :: b1 ++ [Close]) ++ mid ++ Open :: b2 ++ [Close])
    text (skipn pos text) pos = Some m ->
  exists w1 w2, m_groups m = [str w1; str w2]
                /\ matches_word fl b1 w1 /\ matches_word fl b2 w2.
Proof.
  intros Hp H1 Hm H2 H. unfold match_at in H.
  destruct (match_here fl _ _ pos []) as [[e caps]|] eqn:Em; [|discriminate].
  injection H as <-. simpl.
  apply match_here_sound in Em. destruct Em as (s' & Hd).
  apply derives_app_inv in Hd. destruct Hd as (s1 & p1 & c1 & Hd1 & Hd).
  apply derives_app_inv in Hd. destruct Hd as (s2 & p2 & c2 & Hd2 & Hd).
  apply derives_app_inv in Hd. destruct Hd as (s3 & p3 & c3 & Hd3 & Hd4).
  pose proof (derives_groupless _ _ _ _ _ _ _ _ Hd1 Hp) as ->.
  destruct (derives_slice _ _ _ _ _ _ _ _ _ eq_refl Hd1) as (Hs1 & _).
  destruct (derives_group _ _ _ _ _ _ _ _ _ H1 Hs1 Hd2) as (-> & Hs2 & w1 & Hsl1 & Hw1).
  pose proof (derives_groupless _ _ _ _ _ _ _ _ Hd3 Hm) as ->.
  destruct (derives_slice _ _ _ _ _ _ _ _ _ Hs2 Hd3) as (Hs3 & _).
  destruct (derives_group _ _ _ _ _ _ _ _ _ H2 Hs3 Hd4) as (-> & _ & w2 & Hsl2 & Hw2).
  exists w1, w2. simpl. now rewrite Hsl1, Hsl2.
Qed.

(** [search_from] and [scan] only return what [match_at] finds. *)
Lemma search_from_inv (fl : flags) (r : regex) (text : list ascii) m :
  forall s pos, skipn pos text = s ->
  search_from fl r text s pos = Some m ->
  exists p, match_at fl r text (skipn p text) p = Some m.
Proof.
  induction s as [|x s IH]; intros pos Hs H; simpl in H.
  - destruct (match_at fl r text [] pos) eqn:E; [|discriminate].
    injection H as ->. exists pos. now rewrite Hs.
  - destruct (match_at fl r text (x :: s) pos) eqn:E.
    + injection H as ->. exists pos. now rewrite Hs.
    + apply (IH (S pos)); [|exact H]. now apply (skipn_next text pos x).
Qed.

Lemma scan_inv (fl : flags) (r : regex) (text : list ascii) m :
  forall s pos skip, skipn pos text = s ->
  In m (scan fl r text s pos skip) ->
  exists p, match_at fl r text (skipn p text) p = Some m.
Proof.
  induction s as [|x s IH]; intros pos skip Hs H.
  - destruct skip; simpl in H; [|contradiction].
    destruct (match_at fl r text [] pos) eqn:E; [|contradiction].
    destruct H as [<-|[]]. exists pos. now rewrite Hs.
  - pose proof (skipn_next text pos x s Hs) as Hs'.
    destruct skip; simpl in H.
    + destruct (match_at fl r text (x :: s) pos) as [m0|] eqn:E.
      * destruct H as [<-|H]; [exists pos; now rewrite Hs|].
        now apply (IH (S pos) (m_end m0 - pos - 1)).
      * now apply (IH (S pos) 0).
    + now apply (IH (S pos) skip).
Qed.

End GroupFacts.

(** ** Numbers captured by the patterns *)
Section NumberFacts.

Lemma accepts_D09 (fl : flags) (x : ascii) :
  accepts fl D09 x = true -> isdigit09 x = true.
Proof. destruct fl as [[] []]; each_char x. Qed.

Lemma accepts_digit (fl : flags) (x : ascii) :
  accepts fl CDigit x = true -> isdigit09 x = true.
Proof. trivial. Qed.

Lemma accepts_dot (fl : flags) (x : ascii) :
  accepts fl (CLit "."%char) x = true -> x = "."%char.
Proof. destruct fl as [[] []]; each_char x. Qed.

Lemma digit_not_dot (x : ascii) : isdigit09 x = true -> code_is 46 x = false.
Proof. each_char x. Qed.

Lemma forallb_impl {A : Type} (p q : A -> bool) (l : list A) :
  (forall x, p x = true -> q x = true) -> forallb p l = true -> forallb q l = true.
Proof.
  intros Hpq. induction l as [|x l IH]; simpl; [trivial|].
  intros H. apply andb_true_iff in H. destruct H as [Hx Hl].
  now rewrite (Hpq _ Hx), IH.
Qed.

Lemma derives_atom_inv (fl : flags) c q r s pos caps s' e caps' :
  derives fl (Atom c q :: r) s pos caps s' e caps' ->
  exists wd s1, s = wd ++ s1 /\ forallb (accepts fl c) wd = true
                /\ quant_ok q (List.length wd)
                /\ derives fl r s1 (pos + List.length wd) caps s' e caps'.
Proof. intros H. inversion H; subst. eauto 8. Qed.

Lemma derives_nil_inv (fl : flags) s pos caps s' e caps' :
  derives fl [] s pos caps s' e caps' -> s' = s /\ e = pos /\ caps' = caps.
Proof. intros H. inversion H; subst. auto. Qed.

Lemma split_dot_digits (l : list ascii) :
  forallb isdigit09 l = true -> split_dot l = (l, None).
Proof.
  induction l as [|c l IH]; simpl; [reflexivity|].
  intros H. apply andb_true_iff in H. destruct H as [Hc Hl].
  now rewrite (digit_not_dot _ Hc), (IH Hl).
Qed.

Lemma split_dot_at_dot (d1 rest : list ascii) :
  forallb isdigit09 d1 = true ->
  split_dot (d1 ++ "."%char :: rest) = (d1, Some rest).
Proof.
  induction d1 as [|c l IH]; simpl; [reflexivity|].
  intros H. apply andb_true_iff in H. destruct H as [Hc Hl].
  now rewrite (digit_not_dot _ Hc), (IH Hl).
Qed.

(** [float] accepts every text matched by [[0-9]*\.?[0-9]+]. *)
Lemma float_decimal (fl : flags) (wd : list ascii) :
  matches_word fl decimal_body wd -> exists v, float (str wd) = Ok v.
Proof.
  intros (s' & pos & caps & e & H).
  apply derives_atom_inv in H. destruct H as (d1 & s1 & E1 & H1 & _ & H).
  apply derives_atom_inv in H. destruct H as (dt & s2 & -> & Ht & Hq & H).
  apply derives_atom_inv in H. destruct H as (d2 & s3 & -> & H2 & Hp & H).
  apply derives_nil_inv in H. destruct H as (-> & _).
  assert (wd = d1 ++ dt ++ d2) as ->.
  { apply (app_inv_tail s3). now rewrite E1, <- !app_assoc. }
  apply (forallb_impl _ _ _ (accepts_D09 fl)) in H1, H2.
  simpl in Hq, Hp.
  unfold float, float_of_str. rewrite chars_str.
  destruct dt as [|t [|t' dt]]; simpl in Hq; try lia.
  - change (d1 ++ [] ++ d2) with (d1 ++ d2).
    assert (Hall : forallb isdigit09 (d1 ++ d2) = true)
      by (rewrite forallb_app; now rewrite H1, H2).
    rewrite (split_dot_digits _ Hall).
    remember (d1 ++ d2) as ds eqn:E. destruct ds as [|a l].
    + destruct d1, d2; simpl in *; try discriminate; lia.
    + rewrite Hall. eauto.
  - simpl in Ht. rewrite andb_true_r in Ht. apply accepts_dot in Ht. subst t.
    change (d1 ++ ["."%char] ++ d2) with (d1 ++ "."%char :: d2).
    rewrite split_dot_at_dot by assumption.
    assert (Hall : forallb isdigit09 (d1 ++ d2) = true)
      by (rewrite forallb_app; now rewrite H1, H2).
    remember (d1 ++ d2) as ds eqn:E. destruct ds as [|a l].
    + destruct d1, d2; simpl in *; try discriminate; lia.
    + rewrite Hall. eauto.
Qed.

Lemma digits_word (fl : flags) (c : cset) (wd : list ascii) :
  (forall x, accepts fl c x = true -> isdigit09 x = true) ->
  matches_word fl [Atom c Plus] wd ->
  forallb isdigit09 wd = true /\ wd <> [].
Proof.
  intros Hc (s' & pos & caps & e & H).
  apply derives_atom_inv in H. destruct H as (d & s1 & E & Hd & Hp & H).
  apply derives_nil_inv in H. destruct H as (-> & _).
  apply app_inv_tail in E. subst d. split.
  - now apply (forallb_impl _ _ _ Hc).
  - simpl in Hp. destruct wd; [simpl in Hp; lia|discriminate].
Qed.

(** [float] accepts every text matched by [[0-9]+], and [int] every text
    matched by [\d+]; the value is the number the digits spell. *)
Lemma float_digits09 (fl : flags) (wd : list ascii) :
  matches_word fl digits09_body wd ->
  float (str wd) = Ok (inject_Z (digits_val 0%Z wd)).
Proof.
  intros H. destruct (digits_word fl D09 wd (accepts_D09 fl) H) as (Hd & Hne).
  unfold float, float_of_str. rewrite chars_str, (split_dot_digits _ Hd).
  destruct wd; [contradiction|]. now rewrite Hd.
Qed.

Lemma int_digits (fl : flags) (wd : list ascii) :
  matches_word fl digits_body wd ->
  int (str wd) = Ok (digits_val 0%Z wd).
Proof.
  intros H. destruct (digits_word fl CDigit wd (accepts_digit fl) H) as (Hd & Hne).
  unfold int, int_of_str. rewrite chars_str.
  destruct wd; [contradiction|]. now rewrite Hd.
Qed.

Lemma search_group1 (fl : flags) (pattern : string) (body : regex) text m :
  ends_in_group pattern body -> groupless body = true ->
  search pattern text fl = Some m ->
  exists wd, group 1 m = str wd /\ matches_word fl body wd.
Proof.
  intros (pre & Hc & Hp) Hb H. unfold search in H. rewrite Hc in H.
  apply (search_from_inv fl _ (chars text) m (chars text) 0 eq_refl) in H.
  destruct H as (p & H).
  destruct (match_at_group1 _ _ _ _ _ _ Hp Hb H) as (wd & Hg & Hw).
  exists wd. unfold group. now rewrite Hg.
Qed.

Lemma findall_group1 (fl : flags) (pattern : string) (body : regex) text g :
  ends_in_group pattern body -> groupless body = true ->
  In g (findall pattern text fl) ->
  exists wd, g = str wd /\ matches_word fl body wd.
Proof.
  intros (pre & Hc & Hp) Hb H. unfold findall in H. rewrite Hc in H.
  apply in_map_iff in H. destruct H as (m & <- & H).
  apply (scan_inv fl _ (chars text) m (chars text) 0 0 eq_refl) in H.
  destruct H as (p & H).
  destruct (match_at_group1 _ _ _ _ _ _ Hp Hb H) as (wd & Hg & Hw).
  exists wd. unfold group. now rewrite Hg.
Qed.

(** The patterns of the two scripts are inside the fragment, and each ends
    in a group of the expected form. *)
Ltac shape n pattern :=
  exists (firstn n (match compile pattern with Some r => r | None => [] end));
  split; vm_compute; reflexivity.

Lemma pat_per_core : ends_in_group EvalIpc.PER_CORE_PATTERN decimal_body.
Proof. shape 22 EvalIpc.PER_CORE_PATTERN. Qed.

Lemma pat_overall : ends_in_group EvalIpc.OVERALL_PATTERN decimal_body.
Proof. shape 13 EvalIpc.OVERALL_PATTERN. Qed.

Lemma pat_cum : ends_in_group EvalIpc.CUM_PATTERN decimal_body.
Proof. shape 17 EvalIpc.CUM_PATTERN. Qed.

Lemma pat_instr : ends_in_group EvalIpc.INSTR_PATTERN digits09_body.
Proof. shape 20 EvalIpc.INSTR_PATTERN. Qed.

Lemma pat_cycles : ends_in_group EvalIpc.CYCLES_PATTERN digits09_body.
Proof. shape 14 EvalIpc.CYCLES_PATTERN. Qed.

Lemma pat_name : exists r, compile RunLoop.NAME_PATTERN = Some r.
Proof. eexists. vm_compute. reflexivity. Qed.

Lemma pat_desc : exists r, compile RunLoop.DESC_PATTERN = Some r.
Proof. eexists. vm_compute. reflexivity. Qed.

Lemma pat_code : exists r, compile RunLoop.CODE_PATTERN = Some r.
Proof. eexists. vm_compute. reflexivity. Qed.

(** [LLC TOTAL\s+ACCESS:\s+(\d+)\s+HIT:\s+(\d+)] *)
Lemma pat_llc :
  exists pre mid,
    compile EvalIpc.LLC_PATTERN
    = Some (pre ++ (Open :: digits_body ++ [Close]) ++ mid ++ Open :: digits_body ++ [Close])
    /\ groupless pre = true /\ groupless mid = true.
Proof.
  exists (firstn 18 (match compile EvalIpc.LLC_PATTERN with Some r => r | None => [] end)).
  exists (firstn 6 (skipn 21 (match compile EvalIpc.LLC_PATTERN with Some r => r | None => [] end))).
  repeat split; vm_compute; reflexivity.
Qed.

(** The two counters of a matched [LLC TOTAL] line are read without error. *)
Lemma llc_groups (text : string) m :
  search EvalIpc.LLC_PATTERN text fl_none = Some m ->
  exists access hit, int (group 1 m) = Ok access /\ int (group 2 m) = Ok hit.
Proof.
  destruct pat_llc as (pre & mid & Hc & Hp & Hm).
  intros H. unfold search in H. rewrite Hc in H.
  apply (search_from_inv _ _ (chars text) m (chars text) 0 eq_refl) in H.
  destruct H as (p & H).
  destruct (match_at_group2 _ pre digits_body mid digits_body _ _ _
              Hp eq_refl Hm eq_refl H)
    as (w1 & w2 & Hg & Hw1 & Hw2).
  exists (digits_val 0%Z w1), (digits_val 0%Z w2).
  unfold group. rewrite Hg. simpl. split; now apply (int_digits fl_none).
Qed.

End NumberFacts.

(** ** The primary metric: [parse_ipc] *)
Section ParseIpc.

Lemma Qgtb_lt (a b : Q) : Qgtb a b = true <-> (b < a)%Q.
Proof.
  unfold Qgtb. rewrite negb_true_iff. split.
  - intros H. apply Qnot_le_lt. intros Hle.
    apply Qle_bool_iff in Hle. congruence.
  - intros H. destruct (Qle_bool a b) eqn:E; [|reflexivity].
    apply Qle_bool_iff in E. exfalso. now apply (Qlt_not_le b a).
Qed.

Lemma Qgtb_le (a b : Q) : Qgtb a b = false <-> (a <= b)%Q.
Proof.
  unfold Qgtb. rewrite negb_false_iff. apply Qle_bool_iff.
Qed.

Lemma float_Ok (s : string) (v : Q) : float s = Ok v -> float_of_str s = Some v.
Proof. unfold float. destruct (float_of_str s); congruence. Qed.

Lemma search_decimal (pattern output : string) m :
  ends_in_group pattern decimal_body ->
  search pattern output fl_I = Some m ->
  exists v, float (group 1 m) = Ok v.
Proof.
  intros Hp H. destruct (search_group1 _ _ _ _ _ Hp eq_refl H) as (wd & -> & Hw).
  now apply (float_decimal fl_I).
Qed.

Lemma search_digits09 (pattern output : string) m :
  ends_in_group pattern digits09_body ->
  search pattern output fl_I = Some m ->
  exists v, float (group 1 m) = Ok v.
Proof.
  intros Hp H. destruct (search_group1 _ _ _ _ _ Hp eq_refl H) as (wd & -> & Hw).
  eexists. now apply (float_digits09 fl_I).
Qed.

Lemma length_str (l : list ascii) : String.length (str l) = List.length l.
Proof. induction l; simpl; congruence. Qed.

Lemma str_app (a b : list ascii) : str (a ++ b) = (str a ++ str b)%string.
Proof. induction a; simpl; congruence. Qed.

Lemma tail_slice_bounded (n : nat) (s : string) :
  String.length (tail_slice n s) <= n
  /\ exists pre, s = (pre ++ tail_slice n s)%string.
Proof.
  unfold tail_slice. split.
  - rewrite length_str, length_skipn. lia.
  - exists (str (firstn (List.length (chars s) - n) (chars s))).
    now rewrite <- str_app, firstn_skipn, str_chars.
Qed.

(** The equation between the code and the four strategies. *)
Lemma parse_ipc_first_success (output : string) :
  parse_ipc output =
  match first_success strategies output with
  | Some v => ([], Ok v)
  | None => (dump_tail output, Raise IPC_NOT_FOUND)
  end.
Proof.
  unfold parse_ipc, strategies, first_success, _IPC_PATTERNS, search_patterns.
  unfold per_core_rate at 1.
  destruct (search PER_CORE_PATTERN output fl_I) as [m|] eqn:Ea.
  { destruct (search_decimal _ _ _ pat_per_core Ea) as (v & Hv).
    now rewrite Hv, (float_Ok _ _ Hv). }
  unfold summary_rate at 1.
  destruct (search OVERALL_PATTERN output fl_I) as [m|] eqn:Eb.
  { destruct (search_decimal _ _ _ pat_overall Eb) as (v & Hv).
    now rewrite Hv, (float_Ok _ _ Hv). }
  unfold last_cumulative at 1.
  destruct (findall CUM_PATTERN output fl_I) as [|g l] eqn:Ec.
  2:{ assert (Hin : In (last (g :: l) EmptyString) (findall CUM_PATTERN output fl_I)).
      { rewrite Ec. destruct (exists_last (l := g :: l)) as (l' & x & E);
          [discriminate|]. rewrite E, last_last. apply in_or_app. right. now left. }
      destruct (findall_group1 _ _ _ _ _ pat_cum eq_refl Hin) as (wd & Hg & Hw).
      destruct (float_decimal fl_I wd Hw) as (v & Hv). rewrite <- Hg in Hv.
      now rewrite Hv, (float_Ok _ _ Hv). }
  unfold totals_ratio.
  destruct (search INSTR_PATTERN output fl_I) as [mi|] eqn:Ei; [|reflexivity].
  destruct (search CYCLES_PATTERN output fl_I) as [mc|] eqn:Ey; [|reflexivity].
  destruct (search_digits09 _ _ _ pat_instr Ei) as (vi & Hi).
  destruct (search_digits09 _ _ _ pat_cycles Ey) as (vc & Hc).
  rewrite Hi, Hc, (float_Ok _ _ Hi), (float_Ok _ _ Hc).
  now destruct (Qgtb vc 0).
Qed.

End ParseIpc.

Section ParseIpcClaims.

Lemma chars_app (a b : string) : chars (a ++ b)%string = chars a ++ chars b.
Proof. induction a; simpl; congruence. Qed.

Lemma length_chars (s : string) : List.length (chars s) = String.length s.
Proof. induction s; simpl; congruence. Qed.

Lemma skipn_past {A : Type} (pre t : list A) (k : nat) :
  skipn (k + List.length pre) (pre ++ t) = skipn k t.
Proof.
  induction pre as [|x pre IH]; simpl.
  - now rewrite Nat.add_0_r.
  - replace (k + S (List.length pre)) with (S (k + List.length pre)) by lia.
    exact IH.
Qed.

Lemma slice_past (pre t : list ascii) (a b : nat) :
  slice (pre ++ t) (a + List.length pre) (b + List.length pre) = slice t a b.
Proof.
  unfold slice. rewrite skipn_past.
  now replace (b + List.length pre - (a + List.length pre)) with (b - a) by lia.
Qed.

Lemma groups_one (text : list ascii) (a b : nat) :
  groups_of text [b; a] [] = [slice text a b].
Proof. reflexivity. Qed.

Lemma match_at_start (fl : flags) r text s pos m :
  match_at fl r text s pos = Some m -> m_start m = pos.
Proof.
  unfold match_at. destruct (match_here fl r s pos []) as [[e caps]|]; [|discriminate].
  now intros [= <-].
Qed.

(** The match [search] returns is the one found at the offset where it
    starts. *)
Lemma search_from_start (fl : flags) (r : regex) (text : list ascii) m :
  forall s pos, skipn pos text = s ->
  search_from fl r text s pos = Some m ->
  match_at fl r text (skipn (m_start m) text) (m_start m) = Some m.
Proof.
  induction s as [|x s IH]; intros pos Hs H; simpl in H.
  - destruct (match_at fl r text [] pos) eqn:E; [|discriminate].
    injection H as ->. rewrite (match_at_start _ _ _ _ _ _ E), Hs. exact E.
  - destruct (match_at fl r text (x :: s) pos) eqn:E.
    + injection H as ->. rewrite (match_at_start _ _ _ _ _ _ E), Hs. exact E.
    + apply (IH (S pos)); [|exact H]. now apply (skipn_next text pos x).
Qed.

(** The per-core line matched at offset [n], followed by anything that does
    not continue its number: the group is the six characters of 1.2345. *)
Lemma per_core_line_at (n : nat) (rest : list ascii) :
  first_is isdigit09 rest = false ->
  match_here fl_I per_core_regex (chars per_core_line ++ rest) n []
  = Some (28 + n, [28 + n; 22 + n]).
Proof.
  intros H. destruct rest as [|c p].
  - vm_compute. reflexivity.
  - destruct c as [[] [] [] [] [] [] [] []];
      try discriminate H; vm_compute; reflexivity.
Qed.

Lemma per_core_line_group (pre rest : string) m :
  first_is isdigit09 (chars rest) = false ->
  search PER_CORE_PATTERN (pre ++ per_core_line ++ rest) fl_I = Some m ->
  m_start m = String.length pre ->
  group 1 m = "1.2345".
Proof.
  intros Hr Hs Hp. unfold search in Hs.
  change (compile PER_CORE_PATTERN) with (Some per_core_regex) in Hs.
  apply (search_from_start _ _ _ _ _ 0 eq_refl) in Hs.
  rewrite Hp, <- length_chars, !chars_app in Hs.
  unfold match_at in Hs.
  rewrite (skipn_past (chars pre) _ 0) in Hs.
  change (skipn 0 ?l) with l in Hs.
  rewrite (per_core_line_at _ _ Hr), groups_one, slice_past in Hs.
  injection Hs as <-. reflexivity.
Qed.

Lemma per_core_line_first (rest : string) :
  first_is isdigit09 (chars rest) = false ->
  search PER_CORE_PATTERN (per_core_line ++ rest) fl_I
  = Some {| m_start := 0; m_end := 28; m_groups := ["1.2345"] |}.
Proof.
  intros H. unfold search. rewrite chars_app.
  destruct (chars rest) as [|c p].
  - vm_compute. reflexivity.
  - destruct c as [[] [] [] [] [] [] [] []];
      try discriminate H; vm_compute; reflexivity.
Qed.

Lemma tail_slice_length (n : nat) (s : string) :
  String.length (tail_slice n s) = Nat.min n (String.length s).
Proof.
  unfold tail_slice. rewrite length_str, length_skipn, length_chars. lia.
Qed.

(** Of the matches of the third pattern the last one is read. *)
Lemma last_match_is_read (output : string) (earlier : list string) (x : string) :
  findall CUM_PATTERN output fl_I = earlier ++ [x] ->
  exists v, float x = Ok v /\ last_cumulative output = Some v.
Proof.
  intros Hc.
  assert (Hin : In x (findall CUM_PATTERN output fl_I)).
  { rewrite Hc. apply in_or_app. right. now left. }
  destruct (findall_group1 _ _ _ _ _ pat_cum eq_refl Hin) as (wd & -> & Hw).
  destruct (float_decimal fl_I wd Hw) as (v & Hv).
  exists v. split; [exact Hv|].
  unfold last_cumulative. rewrite Hc.
  pose proof (last_last earlier (str wd) EmptyString) as Hl.
  destruct (earlier ++ [str wd]) as [|a l] eqn:E; [destruct earlier; discriminate E|].
  now rewrite Hl, (float_Ok _ _ Hv).
Qed.

(** C2, as stated, fails.  An output that contains the line of 1.2345 does
    not always give 1.2345: after an earlier per-core report the earlier
    value is returned, and when the number goes on the longer number is.
    And the exception raised when nothing is found carries no excerpt of
    the output: it is the same for every output; the excerpt is printed. *)
Lemma per_core_example_needs_its_place :
  (exists pre rest, earlier_report_output = (pre ++ per_core_line ++ rest)%string)
  /\ (exists v, snd (parse_ipc earlier_report_output) = Ok v
                /\ (v == 9.9)%Q /\ ~ (v == 1.2345)%Q)
  /\ (exists pre rest, longer_number_output = (pre ++ per_core_line ++ rest)%string)
  /\ (exists v, snd (parse_ipc longer_number_output) = Ok v
                /\ (v == 1.23456)%Q /\ ~ (v == 1.2345)%Q)
  /\ snd (parse_ipc "no report here")
     = Raise (RuntimeError "IPC not found in simulator output.")
  /\ snd (parse_ipc zero_cycles_output)
     = Raise (RuntimeError "IPC not found in simulator output.").
Proof.
  split; [exists "CPU 0 cumulative IPC: 9.9
", ""; reflexivity|].
  split; [eexists; split; [vm_compute; reflexivity|split; [reflexivity|discriminate]]|].
  split; [exists "", "6"; reflexivity|].
  split; [eexists; split; [vm_compute; reflexivity|split; [reflexivity|discriminate]]|].
  split; vm_compute; reflexivity.
Qed.

(** C2 (amended): [parse_ipc] is the first success among four strategies,
    taken in the order (a) first match of the per-core cumulative rate,
    (b) first match of the summary rate, (c) last match of the third
    pattern, (d) total instructions over total cycles, read from the first
    match of each and taken only for positive cycles.  When none succeeds
    it prints the last 500 characters of the output, all of it when it is
    shorter, and raises; no value is returned then.  An output whose first
    per-core report is the line of 1.2345, not followed by a digit, gives
    1.2345; the totals 1000 and 500 give 2; where two strategies would
    succeed the earlier one in the order decides; and the case of the
    letters does not matter. *)
Theorem parse_ipc_priority :
  (forall output,
      parse_ipc output =
      match first_success strategies output with
      | Some v => ([], Ok v)
      | None => (dump_tail output, Raise IPC_NOT_FOUND)
      end)
  /\ (forall output,
        first_success strategies output = None ->
        snd (parse_ipc output) = Raise IPC_NOT_FOUND
        /\ (forall v, snd (parse_ipc output) <> Ok v)
        /\ List.length (fst (parse_ipc output)) = 4
        /\ nth 2 (fst (parse_ipc output)) EmptyString = tail_slice 500 output
        /\ String.length (tail_slice 500 output) = Nat.min 500 (String.length output)
        /\ exists pre, output = (pre ++ tail_slice 500 output)%string)
  /\ (forall output v,
        totals_ratio output = Some v <->
        exists mi mc instr cycles,
          search INSTR_PATTERN output fl_I = Some mi
          /\ search CYCLES_PATTERN output fl_I = Some mc
          /\ float (group 1 mi) = Ok instr
          /\ float (group 1 mc) = Ok cycles
          /\ (0 < cycles)%Q /\ v = (instr / cycles)%Q)
  /\ (forall output earlier x,
        findall CUM_PATTERN output fl_I = earlier ++ [x] ->
        exists v, float x = Ok v /\ last_cumulative output = Some v)
  /\ (forall pre rest m,
        first_is isdigit09 (chars rest) = false ->
        search PER_CORE_PATTERN (pre ++ per_core_line ++ rest) fl_I = Some m ->
        m_start m = String.length pre ->
        snd (parse_ipc (pre ++ per_core_line ++ rest)) = Ok 1.2345%Q)
  /\ (forall rest,
        first_is isdigit09 (chars rest) = false ->
        snd (parse_ipc (per_core_line ++ rest)) = Ok 1.2345%Q)
  /\ snd (parse_ipc sample_output) = Ok 1.2345%Q
  /\ (exists v, snd (parse_ipc totals_output) = Ok v /\ (v == 2)%Q)
  /\ snd (parse_ipc zero_cycles_output) = Raise IPC_NOT_FOUND
  /\ snd (parse_ipc two_per_core_lines) = Ok 1.0%Q
  /\ snd (parse_ipc two_typo_lines) = Ok 2.0%Q
  /\ snd (parse_ipc summary_then_per_core) = Ok 1.5%Q
  /\ snd (parse_ipc summary_and_typo) = Ok 0.75%Q
  /\ snd (parse_ipc typo_and_totals) = Ok 0.5%Q
  /\ snd (parse_ipc upper_case_report) = Ok 0.25%Q.
Proof.
  split; [exact parse_ipc_first_success|].
  split.
  { intros output Hnone. rewrite parse_ipc_first_success, Hnone. simpl.
    split; [reflexivity|]. split; [discriminate|]. split; [reflexivity|].
    split; [reflexivity|]. split; [apply tail_slice_length|].
    apply tail_slice_bounded. }
  split.
  { intros output v. unfold totals_ratio. split.
    - destruct (search INSTR_PATTERN output fl_I) as [mi|]; [|discriminate].
      destruct (search CYCLES_PATTERN output fl_I) as [mc|]; [|discriminate].
      destruct (float_of_str (group 1 mi)) as [instr|] eqn:Ei; [|discriminate].
      destruct (float_of_str (group 1 mc)) as [cycles|] eqn:Ec; [|discriminate].
      destruct (Qgtb cycles 0) eqn:E; [|discriminate].
      intros [= <-]. exists mi, mc, instr, cycles.
      split; [reflexivity|]. split; [reflexivity|].
      split; [unfold float; now rewrite Ei|].
      split; [unfold float; now rewrite Ec|].
      split; [now apply Qgtb_lt|reflexivity].
    - intros (mi & mc & instr & cycles & -> & -> & Hi & Hc & Hpos & ->).
      rewrite (float_Ok _ _ Hi), (float_Ok _ _ Hc).
      apply Qgtb_lt in Hpos. now rewrite Hpos. }
  split; [exact last_match_is_read|].
  split.
  { intros pre rest m Hr Hs Hp.
    unfold parse_ipc, _IPC_PATTERNS, search_patterns.
    now rewrite Hs, (per_core_line_group pre rest m Hr Hs Hp). }
  split.
  { intros rest H. unfold parse_ipc, _IPC_PATTERNS, search_patterns.
    now rewrite (per_core_line_first rest H). }
  split; [vm_compute; reflexivity|].
  split; [eexists; split; [vm_compute; reflexivity|reflexivity]|].
  repeat split; vm_compute; reflexivity.
Qed.

(** C3: two cumulative reports with the values 1.0 and 2.0, spelt as the
    simulator spells them, are not read at all: [parse_ipc] raises where
    the later report should win.  The third pattern of the code needs the
    letter m twice, while the tolerant pattern of the specification, and of
    the comment above it in the code, reads both spellings and gives 2.0.
    On the misspelt form the code does take the last match. *)
Theorem correct_spelling_is_not_read :
  snd (parse_ipc bare_cumulative_lines) = Raise IPC_NOT_FOUND
  /\ snd (parse_ipc heartbeat_pair) = Raise IPC_NOT_FOUND
  /\ last_cumulative bare_cumulative_lines = None
  /\ last_cumulative heartbeat_pair = None
  /\ tolerant_last_cumulative bare_cumulative_lines = Some 2.0%Q
  /\ tolerant_last_cumulative heartbeat_pair = Some 2.0%Q
  /\ tolerant_last_cumulative two_typo_lines = Some 2.0%Q
  /\ snd (parse_ipc two_typo_lines) = Ok 2.0%Q.
Proof. repeat split; vm_compute; reflexivity. Qed.

End ParseIpcClaims.

(** ** The hit rate with zero accesses *)
Section HitRate.

(** C10: when the matched [LLC TOTAL] line has an ACCESS count of 0, both
    extractors return 0.0: [parse_hit_rate] does not raise and
    [parse_cache_hit_rate] does not return [None]. *)
Theorem zero_access_hit_rate (output : string) (m : Match) :
  search EvalIpc.LLC_PATTERN output fl_none = Some m ->
  int (group 1 m) = Ok 0%Z ->
  RunLoop.parse_hit_rate output = Ok 0%Q
  /\ EvalIpc.parse_cache_hit_rate output = Ok (Some 0%Q).
Proof.
  intros Hm Hz. destruct (llc_groups _ _ Hm) as (access & hit & Ha & Hh).
  unfold RunLoop.parse_hit_rate, EvalIpc.parse_cache_hit_rate.
  rewrite Hm, Hz, Hh. simpl. auto.
Qed.

Lemma zero_access_hit_rate_witness :
  RunLoop.parse_hit_rate zero_access_output = Ok 0%Q
  /\ EvalIpc.parse_cache_hit_rate zero_access_output = Ok (Some 0%Q).
Proof.
  apply (zero_access_hit_rate zero_access_output
           {| m_start := 54; m_end := 103; m_groups := ["0"; "0"] |});
    vm_compute; reflexivity.
Defined.

End HitRate.

(** ** Generator responses *)
Section Responses.

Lemma truthy_some (o : option string) :
  truthy o = true -> exists s, o = Some s /\ s <> EmptyString.
Proof.
  destruct o as [s|]; simpl; [|discriminate].
  intros H. exists s. split; [reflexivity|].
  intros ->. discriminate.
Qed.

(** C8: a response in which the name line is missing still gives a
    candidate: the label of the next section is taken for the name.  The
    same happens to a missing description.  On a complete response the
    name line and the description of the specification are what the code
    extracts.  What the guard of [main] does reject is a response in which
    one of the three patterns finds nothing, or only white space: a
    candidate never has an empty part, and a response without code block
    gives none. *)
Theorem label_is_taken_for_a_name :
  (name_line nameless_response = None
   /\ parsed_candidate nameless_response
      = Some ("## Policy Description",
              "Set-dueling DRRIP with a streaming detector.",
              "#include <vector>
void InitReplacementState() {}"))
  /\ (description_paragraph undescribed_response = None
      /\ parsed_candidate undescribed_response
         = Some ("Streaming DRRIP", "## C++ Implementation",
                 "#include <vector>
void InitReplacementState() {}"))
  /\ (name_line complete_response = Some "Streaming DRRIP"
      /\ description_paragraph complete_response
         = Some "Set-dueling DRRIP with a streaming detector."
      /\ parsed_candidate complete_response
         = Some ("Streaming DRRIP", "Set-dueling DRRIP with a streaming detector.",
                 "#include <vector>
void InitReplacementState() {}"))
  /\ (parse_policy_content response_without_code
      = (Some "Streaming DRRIP", Some "Set-dueling DRRIP with a streaming detector.",
         None)
      /\ parsed_candidate response_without_code = None)
  /\ (forall text name desc code,
        parsed_candidate text = Some (name, desc, code) ->
        parse_policy_content text = (Some name, Some desc, Some code)
        /\ name <> EmptyString /\ desc <> EmptyString /\ code <> EmptyString)
  /\ (forall text w wls i j d,
        parsed_candidate text = None ->
        llm w i j = Ok (Some text) ->
        slot w wls i j d = (d, Ok None)).
Proof.
  split; [split; vm_compute; reflexivity|].
  split; [split; vm_compute; reflexivity|].
  split; [repeat split; vm_compute; reflexivity|].
  split; [split; vm_compute; reflexivity|].
  split.
  { intros text name desc code. unfold parsed_candidate, parse_policy_content.
    destruct (_extract text NAME_PATTERN) as [n|] eqn:En; [|discriminate].
    destruct (_extract text DESC_PATTERN) as [de|] eqn:Ed;
      [|simpl; rewrite andb_false_r; discriminate].
    destruct (_extract text CODE_PATTERN) as [c|] eqn:Ec;
      [|simpl; rewrite !andb_false_r; discriminate].
    destruct (truthy (Some n) && truthy (Some de) && truthy (Some c)) eqn:Et;
      [|discriminate].
    simpl negb. cbv iota. intros [= <- <- <-].
    apply andb_true_iff in Et. destruct Et as [Et Hc].
    apply andb_true_iff in Et. destruct Et as [Hn Hd].
    apply truthy_some in Hn, Hd, Hc.
    destruct Hn as (? & [= <-] & Hn), Hd as (? & [= <-] & Hd), Hc as (? & [= <-] & Hc).
    repeat split; auto. }
  intros text w wls i j d Hp Hl. unfold slot. now rewrite Hl, Hp.
Qed.

End Responses.

(** ** The aggregate over no observation *)
Section Aggregate.

(** C4, as stated, fails: over no observation [evaluate_policy] returns the
    number 0.0 as the mean. *)
Lemma empty_suite_mean_is_zero :
  EvalIpc.evaluate_policy ok_docker "policy.cc" [] = Ok (0%Q, []).
Proof. reflexivity. Qed.

Lemma evaluate_length (w : RunLoop.world) name desc cc exe :
  forall todo total acc d d' t pw,
    RunLoop.evaluate w name desc cc exe todo total acc d = (d', Ok (t, pw)) ->
    List.length pw = List.length acc + List.length todo
    /\ List.length d' = List.length d + List.length todo.
Proof.
  induction todo as [|x todo IH]; intros total acc d d' t pw H; simpl in H.
  - injection H as <- <- <-. simpl. lia.
  - destruct (RunLoop.run_policy w exe (trace_path x)); [|discriminate].
    destruct (RunLoop.parse_hit_rate a); [|discriminate].
    apply IH in H. unfold RunLoop.record in H.
    rewrite !length_app in H. simpl in *. lia.
Qed.

(** C4 (amended): with no benchmark item [evaluate_policy] returns the
    mean 0.0 and no row.  In the search loop a candidate reaches
    [candidate_results] only with one observation for each item of a
    non-empty suite, so no score there is taken over an empty set. *)
Theorem aggregate_over_no_observation :
  (forall dk cc,
      is_ok (EvalIpc.docker_build dk cc) = true ->
      EvalIpc.evaluate_policy dk cc [] = Ok (0%Q, []))
  /\ (forall w wls i j d d' c,
        RunLoop.slot w wls i j d = (d', Ok (Some c)) ->
        wls <> []
        /\ List.length (RunLoop.per_wl c) = List.length wls
        /\ List.length d' = List.length d + List.length wls).
Proof.
  split.
  { intros dk cc H. unfold EvalIpc.evaluate_policy, EvalIpc.compile_policy.
    destruct (EvalIpc.docker_build dk cc); [reflexivity|discriminate]. }
  intros w wls i j d d' c. unfold RunLoop.slot.
  destruct (RunLoop.llm w i j) as [[text|]|]; try discriminate.
  destruct (RunLoop.parsed_candidate text) as [[[name desc] code]|]; [|discriminate].
  destruct (RunLoop.write_text w _ code) as [[]|]; [|discriminate].
  destruct (RunLoop.compile_policy w _ code) as [exe|[]]; try discriminate.
  destruct (RunLoop.evaluate w name desc _ exe wls 0%Q [] d) as [d1 [[t pw]|]] eqn:Ee;
    [|discriminate].
  destruct (py_div t _) as [avg|] eqn:Ed; [|discriminate].
  intros [= <- <-]. simpl.
  apply evaluate_length in Ee. simpl in Ee. destruct Ee as [Hpw Hd].
  repeat split; auto.
  intros ->. discriminate Ed.
Qed.

End Aggregate.

(** ** Selection: [max(candidate_results, key=avg_hit)] *)
Section Selection.

Lemma max_from_split {A : Type} (key : A -> Q) (l : list A) :
  forall best,
  exists pre post,
    best :: l = pre ++ max_from key best l :: post
    /\ Forall (fun x => (key x < key (max_from key best l))%Q) pre
    /\ Forall (fun x => (key x <= key (max_from key best l))%Q) post.
Proof.
  induction l as [|x l IH]; intros best; simpl.
  - exists [], []. repeat split; constructor.
  - destruct (Qgtb (key x) (key best)) eqn:E.
    + apply Qgtb_lt in E.
      destruct (IH x) as (pre & post & Hsplit & Hpre & Hpost).
      remember (max_from key x l) as c eqn:Ec. clear Ec.
      exists (best :: pre), post. rewrite Hsplit. repeat split; auto.
      constructor; [|exact Hpre].
      destruct pre as [|y pre]; simpl in Hsplit; injection Hsplit as Hx _.
      * now rewrite <- Hx.
      * subst y. inversion Hpre; subst. eapply Qlt_trans; eassumption.
    + apply Qgtb_le in E.
      destruct (IH best) as (pre & post & Hsplit & Hpre & Hpost).
      remember (max_from key best l) as c eqn:Ec. clear Ec.
      destruct pre as [|y pre]; simpl in Hsplit; injection Hsplit as Hb Hl.
      * subst c l. exists [], (x :: post). repeat split; constructor; auto.
      * subst y l. exists (best :: x :: pre), post. repeat split; auto.
        inversion Hpre; subst. repeat constructor; auto.
        eapply Qle_lt_trans; eassumption.
Qed.

Variable w : world.
Variable wls : list workload.

Lemma slot_cc (i j : nat) d d' c :
  slot w wls i j d = (d', Ok (Some c)) -> slot_of c = j /\ p_iter (c_cc c) = i.
Proof.
  unfold slot.
  destruct (llm w i j) as [[text|]|]; try discriminate.
  destruct (parsed_candidate text) as [[[name desc] code]|]; [|discriminate].
  destruct (write_text w _ code) as [[]|]; [|discriminate].
  destruct (compile_policy w _ code) as [exe|[]]; try discriminate.
  destruct (evaluate w name desc _ exe wls 0%Q [] d) as [d1 [[t pw]|]];
    [|discriminate].
  destruct (py_div t _); [|discriminate].
  intros [= <- <-]. split; reflexivity.
Qed.

(** [candidate_results] grows in slot order. *)
Lemma slots_sorted (i : nat) :
  forall n j acc d d' results,
    slots w wls i j n acc d = (d', Ok results) ->
    exists new,
      results = acc ++ new
      /\ StronglySorted (fun a b => slot_of a < slot_of b) new
      /\ Forall (fun c => j <= slot_of c) new.
Proof.
  induction n as [|n IH]; intros j acc d d' results H; simpl in H.
  - injection H as <- <-. exists []. rewrite app_nil_r. repeat split; constructor.
  - destruct (slot w wls i j d) as [d1 [[c|]|e]] eqn:Es; [| |discriminate].
    + apply IH in H. destruct H as (new & -> & Hs & Hf).
      apply slot_cc in Es. destruct Es as [Ej _].
      exists (c :: new). rewrite <- app_assoc. repeat split.
      * constructor; [exact Hs|].
        eapply Forall_impl; [|exact Hf]. simpl. intros a Ha. lia.
      * constructor; [lia|]. eapply Forall_impl; [|exact Hf]. simpl. intros a Ha. lia.
    + apply IH in H. destruct H as (new & -> & Hs & Hf).
      exists new. repeat split; auto.
      eapply Forall_impl; [|exact Hf]. simpl. intros a Ha. lia.
Qed.

Lemma sorted_after {A : Type} (R : A -> A -> Prop) (pre post : list A) (c : A) :
  StronglySorted R (pre ++ c :: post) -> Forall (R c) post.
Proof.
  induction pre as [|x pre IH]; simpl; intros H; inversion H; subst; auto.
Qed.

(** C9: the candidate chosen in an iteration is the one [max] returns on the
    results taken in slot order: its score is maximal, and every other
    candidate with the same score comes from a later slot.  The choice is a
    function of the scores: the chosen candidate becomes [current_hit] and
    the previous design of the next prompt. *)
Theorem selection_first_maximum (ncand i : nat) (st : state) d results chosen :
  slots w wls i 0 ncand [] (db (feedback i st)) = (d, Ok results) ->
  py_max avg_hit results = Some chosen ->
  In chosen results
  /\ (forall c, In c results ->
        (avg_hit c <= avg_hit chosen)%Q
        /\ ((avg_hit c == avg_hit chosen)%Q -> slot_of chosen <= slot_of c))
  /\ exists sig st',
       iteration w wls ncand i st = (st', Ok sig)
       /\ current_hit st' = avg_hit chosen
       /\ prev st' = Some (c_name chosen, c_desc chosen, c_code chosen).
Proof.
  intros Hs Hm.
  destruct (slots_sorted i _ _ _ _ _ _ Hs) as (new & Hr & Hsorted & _).
  simpl in Hr. subst new.
  destruct results as [|c0 l]; [discriminate|]. simpl in Hm. injection Hm as Hm.
  destruct (max_from_split avg_hit l c0) as (pre & post & Hsplit & Hpre & Hpost).
  rewrite Hm in Hsplit, Hpre, Hpost.
  split; [rewrite Hsplit; apply in_or_app; right; now left|].
  split.
  - intros c Hin. rewrite Hsplit in Hin, Hsorted.
    apply in_app_or in Hin. destruct Hin as [Hin|[<-|Hin]].
    + rewrite Forall_forall in Hpre. specialize (Hpre _ Hin). split.
      * now apply Qlt_le_weak.
      * intros Heq. rewrite Heq in Hpre. now apply Qlt_irrefl in Hpre.
    + split; [apply Qle_refl|lia].
    + rewrite Forall_forall in Hpost. split; [now apply Hpost|].
      intros _. apply sorted_after in Hsorted.
      rewrite Forall_forall in Hsorted. specialize (Hsorted _ Hin). lia.
  - unfold iteration. rewrite Hs. simpl py_max. rewrite Hm. cbv zeta.
    destruct (early_exit _ _); eexists; eexists; repeat split.
Qed.

End Selection.

(** ** Sample worlds *)
Section Worlds.

Lemma selection_first_maximum_witness :
  exists d results chosen,
    slots tie_world WORKLOADS 0 0 3 [] [] = (d, Ok results)
    /\ py_max avg_hit results = Some chosen
    /\ map slot_of results = [0; 1; 2]
    /\ slot_of chosen = 1
    /\ In chosen results
    /\ (forall c, In c results ->
          (avg_hit c <= avg_hit chosen)%Q
          /\ ((avg_hit c == avg_hit chosen)%Q -> slot_of chosen <= slot_of c))
    /\ exists sig st',
         iteration tie_world WORKLOADS 3 0 (start 0.3) = (st', Ok sig)
         /\ current_hit st' = avg_hit chosen
         /\ prev st' = Some (c_name chosen, c_desc chosen, c_code chosen).
Proof.
  do 3 eexists.
  split; [vm_compute; reflexivity|].
  split; [vm_compute; reflexivity|].
  split; [reflexivity|].
  split; [reflexivity|].
  eapply (selection_first_maximum tie_world WORKLOADS 3 0 (start 0.3));
    vm_compute; reflexivity.
Defined.

End Worlds.

(** ** The iteration state machine *)
Section LoopFacts.

Variable w : world.
Variable wls : list workload.
Variable ncand : nat.

Lemma feedback_cases (i : nat) (st : state) :
  best_hit (feedback i st) = best_hit st
  \/ (i <> 0 /\ (best_hit st < current_hit st)%Q
      /\ best_hit (feedback i st) = current_hit st).
Proof.
  unfold feedback. destruct (i =? 0) eqn:Ei; [now left|].
  destruct (Qgtb (current_hit st) (best_hit st)) eqn:E; [|now left].
  right. apply Nat.eqb_neq in Ei. apply Qgtb_lt in E. auto.
Qed.

Lemma feedback_best_le (i : nat) (st : state) :
  (best_hit st <= best_hit (feedback i st))%Q.
Proof.
  destruct (feedback_cases i st) as [->|(_ & Hlt & ->)];
    [apply Qle_refl|now apply Qlt_le_weak].
Qed.

Lemma feedback_current (i : nat) (st : state) :
  current_hit (feedback i st) = current_hit st.
Proof.
  unfold feedback. destruct (i =? 0); [reflexivity|].
  now destruct (Qgtb (current_hit st) (best_hit st)).
Qed.

(** An iteration leaves [best_hit] as its head set it, on every path. *)
Lemma iteration_best (i : nat) (st st' : state) r :
  iteration w wls ncand i st = (st', r) ->
  best_hit st' = best_hit (feedback i st).
Proof.
  unfold iteration.
  destruct (slots w wls i 0 ncand [] (db (feedback i st))) as [d [results|e]].
  - destruct (py_max avg_hit results) as [c|].
    + cbv zeta. destruct (early_exit _ _); now intros [= <- _].
    + now intros [= <- _].
  - now intros [= <- _].
Qed.

Lemma for_range_best :
  forall n i st st' r,
    for_range w wls ncand i n st = (st', r) ->
    (best_hit st <= best_hit st')%Q.
Proof.
  induction n as [|n IH]; intros i st st' r H; simpl in H.
  - injection H as <- _. apply Qle_refl.
  - destruct (iteration w wls ncand i st) as [s1 [[]|e]] eqn:Ei.
    + apply IH in H. apply iteration_best in Ei.
      eapply Qle_trans; [|exact H]. rewrite Ei. apply feedback_best_le.
    + injection H as <- _. apply iteration_best in Ei. rewrite Ei.
      apply feedback_best_le.
    + injection H as <- _. apply iteration_best in Ei. rewrite Ei.
      apply feedback_best_le.
Qed.

Lemma state_at_le (st0 : state) :
  forall j i si sj,
    i <= j ->
    state_at w wls ncand st0 i = Some si ->
    state_at w wls ncand st0 j = Some sj ->
    (best_hit si <= best_hit sj)%Q.
Proof.
  induction j as [|j IH]; intros i si sj Hij Hi Hj.
  - assert (i = 0) as -> by lia. rewrite Hi in Hj. injection Hj as <-.
    apply Qle_refl.
  - destruct (Nat.eq_dec i (S j)) as [->|Hne].
    + rewrite Hi in Hj. injection Hj as <-. apply Qle_refl.
    + simpl in Hj.
      destruct (state_at w wls ncand st0 j) as [s|] eqn:Es; [|discriminate].
      destruct (iteration w wls ncand j s) as [s1 [[]|e]] eqn:Ei; try discriminate.
      injection Hj as <-.
      apply Qle_trans with (best_hit s).
      * apply (IH i); [lia|assumption|reflexivity].
      * apply iteration_best in Ei. rewrite Ei. apply feedback_best_le.
Qed.

(** The loop goes through the states [state_at] gives. *)
Lemma for_range_state_at (st0 : state) (n : nat) :
  forall k sk,
    k <= n ->
    state_at w wls ncand st0 k = Some sk ->
    for_range w wls ncand 0 n st0 = for_range w wls ncand k (n - k) sk.
Proof.
  induction k as [|k IH]; intros sk Hk Hs; simpl in Hs.
  - injection Hs as <-. now rewrite Nat.sub_0_r.
  - destruct (state_at w wls ncand st0 k) as [s|] eqn:Es; [|discriminate].
    destruct (iteration w wls ncand k s) as [s1 [[]|e]] eqn:Ei; try discriminate.
    injection Hs as <-.
    rewrite (IH s) by (lia || reflexivity).
    replace (n - k) with (S (n - S k)) by lia.
    simpl. now rewrite Ei.
Qed.

(** C5: [best_hit] never decreases, from one iteration head to any later one
    (the loop goes through the states of [state_at]) and up to the state the
    loop ends in; an iteration changes it only at its head, to a
    [current_hit] that is strictly greater, and [current_hit] is the score
    of the candidate chosen last. *)
Theorem best_hit_monotone :
  (forall st0 i j si sj,
      i <= j ->
      state_at w wls ncand st0 i = Some si ->
      state_at w wls ncand st0 j = Some sj ->
      (best_hit si <= best_hit sj)%Q)
  /\ (forall st0 n k sk,
        k <= n ->
        state_at w wls ncand st0 k = Some sk ->
        for_range w wls ncand 0 n st0 = for_range w wls ncand k (n - k) sk)
  /\ (forall n i st st' r,
        for_range w wls ncand i n st = (st', r) ->
        (best_hit st <= best_hit st')%Q)
  /\ (forall i st st' r,
        iteration w wls ncand i st = (st', r) ->
        best_hit st' = best_hit st
        \/ ((best_hit st < best_hit st')%Q /\ best_hit st' = current_hit st))
  /\ (forall i st st' sig,
        iteration w wls ncand i st = (st', Ok sig) ->
        current_hit st' = current_hit st
        \/ exists d results chosen,
             slots w wls i 0 ncand [] (db (feedback i st)) = (d, Ok results)
             /\ py_max avg_hit results = Some chosen
             /\ current_hit st' = avg_hit chosen).
Proof.
  split; [intros st0 i j si sj; apply state_at_le|].
  split; [intros st0 n k sk; apply for_range_state_at|].
  split; [exact for_range_best|].
  split.
  - intros i st st' r H. apply iteration_best in H. rewrite H.
    destruct (feedback_cases i st) as [->|(_ & Hlt & ->)]; auto.
  - intros i st st' sig. unfold iteration.
    destruct (slots w wls i 0 ncand [] (db (feedback i st))) as [d [results|e]];
      [|discriminate].
    destruct (py_max avg_hit results) as [c|] eqn:Em.
    + cbv zeta. intros H. right. exists d, results, c.
      split; [reflexivity|]. split; [exact Em|].
      destruct (early_exit _ _); now injection H as <- _.
    + intros [= <- _]. left. apply feedback_current.
Qed.



End LoopFacts.

(** ** Which failures the loop survives *)
Section Containment.

(** C1: the failure of a run is not contained.  When the run of a built
    candidate exits with an error on the second benchmark item, the
    exception leaves [main]: the table holds the single row of the first
    item, the three remaining items are never run, and no other slot or
    iteration is.  A run whose output has no statistics line ends [main]
    the same way.  The sibling paths are guarded: an exception of the
    generator and a build that exits with an error skip their slot, the
    next slot is processed, and a world in which three slots of every
    iteration fail in the guarded ways runs its fifty iterations to the
    end. *)
Theorem run_failure_aborts_search :
  (snd (main failing_run_world 0.3 []) = Raise (CalledProcessError 1)
   /\ map row_workload (db (fst (main failing_run_world 0.3 []))) = ["astar"])
  /\ (snd (main silent_run_world 0.3 []) = Raise (RuntimeError "LLC TOTAL not found")
      /\ db (fst (main silent_run_world 0.3 [])) = [])
  /\ (forall w wls i j d e,
        llm w i j = Raise e -> slot w wls i j d = (d, Ok None))
  /\ (forall w wls i j d text name desc code rc,
        llm w i j = Ok (Some text) ->
        parsed_candidate text = Some (name, desc, code) ->
        write_text w {| p_iter := i; p_slot := j;
                        p_base := (sanitize name ++ "_t02")%string |} code = Ok tt ->
        docker_build w {| p_iter := i; p_slot := j;
                          p_base := (sanitize name ++ "_t02")%string |} code
        = Raise (CalledProcessError rc) ->
        slot w wls i j d = (d, Ok None))
  /\ (forall w wls i j n acc d,
        slot w wls i j d = (d, Ok None) ->
        slots w wls i j (S n) acc d = slots w wls i (S j) n acc d)
  /\ snd (for_range flaky_world WORKLOADS 4 0 50 (start 0.5)) = Ok tt.
Proof.
  split; [split; vm_compute; reflexivity|].
  split; [split; vm_compute; reflexivity|].
  split; [intros w wls i j d e H; unfold slot; now rewrite H|].
  split.
  { intros w wls i j d text name desc code rc H1 H2 H3 H4.
    unfold slot, compile_policy. now rewrite H1, H2, H3, H4. }
  split; [intros w wls i j n acc d H; simpl; now rewrite H|].
  vm_compute. reflexivity.
Qed.

Variable w : world.
Variable wls : list workload.
Variable ncand : nat.

Lemma evaluate_ok (name desc : string) (cc : path) (exe : executable) :
  runs_succeed w ->
  forall todo total acc d,
  exists d' t pw, evaluate w name desc cc exe todo total acc d = (d', Ok (t, pw)).
Proof.
  intros Hr. induction todo as [|x todo IH]; intros total acc d; simpl.
  - eauto.
  - unfold run_policy. destruct (Hr exe (trace_path x)) as (out & -> & Hp).
    destruct (parse_hit_rate out) as [hit|]; [|discriminate]. apply IH.
Qed.

Lemma py_div_length (t : Q) :
  wls <> [] ->
  exists avg, py_div t (inject_Z (Z.of_nat (List.length wls))) = Ok avg.
Proof.
  intros Hne. unfold py_div.
  destruct (Qeq_bool _ 0) eqn:E; [|eauto].
  apply Qeq_bool_iff in E. unfold Qeq in E. simpl in E.
  destruct wls; [contradiction|]. simpl List.length in E. lia.
Qed.

Lemma slot_ok (i j : nat) (d : list row) :
  wls <> [] -> answers_are_texts w -> writes_succeed w ->
  builds_fail_by_exit_status w -> runs_succeed w ->
  exists d' r, slot w wls i j d = (d', Ok r).
Proof.
  intros Hne Ha Hw Hb Hr. unfold slot.
  destruct (llm w i j) as [[text|]|] eqn:El; [| |eauto].
  - destruct (parsed_candidate text) as [[[name desc] code]|]; [|eauto].
    rewrite Hw. unfold compile_policy.
    destruct (docker_build w _ code) as [u|e] eqn:Eb; simpl.
    + match goal with
      | |- context [evaluate w ?n ?de ?cc ?exe ?todo ?t0 ?acc ?dd] =>
          destruct (evaluate_ok n de cc exe Hr todo t0 acc dd) as (d' & t & pw & ->)
      end.
      destruct (py_div_length t Hne) as (avg & ->). eauto.
    + destruct (Hb _ _ _ Eb) as (rc & ->). eauto.
  - now destruct (Ha i j).
Qed.

Lemma slots_ok (i : nat) :
  wls <> [] -> answers_are_texts w -> writes_succeed w ->
  builds_fail_by_exit_status w -> runs_succeed w ->
  forall n j acc d, exists d' results, slots w wls i j n acc d = (d', Ok results).
Proof.
  intros Hne Ha Hw Hb Hr. induction n as [|n IH]; intros j acc d; simpl.
  - eauto.
  - destruct (slot_ok i j d Hne Ha Hw Hb Hr) as (d' & [c|] & ->); apply IH.
Qed.

Lemma iteration_ok (i : nat) (st : state) :
  wls <> [] -> answers_are_texts w -> writes_succeed w ->
  builds_fail_by_exit_status w -> runs_succeed w ->
  exists st' sig, iteration w wls ncand i st = (st', Ok sig).
Proof.
  intros Hne Ha Hw Hb Hr. unfold iteration.
  destruct (slots_ok i Hne Ha Hw Hb Hr ncand 0 [] (db (feedback i st)))
    as (d & results & ->).
  destruct (py_max avg_hit results); [|eauto].
  cbv zeta. destruct (early_exit _ _); eauto.
Qed.

(** X22: the failures that [main] guards do not end the loop.  When the
    list of workloads is not empty, the generator returns a text whenever
    it returns, every source file can be written, builds fail only by
    exit status, and every run of a built candidate succeeds and prints a
    statistics line that [parse_hit_rate] reads, the loop runs to its end
    (or to its early exit) without raising, whatever the generator raises
    and whichever builds fail.  (Inserting a row is taken to succeed.) *)
Theorem guarded_failures_do_not_end_the_loop :
  wls <> [] -> answers_are_texts w -> writes_succeed w ->
  builds_fail_by_exit_status w -> runs_succeed w ->
  forall n i st, exists st', for_range w wls ncand i n st = (st', Ok tt).
Proof.
  intros Hne Ha Hw Hb Hr. induction n as [|n IH]; intros i st; simpl.
  - eauto.
  - destruct (iteration_ok i st Hne Ha Hw Hb Hr) as (st' & [] & ->); [apply IH|eauto].
Qed.

End Containment.

Section ContainmentWitness.

Lemma flaky_world_hypotheses :
  answers_are_texts flaky_world
  /\ writes_succeed flaky_world
  /\ builds_fail_by_exit_status flaky_world
  /\ runs_succeed flaky_world.
Proof.
  split; [|split; [|split]].
  - intros i [|[|j]]; discriminate.
  - intros cc code. reflexivity.
  - intros [pi [|[|[|ps]]] pb] code e; simpl; try discriminate.
    intros [= <-]. eauto.
  - intros exe trace. eexists. split; [reflexivity|]. vm_compute. reflexivity.
Qed.

(** In [flaky_world] three slots fail in the three ways in every iteration,
    and the loop of 50 iterations with four slots ends normally. *)
Lemma guarded_failures_do_not_end_the_loop_witness :
  exists st', for_range flaky_world WORKLOADS 4 0 50 (start 0.5) = (st', Ok tt).
Proof.
  destruct flaky_world_hypotheses as (Ha & Hw & Hb & Hr).
  apply (guarded_failures_do_not_end_the_loop flaky_world WORKLOADS 4);
    [discriminate|exact Ha|exact Hw|exact Hb|exact Hr].
Defined.

End ContainmentWitness.

(** ** The theorems on a sample run *)
Section SampleRun.


(** From a best score of 0, the same world reaches the head of the third
    iteration: the first iteration does not break, and [best_hit] has grown
    from 0 to the score chosen first. *)
Lemma best_hit_monotone_witness :
  exists s2,
    state_at tie_world WORKLOADS 3 (start 0) 2 = Some s2
    /\ (best_hit (start 0) <= best_hit s2)%Q
    /\ (best_hit s2 == 0.5)%Q.
Proof.
  eexists. split; [vm_compute; reflexivity|]. split.
  - apply (proj1 (best_hit_monotone tie_world WORKLOADS 3) (start 0) 0 2);
      [lia|reflexivity|vm_compute; reflexivity].
  - reflexivity.
Defined.

(** A candidate of [tie_world] carries one observation for each of the five
    benchmark items. *)
Lemma aggregate_over_no_observation_witness :
  exists d c,
    slot tie_world WORKLOADS 0 0 [] = (d, Ok (Some c))
    /\ WORKLOADS <> []
    /\ List.length (per_wl c) = 5
    /\ List.length d = 5.
Proof.
  do 2 eexists. split; [vm_compute; reflexivity|].
  eapply (proj2 aggregate_over_no_observation tie_world WORKLOADS 0 0 []).
  vm_compute. reflexivity.
Defined.

End SampleRun.

(* ========================================================================= *)
(** * Further properties of the code *)
(* ========================================================================= *)

(** ** The choice of workloads: [pick_workloads] *)
Section PickFacts.
Import Pick.

Lemma mem_In (x : string) (s : list string) : mem x s = true <-> In x s.
Proof.
  unfold mem. rewrite existsb_exists. split.
  - intros (y & Hy & E). apply String.eqb_eq in E. now subst.
  - intros H. exists x. split; [exact H|apply String.eqb_refl].
Qed.

Lemma mem_ext (s s' : list string) :
  (forall x, In x s <-> In x s') -> forall x, mem x s = mem x s'.
Proof.
  intros H x. destruct (mem x s) eqn:E, (mem x s') eqn:E'; try reflexivity.
  - apply mem_In, H, mem_In in E. congruence.
  - apply mem_In, H, mem_In in E'. congruence.
Qed.

(** The order of strings. *)
Lemma compare_lt_trans (a : string) :
  forall b c, String.compare a b = Lt -> String.compare b c = Lt ->
              String.compare a c = Lt.
Proof.
  induction a as [|x a IH]; intros [|y b] [|z c]; simpl; try discriminate; auto.
  unfold Ascii.compare. intros H1 H2.
  destruct (N_of_ascii x ?= N_of_ascii y)%N eqn:Exy; try discriminate;
    destruct (N_of_ascii y ?= N_of_ascii z)%N eqn:Eyz; try discriminate.
  - apply N.compare_eq in Exy, Eyz. rewrite Exy, Eyz, N.compare_refl.
    now apply (IH b c).
  - apply N.compare_eq in Exy. now rewrite Exy, Eyz.
  - apply N.compare_eq in Eyz. now rewrite <- Eyz, Exy.
  - apply N.compare_lt_iff in Exy, Eyz.
    assert (H : (N_of_ascii x < N_of_ascii z)%N) by (eapply N.lt_trans; eassumption).
    apply N.compare_lt_iff in H. now rewrite H.
Qed.

Lemma compare_refl (a : string) : String.compare a a = Eq.
Proof.
  induction a as [|x a IH]; simpl; [reflexivity|].
  unfold Ascii.compare. now rewrite N.compare_refl.
Qed.

Lemma leb_cases (a b : string) :
  String.leb a b = true <-> a = b \/ String.compare a b = Lt.
Proof.
  unfold String.leb. destruct (String.compare a b) eqn:E; split; auto.
  - intros _. left. now apply String.compare_eq_iff.
  - discriminate.
  - intros [->|H]; [now rewrite compare_refl in E|discriminate].
Qed.

Lemma leb_trans (a b c : string) :
  String.leb a b = true -> String.leb b c = true -> String.leb a c = true.
Proof.
  rewrite !leb_cases. intros [->|H1] [->|H2]; auto.
  right. eapply compare_lt_trans; eassumption.
Qed.

Lemma leb_refl (a : string) : String.leb a a = true.
Proof. apply leb_cases. now left. Qed.

Lemma insert_In (x z : string) (l : list string) :
  In z (insert x l) <-> z = x \/ In z l.
Proof.
  induction l as [|y l IH]; simpl.
  - intuition.
  - destruct (String.leb x y); simpl; [intuition|]. rewrite IH. intuition.
Qed.

Lemma sorted_In (z : string) (l : list string) : In z (sorted l) <-> In z l.
Proof.
  induction l as [|x l IH]; simpl; [tauto|]. rewrite insert_In, IH. intuition.
Qed.

Lemma insert_sorted (x : string) (l : list string) :
  StronglySorted leb_rel l -> StronglySorted leb_rel (insert x l).
Proof.
  induction 1 as [|y l Hs IH Hy]; simpl.
  - repeat constructor.
  - destruct (String.leb x y) eqn:E.
    + constructor; [now constructor|]. constructor; [exact E|].
      eapply Forall_impl; [|exact Hy]. intros z Hz. eapply leb_trans; eassumption.
    + constructor; [exact IH|]. apply Forall_forall. intros z Hz.
      apply insert_In in Hz. destruct Hz as [->|Hz].
      * destruct (String.leb_total x y) as [H|H]; [congruence|exact H].
      * rewrite Forall_forall in Hy. now apply Hy.
Qed.

Lemma sorted_sorted (l : list string) : StronglySorted leb_rel (sorted l).
Proof.
  induction l as [|x l IH]; simpl; [constructor|now apply insert_sorted].
Qed.

Lemma insert_NoDup (x : string) (l : list string) :
  ~ In x l -> NoDup l -> NoDup (insert x l).
Proof.
  induction l as [|y l IH]; simpl; intros Hx Hl.
  - repeat constructor. auto.
  - destruct (String.leb x y).
    + constructor; [simpl; tauto|exact Hl].
    + inversion Hl; subst. constructor.
      * rewrite insert_In. intros [->|H]; tauto.
      * apply IH; tauto.
Qed.

Lemma sorted_NoDup (l : list string) : NoDup l -> NoDup (sorted l).
Proof.
  induction 1 as [|x l Hx Hl IH]; simpl; [constructor|].
  apply insert_NoDup; [now rewrite sorted_In|exact IH].
Qed.

(** An ascending list without repetition is determined by its elements. *)
Lemma sorted_unique (l1 : list string) :
  forall l2,
    StronglySorted leb_rel l1 -> StronglySorted leb_rel l2 ->
    NoDup l1 -> NoDup l2 ->
    (forall x, In x l1 <-> In x l2) -> l1 = l2.
Proof.
  induction l1 as [|a l1 IH]; intros [|b l2] S1 S2 N1 N2 H.
  - reflexivity.
  - exfalso. apply (proj2 (H b)). now left.
  - exfalso. apply (proj1 (H a)). now left.
  - inversion S1 as [|? ? S1' F1]; inversion S2 as [|? ? S2' F2]; subst.
    inversion N1 as [|? ? Na N1']; inversion N2 as [|? ? Nb N2']; subst.
    rewrite Forall_forall in F1, F2.
    assert (a = b) as ->.
    { apply String.leb_antisym.
      - destruct (proj2 (H b) (or_introl eq_refl)) as [->|Hb];
          [apply leb_refl|now apply F1].
      - destruct (proj1 (H a) (or_introl eq_refl)) as [->|Ha];
          [apply leb_refl|now apply F2]. }
    f_equal. apply IH; auto.
    intros x. split; intros Hx.
    + destruct (proj1 (H x) (or_intror Hx)) as [->|]; [contradiction|assumption].
    + destruct (proj2 (H x) (or_intror Hx)) as [->|]; [contradiction|assumption].
Qed.

Lemma sorted_strict (l : list string) :
  StronglySorted leb_rel l -> NoDup l ->
  StronglySorted (fun a b => String.ltb a b = true) l.
Proof.
  induction 1 as [|a l Hs IH Ha]; intros Hnd; [constructor|].
  inversion Hnd as [|? ? Hnot Hnd']; subst.
  constructor; [now apply IH|].
  apply Forall_forall. intros b Hb. rewrite Forall_forall in Ha.
  specialize (Ha b Hb). apply leb_cases in Ha. destruct Ha as [->|Ha].
  - contradiction.
  - unfold String.ltb. now rewrite Ha.
Qed.

Lemma sorted_ext (l1 l2 : list string) :
  NoDup l1 -> NoDup l2 -> (forall x, In x l1 <-> In x l2) -> sorted l1 = sorted l2.
Proof.
  intros N1 N2 H. apply sorted_unique;
    auto using sorted_sorted, sorted_NoDup.
  intros x. now rewrite !sorted_In.
Qed.

Lemma filter_subseq {A : Type} (p : A -> bool) (l : list A) : subseq (filter p l) l.
Proof.
  induction l as [|x l IH]; simpl; [constructor|].
  destruct (p x); now constructor.
Qed.

Variable suite : list workload.

Lemma pick_unfold (names : list string) :
  names <> [] ->
  pick_workloads suite names =
  match missing suite names with
  | _ :: _ => Unknown ("Unknown workload(s): " ++ String.concat ", " (sorted (missing suite names)))
  | [] => Selected (selection suite names)
  end.
Proof. destruct names; [contradiction|reflexivity]. Qed.

Lemma selection_In (names : list string) (w : workload) :
  In w (selection suite names) <->
  In w suite /\ exists n, In n names /\ normalise n = str_lower (wl_name w).
Proof.
  unfold selection. rewrite filter_In, mem_In, in_map_iff.
  split; intros [Hw (n & H1 & H2)]; (split; [exact Hw|exists n; tauto]).
Qed.

Lemma missing_In (names : list string) (x : string) :
  In x (missing suite names) <->
  (exists n, In n names /\ normalise n = x) /\ ~ known suite x.
Proof.
  unfold missing. rewrite nodup_In, filter_In, in_map_iff, negb_true_iff.
  assert (Hn' : (exists n, normalise n = x /\ In n names) <->
                (exists n, In n names /\ normalise n = x)).
  { split; intros (n & H1 & H2); exists n; tauto. }
  rewrite Hn'. clear Hn'.
  split.
  - intros [Hn Hm]. split; [exact Hn|]. intros (w & Hw & E).
    assert (Hin : mem x (map (fun w => str_lower (wl_name w)) (selection suite names)) = true).
    { apply mem_In, in_map_iff. exists w. split; [exact E|].
      apply selection_In. split; [exact Hw|]. rewrite E.
      destruct Hn as (n & Hn & En). now exists n. }
    congruence.
  - intros [Hn Hk]. split; [exact Hn|].
    destruct (mem x _) eqn:E; [|reflexivity].
    apply mem_In, in_map_iff in E. destruct E as (w & E & Hw).
    apply selection_In in Hw. exfalso. apply Hk. exists w. tauto.
Qed.


(** X1: an empty request selects the whole suite.  A non-empty request is
    accepted exactly when every requested name, stripped and lower-cased,
    is the name of a workload of the suite; the result then holds the
    workloads so named, in the order of the suite. *)
Theorem pick_workloads_selects (names : list string) :
  pick_workloads suite [] = Selected suite
  /\ (names <> [] ->
      ((exists sel, pick_workloads suite names = Selected sel) <->
       (forall n, In n names -> known suite (normalise n)))
      /\ forall sel,
           pick_workloads suite names = Selected sel ->
           subseq sel suite
           /\ forall w, In w sel <->
                        In w suite
                        /\ exists n, In n names /\ normalise n = str_lower (wl_name w)).
Proof.
  split; [reflexivity|]. intros Hne. rewrite (pick_unfold names Hne). split.
  - split.
    + intros (sel & H) n Hn.
      destruct (missing suite names) as [|x l] eqn:E; [|discriminate].
      assert (Hk : ~ In (normalise n) (missing suite names)) by (rewrite E; auto).
      rewrite missing_In in Hk.
      destruct (in_dec string_dec (normalise n)
                  (map (fun w => str_lower (wl_name w)) suite)) as [Hin|Hout].
      * apply in_map_iff in Hin. destruct Hin as (w & Ew & Hw). now exists w.
      * exfalso. apply Hk. split; [now exists n|].
        intros (w & Hw & Ew). apply Hout, in_map_iff. now exists w.
    + intros H. destruct (missing suite names) as [|x l] eqn:E; [eauto|].
      assert (Hx : In x (missing suite names)) by (rewrite E; now left).
      apply missing_In in Hx. destruct Hx as ((n & Hn & <-) & Hk).
      exfalso. apply Hk. now apply H.
  - intros sel. destruct (missing suite names); [|discriminate].
    intros [= <-]. split; [apply filter_subseq|apply selection_In].
Qed.

(** X2: the outcome of a non-empty request depends only on the set of its
    stripped, lower-cased names: the order of the names, their case, the
    white space around them and their repetition change neither the
    selection nor the error message. *)
Theorem pick_workloads_by_name_set (names names' : list string) :
  names <> [] -> names' <> [] ->
  (forall x, In x (map normalise names) <-> In x (map normalise names')) ->
  pick_workloads suite names = pick_workloads suite names'.
Proof.
  intros Hne Hne' H. rewrite (pick_unfold names Hne), (pick_unfold names' Hne').
  assert (Hs : selection suite names = selection suite names').
  { unfold selection. apply filter_ext. intros w. now apply mem_ext. }
  assert (Hm : forall x, In x (missing suite names) <-> In x (missing suite names')).
  { intros x. rewrite !missing_In.
    assert (Hx : (exists n, In n names /\ normalise n = x) <->
                 (exists n, In n names' /\ normalise n = x)).
    { specialize (H x). rewrite !in_map_iff in H.
      split; intros (n & H1 & H2).
      - destruct (proj1 H (ex_intro _ n (conj H2 H1))) as (n' & ? & ?). now exists n'.
      - destruct (proj2 H (ex_intro _ n (conj H2 H1))) as (n' & ? & ?). now exists n'. }
    now rewrite Hx. }
  assert (Hsort : sorted (missing suite names) = sorted (missing suite names')).
  { apply sorted_ext; auto; unfold missing; apply NoDup_nodup. }
  rewrite Hs, Hsort.
  destruct (missing suite names) as [|x l], (missing suite names') as [|x' l'];
    try reflexivity.
  - exfalso. apply (proj2 (Hm x')). now left.
  - exfalso. apply (proj1 (Hm x)). now left.
Qed.

(** X3: a rejected request raises a message that lists, after the words
    [Unknown workload(s): ] and separated by commas, the stripped and
    lower-cased names that no workload of the suite bears, each once and in
    ascending order. *)
Theorem pick_workloads_message (names : list string) (message : string) :
  pick_workloads suite names = Unknown message ->
  exists l,
    message = ("Unknown workload(s): " ++ String.concat ", " l)%string
    /\ l <> []
    /\ StronglySorted (fun a b => String.ltb a b = true) l
    /\ forall x, In x l <->
                 (exists n, In n names /\ normalise n = x) /\ ~ known suite x.
Proof.
  destruct names as [|n0 names0] eqn:En; [discriminate|]. rewrite <- En.
  assert (Hne : names <> []) by (rewrite En; discriminate).
  rewrite (pick_unfold names Hne). intros H.
  assert (Hm : missing suite names <> [])
    by (intros E; rewrite E in H; discriminate).
  assert (Hmsg : message = ("Unknown workload(s): "
                            ++ String.concat ", " (sorted (missing suite names)))%string)
    by (destruct (missing suite names); [contradiction|now injection H]).
  exists (sorted (missing suite names)).
  split; [exact Hmsg|]. split.
  { intros Hnil. destruct (missing suite names) as [|x l] eqn:E; [contradiction|].
    assert (Hx : In x (sorted (x :: l))) by (rewrite sorted_In; now left).
    now rewrite Hnil in Hx. }
  split.
  - apply sorted_strict; [apply sorted_sorted|].
    apply sorted_NoDup. unfold missing. apply NoDup_nodup.
  - intros y. rewrite sorted_In. apply missing_In.
Qed.

End PickFacts.

Section PickWitness.
Import Pick.

Lemma pick_workloads_selects_witness :
  pick_workloads WORKLOADS [" LBM "; "astar"; "lbm"]
  = Selected [ {| wl_name := "astar"; trace_path := "ChampSim_CRC2/traces/astar_313B.trace.gz" |};
               {| wl_name := "lbm";   trace_path := "ChampSim_CRC2/traces/lbm_564B.trace.gz" |} ]
  /\ forall n, In n [" LBM "; "astar"; "lbm"] -> known WORKLOADS (normalise n).
Proof.
  split; [reflexivity|].
  apply (proj1 (proj1 (proj2 (pick_workloads_selects WORKLOADS
                                [" LBM "; "astar"; "lbm"]) ltac:(discriminate)))).
  eexists. reflexivity.
Defined.

Lemma pick_workloads_by_name_set_witness :
  pick_workloads WORKLOADS [" LBM "; "astar"; "lbm"]
  = pick_workloads WORKLOADS ["Astar"; "LBM"].
Proof.
  apply pick_workloads_by_name_set; try discriminate.
  intros x. vm_compute. tauto.
Defined.

Lemma pick_workloads_message_witness :
  exists l,
    "Unknown workload(s): , beta, zeta"
    = ("Unknown workload(s): " ++ String.concat ", " l)%string
    /\ l <> []
    /\ StronglySorted (fun a b => String.ltb a b = true) l
    /\ forall x, In x l <->
                 (exists n, In n ["zeta"; "astar"; "Beta "; "zeta"; ""] /\ normalise n = x)
                 /\ ~ known WORKLOADS x.
Proof.
  apply (pick_workloads_message WORKLOADS ["zeta"; "astar"; "Beta "; "zeta"; ""]).
  reflexivity.
Defined.

End PickWitness.

(** ** More on the extractors *)
Section ExtractorFacts.

Lemma digits_val_nonneg (l : list ascii) :
  forall acc, (0 <= acc)%Z -> (0 <= digits_val acc l)%Z.
Proof.
  induction l as [|c l IH]; intros acc H; cbn [digits_val]; [exact H|].
  apply IH. unfold digit_val. lia.
Qed.

Lemma int_nonneg (s : string) (z : Z) : int s = Ok z -> (0 <= z)%Z.
Proof.
  unfold int, int_of_str. destruct (chars s) as [|c l]; [discriminate|].
  destruct (forallb isdigit09 (c :: l)); [|discriminate].
  intros [= <-]. apply digits_val_nonneg; unfold digit_val; lia.
Qed.

Lemma float_of_str_nonneg (s : string) (v : Q) :
  float_of_str s = Some v -> (0 <= v)%Q.
Proof.
  unfold float_of_str. destruct (split_dot (chars s)) as [ip [fp|]].
  - destruct (ip ++ fp) as [|c l]; [discriminate|].
    destruct (forallb isdigit09 (c :: l)); [|discriminate].
    intros [= <-]. unfold Qle. simpl. rewrite Z.mul_1_r.
    apply digits_val_nonneg; unfold digit_val; lia.
  - destruct ip as [|c l]; [discriminate|].
    destruct (forallb isdigit09 (c :: l)); [|discriminate].
    intros [= <-]. unfold Qle. simpl. rewrite Z.mul_1_r.
    apply digits_val_nonneg; unfold digit_val; lia.
Qed.

Lemma int_div_pos (a b : Z) :
  (0 < b)%Z ->
  int_div a b
  = if Qle_bool FLOAT_OVERFLOW (Qabs (inject_Z a / inject_Z b))
    then Raise OverflowError
    else Ok (inject_Z a / inject_Z b)%Q.
Proof.
  intros Hb. unfold int_div.
  destruct (b =? 0)%Z eqn:E; [apply Z.eqb_eq in E; lia|reflexivity].
Qed.

Lemma quotient_nonneg (a b : Z) :
  (0 <= a)%Z -> (0 < b)%Z -> (0 <= inject_Z a / inject_Z b)%Q.
Proof.
  intros Ha Hb. apply Qle_shift_div_l; [unfold Qlt; simpl; lia|].
  rewrite Qmult_0_l. unfold Qle. simpl. lia.
Qed.


(** X5: a hit rate is never negative, and it is at most 1 whenever the HIT
    counter of the matched line does not exceed its ACCESS counter. *)
Theorem hit_rate_range (output : string) (v : Q) :
  parse_hit_rate output = Ok v ->
  (0 <= v)%Q
  /\ forall m access hit,
       search LLC_PATTERN output fl_none = Some m ->
       int (group 1 m) = Ok access -> int (group 2 m) = Ok hit ->
       (hit <= access)%Z -> (v <= 1)%Q.
Proof.
  unfold parse_hit_rate.
  destruct (search LLC_PATTERN output fl_none) as [m|] eqn:Em; [|discriminate].
  destruct (llc_groups _ _ Em) as (access & hit & Ha & Hh). rewrite Ha, Hh. simpl.
  pose proof (int_nonneg _ _ Hh) as Hh0.
  destruct (0 <? access)%Z eqn:Epos.
  - apply Z.ltb_lt in Epos. rewrite (int_div_pos hit access Epos).
    destruct (Qle_bool FLOAT_OVERFLOW _); [discriminate|]. intros [= <-].
    assert (Hq : (0 < inject_Z access)%Q) by (unfold Qlt; simpl; lia).
    split.
    + now apply quotient_nonneg.
    + intros m' access' hit' [= <-]. rewrite Ha, Hh. intros [= <-] [= <-] Hle.
      apply Qle_shift_div_r; [exact Hq|]. rewrite Qmult_1_l.
      unfold Qle. simpl. lia.
  - intros [= <-]. split; [apply Qle_refl|]. intros. discriminate.
Qed.

Lemma strategy_values_nonneg (output : string) (v : Q) :
  first_success strategies output = Some v -> (0 <= v)%Q.
Proof.
  unfold strategies, first_success.
  unfold per_core_rate at 1.
  destruct (search PER_CORE_PATTERN output fl_I) as [m|] eqn:Ea.
  { destruct (search_decimal _ _ _ pat_per_core Ea) as (q & Hq).
    rewrite (float_Ok _ _ Hq). intros [= <-].
    now apply (float_of_str_nonneg _ _ (float_Ok _ _ Hq)). }
  unfold summary_rate at 1.
  destruct (search OVERALL_PATTERN output fl_I) as [m|] eqn:Eb.
  { destruct (search_decimal _ _ _ pat_overall Eb) as (q & Hq).
    rewrite (float_Ok _ _ Hq). intros [= <-].
    now apply (float_of_str_nonneg _ _ (float_Ok _ _ Hq)). }
  unfold last_cumulative at 1.
  destruct (findall CUM_PATTERN output fl_I) as [|g l] eqn:Ec.
  2:{ destruct (float_of_str (last (g :: l) EmptyString)) as [q|] eqn:E.
      - intros [= <-]. now apply (float_of_str_nonneg _ _ E).
      - exfalso.
        assert (Hin : In (last (g :: l) EmptyString) (findall CUM_PATTERN output fl_I)).
        { rewrite Ec. destruct (exists_last (l := g :: l)) as (l' & x & El);
            [discriminate|]. rewrite El, last_last. apply in_or_app. right. now left. }
        destruct (findall_group1 _ _ _ _ _ pat_cum eq_refl Hin) as (wd & Hg & Hw).
        destruct (float_decimal fl_I wd Hw) as (q & Hq). rewrite <- Hg in Hq.
        apply float_Ok in Hq. congruence. }
  unfold totals_ratio.
  destruct (search INSTR_PATTERN output fl_I) as [mi|]; [|discriminate].
  destruct (search CYCLES_PATTERN output fl_I) as [mc|]; [|discriminate].
  destruct (float_of_str (group 1 mi)) as [instr|] eqn:Ei; [|discriminate].
  destruct (float_of_str (group 1 mc)) as [cycles|] eqn:Ey; [|discriminate].
  destruct (Qgtb cycles 0) eqn:Eg; [|discriminate].
  intros [= <-]. apply Qgtb_lt in Eg.
  apply Qle_shift_div_l; [exact Eg|]. rewrite Qmult_0_l.
  now apply (float_of_str_nonneg _ _ Ei).
Qed.

(** X6: an IPC returned by [parse_ipc] is never negative, and nothing is
    printed when a value is returned. *)
Theorem parse_ipc_nonneg (output : string) (v : Q) :
  snd (parse_ipc output) = Ok v ->
  (0 <= v)%Q /\ fst (parse_ipc output) = [].
Proof.
  rewrite parse_ipc_first_success.
  destruct (first_success strategies output) as [q|] eqn:E; [|discriminate].
  simpl. intros [= <-]. split; [now apply (strategy_values_nonneg output)|reflexivity].
Qed.

Lemma has_mm_app (a b : list ascii) (x y : ascii) :
  is_m x = true -> is_m y = true -> has_mm (a ++ x :: y :: b) = true.
Proof.
  intros Hx Hy. induction a as [|c a IH]; simpl.
  - now rewrite Hx, Hy.
  - destruct (a ++ x :: y :: b) eqn:E; [now destruct a|].
    rewrite IH. apply orb_true_r.
Qed.

Lemma has_mm_skipn (l : list ascii) :
  forall p, has_mm (skipn p l) = true -> has_mm l = true.
Proof.
  induction l as [|c l IH]; intros [|p]; simpl; auto.
  intros H. apply IH in H. destruct l; [discriminate|].
  rewrite H. apply orb_true_r.
Qed.

Lemma cum_regex_head :
  exists rest,
    compile CUM_PATTERN
    = Some (Atom (CLit "c"%char) Once :: Atom (CClass [("u"%char, "u"%char)]) Opt
            :: Atom (CLit "m"%char) Once :: Atom (CLit "m"%char) Once :: rest).
Proof.
  exists (skipn 4 (match compile CUM_PATTERN with Some r => r | None => [] end)).
  vm_compute. reflexivity.
Qed.

Lemma one_char (fl : flags) (c : cset) (wd : list ascii) :
  forallb (accepts fl c) wd = true -> quant_ok Once (List.length wd) ->
  exists x, wd = [x] /\ accepts fl c x = true.
Proof.
  destruct wd as [|x [|y wd]]; simpl; try discriminate.
  rewrite andb_true_r. eauto.
Qed.

(** X7: the third strategy of [parse_ipc] reads a report only where the
    letter m stands twice in a row: in an output without a double m the
    pattern [c[u]?mmulative] has no match, so a correctly spelled
    [cumulative IPC:] report outside the per-core pattern is not read by
    it. *)
Theorem cumulative_pattern_needs_double_m (output : string) :
  has_mm (chars output) = false ->
  findall CUM_PATTERN output fl_I = []
  /\ last_cumulative output = None
  /\ first_success strategies output
     = first_success [per_core_rate; summary_rate; totals_ratio] output.
Proof.
  intros Hmm.
  assert (Hnone : findall CUM_PATTERN output fl_I = []).
  { destruct (findall CUM_PATTERN output fl_I) as [|g l] eqn:E; [reflexivity|].
    exfalso. unfold findall in E. destruct cum_regex_head as (rest & Hc).
    rewrite Hc in E.
    destruct (scan fl_I _ (chars output) (chars output) 0 0) as [|m ms] eqn:Es;
      [discriminate|].
    assert (Hin : In m (scan fl_I
                          (Atom (CLit "c"%char) Once
                           :: Atom (CClass [("u"%char, "u"%char)]) Opt
                           :: Atom (CLit "m"%char) Once
                           :: Atom (CLit "m"%char) Once :: rest)
                          (chars output) (chars output) 0 0))
      by (rewrite Es; now left).
    apply (scan_inv _ _ _ _ _ 0 0 eq_refl) in Hin. destruct Hin as (p & Hp).
    unfold match_at in Hp.
    destruct (match_here fl_I _ (skipn p (chars output)) p []) as [[e caps]|] eqn:Em;
      [|discriminate].
    apply match_here_sound in Em. destruct Em as (s' & Hd).
    apply derives_atom_inv in Hd. destruct Hd as (w1 & s1 & E1 & _ & _ & Hd).
    apply derives_atom_inv in Hd. destruct Hd as (w2 & s2 & -> & _ & _ & Hd).
    apply derives_atom_inv in Hd. destruct Hd as (w3 & s3 & -> & H3 & Q3 & Hd).
    apply derives_atom_inv in Hd. destruct Hd as (w4 & s4 & -> & H4 & Q4 & Hd).
    destruct (one_char _ _ _ H3 Q3) as (x & -> & Hx).
    destruct (one_char _ _ _ H4 Q4) as (y & -> & Hy).
    assert (Hs : has_mm (skipn p (chars output)) = true).
    { rewrite E1. rewrite app_assoc. apply has_mm_app; assumption. }
    apply has_mm_skipn in Hs. congruence. }
  split; [exact Hnone|]. split.
  - unfold last_cumulative. now rewrite Hnone.
  - unfold strategies, first_success, last_cumulative. now rewrite Hnone.
Qed.


Lemma cumulative_pattern_needs_double_m_witness :
  findall CUM_PATTERN bare_cumulative_lines fl_I = []
  /\ last_cumulative bare_cumulative_lines = None
  /\ first_success strategies bare_cumulative_lines
     = first_success [per_core_rate; summary_rate; totals_ratio] bare_cumulative_lines.
Proof.
  apply cumulative_pattern_needs_double_m. vm_compute. reflexivity.
Defined.

Lemma hit_rate_range_witness :
  (0 <= 81913 # 245741)%Q
  /\ forall m access hit,
       search LLC_PATTERN sample_output fl_none = Some m ->
       int (group 1 m) = Ok access -> int (group 2 m) = Ok hit ->
       (hit <= access)%Z -> (81913 # 245741 <= 1)%Q.
Proof.
  apply (hit_rate_range sample_output (81913 # 245741)).
  vm_compute. reflexivity.
Defined.

Lemma parse_ipc_nonneg_witness :
  (0 <= 1.2345)%Q /\ fst (parse_ipc sample_output) = [].
Proof. apply parse_ipc_nonneg. vm_compute. reflexivity. Defined.

End ExtractorFacts.

(** ** [evaluate_policy] of [eval_ipc_docker.py] *)
Section EvaluatePolicy.
Variable dk : EvalIpc.docker.
Variable cc : string.

Lemma evaluate_rows_ok (wls : list workload) :
  forall acc rows,
    EvalIpc.evaluate_rows dk cc (EvalIpc.Out cc) wls acc = Ok rows ->
    exists new, rows = acc ++ new /\ Forall2 (observed dk cc) wls new.
Proof.
  induction wls as [|w wls IH]; intros acc rows; simpl.
  - intros [= <-]. exists []. rewrite app_nil_r. split; [reflexivity|constructor].
  - unfold EvalIpc.run_executable.
    destruct (EvalIpc.docker_sim dk (EvalIpc.Out cc) (trace_path w)) as [out|] eqn:Er;
      [|discriminate]. simpl.
    destruct (snd (parse_ipc out)) as [ipc|] eqn:Ei; [|discriminate]. simpl.
    destruct (parse_cache_hit_rate out) as [hit|] eqn:Eh; [|discriminate]. simpl.
    intros H. apply IH in H. destruct H as (new & -> & Hf).
    eexists (_ :: new). rewrite <- app_assoc. split; [reflexivity|].
    constructor; [|exact Hf]. repeat split; simpl. exists out. auto.
Qed.

Lemma evaluate_rows_measurable (wls : list workload) :
  Forall (measurable dk cc) wls ->
  forall acc, exists rows, EvalIpc.evaluate_rows dk cc (EvalIpc.Out cc) wls acc = Ok rows.
Proof.
  induction 1 as [|w wls (out & Hr & Hi & Hh) Hf IH]; intros acc; simpl; [eauto|].
  unfold EvalIpc.run_executable. rewrite Hr. simpl.
  destruct (snd (parse_ipc out)) as [ipc|]; [|discriminate]. simpl.
  destruct (parse_cache_hit_rate out) as [o|]; [|discriminate]. simpl. apply IH.
Qed.

Lemma evaluate_rows_first_failure (pre : list workload) (w : workload)
  (post : list workload) (e : exn) :
  Forall (measurable dk cc) pre -> fails_with dk cc w e ->
  forall acc, EvalIpc.evaluate_rows dk cc (EvalIpc.Out cc) (pre ++ w :: post) acc = Raise e.
Proof.
  intros Hpre Hw.
  induction Hpre as [|x pre (out & Hr & Hi & Hh) Hf IH]; intros acc; simpl.
  - unfold EvalIpc.run_executable.
    destruct Hw as [->|(out & -> & [Hp|[Hi Hh]])]; [reflexivity| |]; simpl.
    + now rewrite Hp.
    + destruct (snd (parse_ipc out)) as [ipc|]; [|discriminate]. simpl.
      now rewrite Hh.
  - unfold EvalIpc.run_executable. rewrite Hr. simpl.
    destruct (snd (parse_ipc out)) as [ipc|]; [|discriminate]. simpl.
    destruct (parse_cache_hit_rate out) as [o|]; [|discriminate]. simpl. apply IH.
Qed.

Lemma fold_ipc_nonneg (rows : list EvalIpc.ipc_row) :
  Forall (fun r => (0 <= EvalIpc.r_ipc r)%Q) rows ->
  forall acc, (0 <= acc)%Q ->
    (0 <= fold_left (fun a r => a + EvalIpc.r_ipc r) rows acc)%Q.
Proof.
  induction 1 as [|r rows Hr Hf IH]; intros acc Ha; simpl; [exact Ha|].
  apply IH. rewrite <- (Qplus_0_l 0). now apply Qplus_le_compat.
Qed.

Lemma observed_nonneg (wls : list workload) (rows : list EvalIpc.ipc_row) :
  Forall2 (observed dk cc) wls rows ->
  Forall (fun r => (0 <= EvalIpc.r_ipc r)%Q) rows.
Proof.
  induction 1 as [|w r wls rows (_ & _ & out & _ & Hi & _) Hf IH]; constructor;
    [|exact IH].
  rewrite parse_ipc_first_success in Hi.
  destruct (first_success strategies out) as [q|] eqn:E; [|discriminate].
  injection Hi as <-. now apply (strategy_values_nonneg out).
Qed.

Lemma measurable_dec (w : workload) :
  measurable dk cc w \/ exists e, fails_with dk cc w e.
Proof.
  unfold measurable, fails_with.
  destruct (EvalIpc.docker_sim dk (EvalIpc.Out cc) (trace_path w)) as [out|e] eqn:Er.
  - destruct (snd (parse_ipc out)) as [v|e] eqn:Ei.
    + destruct (parse_cache_hit_rate out) as [o|e] eqn:Eh.
      * left. exists out. rewrite Ei, Eh. auto.
      * right. exists e. right. exists out. rewrite Ei, Eh. auto.
    + right. exists e. right. exists out. auto.
  - right. exists e. now left.
Qed.

(** X8: a result of [evaluate_policy] has one row per workload, in the order
    of the workloads, each with the name of its workload, the path of the
    policy, and the IPC and hit rate read from the output of its run; the
    mean is 0.0 for no workload, and it is never negative. *)
Theorem evaluate_policy_rows (wls : list workload) (mean : Q)
  (rows : list EvalIpc.ipc_row) :
  EvalIpc.evaluate_policy dk cc wls = Ok (mean, rows) ->
  Forall2 (observed dk cc) wls rows
  /\ (wls = [] -> mean = 0%Q)
  /\ (0 <= mean)%Q.
Proof.
  unfold EvalIpc.evaluate_policy, EvalIpc.compile_policy.
  destruct (EvalIpc.docker_build dk cc) as [[]|]; [|discriminate]. simpl.
  destruct (EvalIpc.evaluate_rows dk cc (EvalIpc.Out cc) wls []) as [results|] eqn:Er;
    [|discriminate]. simpl.
  destruct (evaluate_rows_ok _ _ _ Er) as (new & Hn & Hf). simpl in Hn. subst new.
  pose proof (fold_ipc_nonneg _ (observed_nonneg _ _ Hf) 0%Q (Qle_refl 0)) as Hsum.
  fold (EvalIpc.sum_ipc results) in Hsum.
  destruct results as [|r results].
  - simpl. intros [= <- <-]. destruct wls; [|inversion Hf].
    split; [constructor|]. split; [reflexivity|apply Qle_refl].
  - unfold py_div.
    destruct (Qeq_bool (inject_Z (Z.of_nat (List.length (r :: results)))) 0) eqn:Ez.
    { apply Qeq_bool_iff in Ez. unfold Qeq in Ez. simpl in Ez. lia. }
    simpl. intros [= <- <-]. split; [exact Hf|]. split.
    + intros ->. inversion Hf.
    + apply Qle_shift_div_l; [unfold Qlt; simpl; lia|].
      now rewrite Qmult_0_l.
Qed.

(** X9: [evaluate_policy] gives a result exactly when the build succeeds
    and, for every workload, the run succeeds, its output holds an IPC and
    the reading of its hit rate does not raise; a failure of the build is
    raised whatever the workloads, and otherwise the failure of the first
    workload that fails (in its run, in [parse_ipc], or in
    [parse_cache_hit_rate]) is raised, whatever the later ones would do. *)
Theorem evaluate_policy_all_or_first_failure (wls : list workload) :
  (is_ok (EvalIpc.evaluate_policy dk cc wls) = true <->
   is_ok (EvalIpc.docker_build dk cc) = true /\ Forall (measurable dk cc) wls)
  /\ (forall e, EvalIpc.docker_build dk cc = Raise e ->
        EvalIpc.evaluate_policy dk cc wls = Raise e)
  /\ (forall pre w post e,
        wls = pre ++ w :: post ->
        is_ok (EvalIpc.docker_build dk cc) = true ->
        Forall (measurable dk cc) pre ->
        fails_with dk cc w e ->
        EvalIpc.evaluate_policy dk cc wls = Raise e).
Proof.
  assert (Hfirst : forall pre w post e,
            wls = pre ++ w :: post ->
            is_ok (EvalIpc.docker_build dk cc) = true ->
            Forall (measurable dk cc) pre -> fails_with dk cc w e ->
            EvalIpc.evaluate_policy dk cc wls = Raise e).
  { intros pre w post e -> Hb Hpre Hw.
    unfold EvalIpc.evaluate_policy, EvalIpc.compile_policy.
    destruct (EvalIpc.docker_build dk cc) as [[]|]; [|discriminate]. simpl.
    now rewrite (evaluate_rows_first_failure pre w post e Hpre Hw). }
  split; [|split; [|exact Hfirst]].
  - split.
    + intros Hok.
      destruct (EvalIpc.docker_build dk cc) as [[]|e] eqn:Eb.
      * split; [reflexivity|].
        assert (Hall : forall pre post, wls = pre ++ post ->
                  Forall (measurable dk cc) pre -> Forall (measurable dk cc) wls).
        { intros pre post. revert pre.
          induction post as [|w post IH]; intros pre Hw Hpre.
          - now rewrite Hw, app_nil_r.
          - destruct (measurable_dec w) as [Hm|(e & He)].
            + apply (IH (pre ++ [w])).
              * now rewrite <- app_assoc.
              * apply Forall_app. split; [exact Hpre|]. now constructor.
            + rewrite (Hfirst pre w post e Hw) in Hok; try assumption.
              * discriminate.
              * reflexivity. }
        apply (Hall [] wls); [reflexivity|constructor].
      * unfold EvalIpc.evaluate_policy, EvalIpc.compile_policy in Hok.
        rewrite Eb in Hok. discriminate.
    + intros [Hb Hall].
      unfold EvalIpc.evaluate_policy, EvalIpc.compile_policy.
      destruct (EvalIpc.docker_build dk cc) as [[]|]; [|discriminate]. simpl.
      destruct (evaluate_rows_measurable wls Hall []) as (rows & ->). simpl.
      destruct rows as [|r rows]; [reflexivity|].
      unfold py_div.
      destruct (Qeq_bool (inject_Z (Z.of_nat (List.length (r :: rows)))) 0) eqn:Ez.
      { apply Qeq_bool_iff in Ez. unfold Qeq in Ez. simpl in Ez. lia. }
      reflexivity.
  - intros e Eb. unfold EvalIpc.evaluate_policy, EvalIpc.compile_policy.
    now rewrite Eb.
Qed.

End EvaluatePolicy.

Lemma evaluate_policy_rows_witness :
  let mean := (617250000000000000000 # 500000000000000000000)%Q in
  let rows := map (fun w => {| EvalIpc.r_workload := wl_name w;
                               EvalIpc.r_cc_path := "policy.cc";
                               EvalIpc.r_ipc := 12345 # 10000;
                               EvalIpc.r_cache_hit_rate := Some (81913 # 245741) |})
                WORKLOADS in
  Forall2 (observed sample_docker "policy.cc") WORKLOADS rows
  /\ (WORKLOADS = [] -> mean = 0%Q)
  /\ (0 <= mean)%Q.
Proof.
  apply (evaluate_policy_rows sample_docker "policy.cc" WORKLOADS).
  vm_compute. reflexivity.
Defined.

Lemma evaluate_policy_all_or_first_failure_witness :
  EvalIpc.evaluate_policy mcf_fails "policy.cc" WORKLOADS = Raise (CalledProcessError 3).
Proof.
  apply (proj2 (proj2 (evaluate_policy_all_or_first_failure mcf_fails "policy.cc" WORKLOADS))
           (firstn 2 WORKLOADS)
           {| wl_name := "mcf"; trace_path := "ChampSim_CRC2/traces/mcf_250B.trace.gz" |}
           (skipn 3 WORKLOADS)).
  - reflexivity.
  - reflexivity.
  - repeat constructor; exists sample_output; repeat split; reflexivity.
  - left. reflexivity.
Defined.

(** ** The candidates and the table of [run_loop_docker.py] *)
Section TableFacts.
Variable w : world.
Variable wls : list workload.

Lemma parse_hit_rate_nonneg (output : string) (v : Q) :
  parse_hit_rate output = Ok v -> (0 <= v)%Q.
Proof.
  unfold parse_hit_rate.
  destruct (search LLC_PATTERN output fl_none) as [m|] eqn:Em; [|discriminate].
  destruct (llc_groups _ _ Em) as (access & hit & Ha & Hh). rewrite Ha, Hh. simpl.
  pose proof (int_nonneg _ _ Hh) as Hh0.
  destruct (0 <? access)%Z eqn:Epos; [|intros [= <-]; apply Qle_refl].
  apply Z.ltb_lt in Epos. rewrite (int_div_pos hit access Epos).
  destruct (Qle_bool FLOAT_OVERFLOW _); [discriminate|]. intros [= <-].
  now apply quotient_nonneg.
Qed.

Lemma evaluate_trace (name desc : string) (cc : path) (todo : list workload) :
  forall total acc d d' r,
    evaluate w name desc cc (Out cc) todo total acc d = (d', r) ->
    exists obs,
      d' = d ++ map (rate_row name desc cc) obs
      /\ Forall2 (measured w cc) (firstn (List.length obs) todo) obs
      /\ List.length obs <= List.length todo
      /\ (forall t pw, r = Ok (t, pw) ->
           List.length obs = List.length todo
           /\ pw = acc ++ obs
           /\ t = fold_left (fun a o => a + snd o)%Q obs total)
      /\ (forall e, r = Raise e ->
           exists wl, nth_error todo (List.length obs) = Some wl
                      /\ run_fails w cc wl e).
Proof.
  induction todo as [|wl todo IH]; intros total acc d d' r; simpl.
  - intros [= <- <-]. exists []. simpl. rewrite !app_nil_r.
    split; [reflexivity|]. split; [constructor|]. split; [lia|]. split.
    + intros t pw [= <- <-]. auto.
    + discriminate.
  - unfold run_policy.
    destruct (docker_sim w (Out cc) (trace_path wl)) as [out|e] eqn:Er.
    2:{ intros [= <- <-]. exists []. simpl. rewrite app_nil_r.
        split; [reflexivity|]. split; [constructor|]. split; [lia|]. split.
        - discriminate.
        - intros e0 [= <-]. exists wl. split; [reflexivity|]. now left. }
    destruct (parse_hit_rate out) as [hit|e] eqn:Eh.
    2:{ intros [= <- <-]. exists []. simpl. rewrite app_nil_r.
        split; [reflexivity|]. split; [constructor|]. split; [lia|]. split.
        - discriminate.
        - intros e0 [= <-]. exists wl. split; [reflexivity|]. right. exists out. auto. }
    intros H. apply IH in H. destruct H as (obs & -> & Hf & Hlen & Hok & Hbad).
    exists ((wl_name wl, hit) :: obs). simpl. unfold record. rewrite <- app_assoc.
    split; [reflexivity|]. split.
    { constructor; [|exact Hf]. split; [reflexivity|]. exists out. auto. }
    split; [lia|]. split.
    + intros t pw Hr. destruct (Hok t pw Hr) as (Hl & -> & ->).
      rewrite <- app_assoc. auto.
    + intros e Hr. exact (Hbad e Hr).
Qed.

Lemma evaluate_first_failure (name desc : string) (cc : path)
  (pre : list workload) (wl : workload) (post : list workload)
  (obs : list (string * Q)) (e : exn) :
  Forall2 (measured w cc) pre obs -> run_fails w cc wl e ->
  forall total acc d,
    evaluate w name desc cc (Out cc) (pre ++ wl :: post) total acc d
    = (d ++ map (rate_row name desc cc) obs, Raise e).
Proof.
  intros Hm Hf.
  induction Hm as [|x o pre obs (Hn & out & Hr & Hh) Hm IH]; intros total acc d; simpl.
  - rewrite app_nil_r. unfold run_policy.
    destruct Hf as [->|(out & -> & ->)]; reflexivity.
  - unfold run_policy. rewrite Hr, Hh, IH. unfold record.
    rewrite <- app_assoc. simpl. destruct o as [n v]. simpl in Hn. subst n.
    reflexivity.
Qed.

Lemma fold_rates_nonneg (obs : list (string * Q)) :
  Forall (fun o => (0 <= snd o)%Q) obs ->
  forall total, (0 <= total)%Q ->
    (0 <= fold_left (fun a o => a + snd o)%Q obs total)%Q.
Proof.
  induction 1 as [|o obs Ho Hf IH]; intros total Ht; simpl; [exact Ht|].
  apply IH. rewrite <- (Qplus_0_l 0). now apply Qplus_le_compat.
Qed.

Lemma measured_nonneg (cc : path) (todo : list workload) (obs : list (string * Q)) :
  Forall2 (measured w cc) todo obs -> Forall (fun o => (0 <= snd o)%Q) obs.
Proof.
  induction 1 as [|wl o todo obs (_ & out & _ & Hh) Hf IH]; constructor; [|exact IH].
  exact (parse_hit_rate_nonneg _ _ Hh).
Qed.

(** X10: a candidate that a slot appends to [candidate_results] comes from
    a response with all three parts, is in the file of its iteration and
    slot, which was written and built, and has one measurement per
    workload, in the order of the workloads, each read from the run of its
    executable on that workload; each measurement is also a row of the
    table, appended in the same order under the candidate's name; the list
    of workloads is not empty, and the average is not negative. *)
Theorem slot_candidate (i j : nat) (d d' : list row) (c : cand) :
  slot w wls i j d = (d', Ok (Some c)) ->
  (exists text,
      llm w i j = Ok (Some text)
      /\ parsed_candidate text = Some (c_name c, c_desc c, c_code c))
  /\ c_cc c = {| p_iter := i; p_slot := j;
                 p_base := (sanitize (c_name c) ++ "_t02")%string |}
  /\ write_text w (c_cc c) (c_code c) = Ok tt
  /\ docker_build w (c_cc c) (c_code c) = Ok tt
  /\ Forall2 (measured w (c_cc c)) wls (per_wl c)
  /\ d' = d ++ map (rate_row (c_name c) (c_desc c) (c_cc c)) (per_wl c)
  /\ wls <> []
  /\ (0 <= avg_hit c)%Q.
Proof.
  unfold slot.
  destruct (llm w i j) as [[text|]|] eqn:El; try discriminate.
  destruct (parsed_candidate text) as [[[name desc] code]|] eqn:Ep; [|discriminate].
  destruct (write_text w _ code) as [[]|] eqn:Ew; [|discriminate].
  unfold compile_policy.
  destruct (docker_build w _ code) as [[]|[]] eqn:Eb; try discriminate. simpl.
  destruct (evaluate w name desc _ _ wls 0 [] d) as [d1 [[t pw]|e]] eqn:Ee;
    [|discriminate].
  destruct (evaluate_trace _ _ _ _ _ _ _ _ _ Ee) as (obs & Hd & Hf & _ & Hok & _).
  destruct (Hok t pw eq_refl) as (Hl & Hpw & Ht). simpl in Hpw. subst pw.
  rewrite Hl, firstn_all in Hf.
  unfold py_div.
  destruct (Qeq_bool (inject_Z (Z.of_nat (List.length wls))) 0) eqn:Ez; [discriminate|].
  intros [= <- <-]. simpl.
  split; [exists text; auto|]. split; [reflexivity|]. split; [exact Ew|].
  split; [exact Eb|]. split; [exact Hf|]. split; [exact Hd|].
  assert (Hne : wls <> []) by (intros ->; discriminate).
  split; [exact Hne|].
  apply Qle_shift_div_l.
  - unfold Qlt. simpl. destruct wls; [congruence|simpl; lia].
  - rewrite Qmult_0_l, Ht.
    apply fold_rates_nonneg; [exact (measured_nonneg _ _ _ Hf)|apply Qle_refl].
Qed.

(** X11: how an exception leaves a slot, and what is in the table then.
    A generator that answers without a text gives [TypeError], with nothing
    written to the table; so does a source file that cannot be written, and
    a build that fails with something else than an exit status, each with
    its own exception.  When the file is written and built and the run on
    a workload fails, or the reading of its hit rate does, after the runs
    before it were measured, that exception leaves the slot and the rows of
    the workloads before it, and only those, have been added to the table.
    With no workload at all the slot ends in [ZeroDivisionError]. *)
Theorem slot_interrupted (i j : nat) (d : list row) :
  (llm w i j = Ok None -> slot w wls i j d = (d, Raise TypeError))
  /\ forall text name desc code,
       llm w i j = Ok (Some text) ->
       parsed_candidate text = Some (name, desc, code) ->
       let cc := {| p_iter := i; p_slot := j;
                    p_base := (sanitize name ++ "_t02")%string |} in
       (forall e, write_text w cc code = Raise e -> slot w wls i j d = (d, Raise e))
       /\ (forall e,
             write_text w cc code = Ok tt ->
             docker_build w cc code = Raise e ->
             (forall rc, e <> CalledProcessError rc) ->
             slot w wls i j d = (d, Raise e))
       /\ (forall pre wl post obs e,
             write_text w cc code = Ok tt ->
             docker_build w cc code = Ok tt ->
             wls = pre ++ wl :: post ->
             Forall2 (measured w cc) pre obs ->
             run_fails w cc wl e ->
             slot w wls i j d = (d ++ map (rate_row name desc cc) obs, Raise e))
       /\ (write_text w cc code = Ok tt ->
           docker_build w cc code = Ok tt ->
           wls = [] ->
           slot w wls i j d = (d, Raise ZeroDivisionError)).
Proof.
  split; [intros H; unfold slot; now rewrite H|].
  intros text name desc code Hl Hp cc. unfold slot. rewrite Hl, Hp. fold cc.
  split; [intros e ->; reflexivity|].
  split.
  { intros e -> Hb Hrc. unfold compile_policy. rewrite Hb. simpl.
    destruct e; try reflexivity. now destruct (Hrc returncode). }
  split.
  { intros pre wl post obs e -> Hb -> Hm Hf. unfold compile_policy. rewrite Hb. simpl.
    now rewrite (evaluate_first_failure name desc cc pre wl post obs e Hm Hf). }
  intros -> Hb ->. unfold compile_policy. rewrite Hb. reflexivity.
Qed.

Lemma row_between_weaken (lo hi lo' hi' : nat) (r : row) :
  lo' <= lo -> hi <= hi' -> row_between lo hi r -> row_between lo' hi' r.
Proof. unfold row_between. intuition lia. Qed.

Lemma rate_rows_between (i : nat) (name desc : string) (cc : path)
  (obs : list (string * Q)) :
  p_iter cc = i -> Forall (fun o => (0 <= snd o)%Q) obs ->
  Forall (row_between i (S i)) (map (rate_row name desc cc) obs).
Proof.
  intros Hi. induction 1 as [|o obs Ho Hf IH]; simpl; constructor; [|exact IH].
  unfold row_between. simpl. repeat split; auto; lia.
Qed.

Lemma mean_nonneg (total avg : Q) (n : nat) :
  (0 <= total)%Q -> py_div total (inject_Z (Z.of_nat n)) = Ok avg -> (0 <= avg)%Q.
Proof.
  intros Ht. unfold py_div.
  destruct (Qeq_bool (inject_Z (Z.of_nat n)) 0) eqn:Ez; [discriminate|].
  intros [= <-]. apply Qle_shift_div_l.
  - unfold Qlt. simpl. destruct n; [discriminate|]. lia.
  - now rewrite Qmult_0_l.
Qed.

(** What a slot does to the table, whatever its outcome. *)
Lemma slot_rows (i j : nat) (d d' : list row) r :
  slot w wls i j d = (d', r) ->
  exists new,
    d' = d ++ new
    /\ Forall (row_between i (S i)) new
    /\ List.length new <= List.length wls
    /\ (r = Ok None -> new = [])
    /\ (forall c, r = Ok (Some c) ->
          List.length new = List.length wls
          /\ (0 <= avg_hit c)%Q /\ p_iter (c_cc c) = i).
Proof.
  assert (Hskip : forall r0, (forall c, r0 <> Ok (Some c)) -> (d, r0) = (d', r) ->
            exists new, d' = d ++ new /\ Forall (row_between i (S i)) new
              /\ List.length new <= List.length wls /\ (r = Ok None -> new = [])
              /\ (forall c, r = Ok (Some c) -> List.length new = List.length wls
                    /\ (0 <= avg_hit c)%Q /\ p_iter (c_cc c) = i)).
  { intros r0 Hr0 [= <- <-]. exists []. rewrite app_nil_r.
    split; [reflexivity|]. split; [constructor|]. split; [simpl; lia|].
    split; [reflexivity|]. intros c Hc. now apply Hr0 in Hc. }
  unfold slot.
  destruct (llm w i j) as [[text|]|]; try (apply Hskip; discriminate).
  destruct (parsed_candidate text) as [[[name desc] code]|];
    try (apply Hskip; discriminate).
  destruct (write_text w _ code) as [[]|]; try (apply Hskip; discriminate).
  unfold compile_policy.
  destruct (docker_build w _ code) as [[]|[]]; simpl;
    try (apply Hskip; discriminate).
  destruct (evaluate w name desc _ _ wls 0 [] d) as [d1 [[t pw]|e]] eqn:Ee.
  - destruct (evaluate_trace _ _ _ _ _ _ _ _ _ Ee) as (obs & Hd & Hf & Hle & Hok & _).
    destruct (Hok t pw eq_refl) as (Hl & _ & Ht).
    pose proof (measured_nonneg _ _ _ Hf) as Hpos.
    assert (Hrows : exists new, d1 = d ++ new /\ Forall (row_between i (S i)) new
                      /\ List.length new = List.length wls).
    { exists (map (rate_row name desc
                     {| p_iter := i; p_slot := j;
                        p_base := (sanitize name ++ "_t02")%string |}) obs).
      split; [exact Hd|]. split; [now apply rate_rows_between|].
      now rewrite length_map. }
    destruct Hrows as (new & Hd1 & Hb & Hn).
    destruct (py_div t _) as [avg|e] eqn:Ediv; intros [= <- <-];
      exists new; (split; [exact Hd1|]); (split; [exact Hb|]); (split; [lia|]);
      (split; [discriminate|]); [|discriminate].
    intros c [= <-]. simpl. split; [exact Hn|]. split; [|reflexivity].
    apply (mean_nonneg t avg (List.length wls)); [|exact Ediv].
    rewrite Ht. exact (fold_rates_nonneg _ Hpos 0%Q (Qle_refl 0)).
  - destruct (evaluate_trace _ _ _ _ _ _ _ _ _ Ee) as (obs & Hd & Hf & Hle & _ & _).
    pose proof (measured_nonneg _ _ _ Hf) as Hpos.
    intros [= <- <-].
    exists (map (rate_row name desc
                   {| p_iter := i; p_slot := j;
                      p_base := (sanitize name ++ "_t02")%string |}) obs).
    split; [exact Hd|]. split; [now apply rate_rows_between|].
    rewrite length_map. split; [exact Hle|]. split; discriminate.
Qed.

Lemma slots_rows (i : nat) (n : nat) :
  forall j acc d d' r,
    slots w wls i j n acc d = (d', r) ->
    exists new,
      d' = d ++ new
      /\ Forall (row_between i (S i)) new
      /\ List.length new <= n * List.length wls
      /\ forall results, r = Ok results ->
           exists added,
             results = acc ++ added
             /\ List.length added <= n
             /\ List.length new = List.length added * List.length wls
             /\ Forall (fun c => (0 <= avg_hit c)%Q /\ p_iter (c_cc c) = i) added.
Proof.
  induction n as [|n IH]; intros j acc d d' r; simpl.
  - intros [= <- <-]. exists []. rewrite app_nil_r.
    split; [reflexivity|]. split; [constructor|]. split; [simpl; lia|].
    intros results [= <-]. exists []. rewrite app_nil_r. simpl. auto.
  - destruct (slot w wls i j d) as [d1 r1] eqn:Es.
    destruct (slot_rows _ _ _ _ _ Es) as (new1 & -> & Hb1 & Hl1 & Hnone & Hsome).
    destruct r1 as [[c|]|e].
    + intros H. apply IH in H. destruct H as (new2 & -> & Hb2 & Hl2 & Hok).
      destruct (Hsome c eq_refl) as (Hlen & Hc).
      exists (new1 ++ new2). rewrite app_assoc. split; [reflexivity|].
      split; [now apply Forall_app|]. rewrite length_app. split; [lia|].
      intros results Hr. destruct (Hok results Hr) as (added & -> & Ha & Hn & Hf).
      exists (c :: added). rewrite <- app_assoc. split; [reflexivity|].
      simpl. split; [lia|]. split; [lia|]. now constructor.
    + intros H. apply IH in H. destruct H as (new2 & -> & Hb2 & Hl2 & Hok).
      rewrite (Hnone eq_refl) in *. rewrite app_nil_r.
      exists new2. split; [reflexivity|]. split; [exact Hb2|]. split; [lia|].
      intros results Hr. destruct (Hok results Hr) as (added & -> & Ha & Hn & Hf).
      exists added. auto.
    + intros [= <- <-]. exists new1. split; [reflexivity|]. split; [exact Hb1|].
      split; [lia|]. discriminate.
Qed.


Variable ncand : nat.

Lemma feedback_db (i : nat) (st : state) : db (feedback i st) = db st.
Proof.
  unfold feedback. destruct (i =? 0); [reflexivity|].
  now destruct (Qgtb (current_hit st) (best_hit st)).
Qed.

Lemma feedback_prev (i : nat) (st : state) : prev (feedback i st) = prev st.
Proof.
  unfold feedback. destruct (i =? 0); [reflexivity|].
  now destruct (Qgtb (current_hit st) (best_hit st)).
Qed.

Lemma with_db_same (st : state) : with_db st (db st) = st.
Proof. now destruct st. Qed.

Lemma py_max_In {A : Type} (key : A -> Q) (l : list A) (x : A) :
  py_max key l = Some x -> In x l.
Proof.
  destruct l as [|y l]; [discriminate|]. unfold py_max. intros [= <-].
  destruct (max_from_split key l y) as (pre & post & Hs & _).
  rewrite Hs. apply in_or_app. right. now left.
Qed.

(** What an iteration does to the table, whatever its outcome. *)
Lemma iteration_rows (i : nat) (st st' : state) r :
  iteration w wls ncand i st = (st', r) ->
  exists new,
    db st' = db st ++ new
    /\ Forall (row_between i (S i)) new
    /\ List.length new <= ncand * List.length wls + 1
    /\ forall sig, r = Ok sig ->
         exists d results,
           slots w wls i 0 ncand [] (db (feedback i st)) = (d, Ok results)
           /\ List.length results <= ncand
           /\ List.length new
              = List.length results * List.length wls
                + match results with [] => 0 | _ :: _ => 1 end.
Proof.
  unfold iteration.
  destruct (slots w wls i 0 ncand [] (db (feedback i st))) as [d r1] eqn:Es.
  destruct (slots_rows _ _ _ _ _ _ _ Es) as (new & Hd & Hb & Hl & Hok).
  rewrite feedback_db in Hd.
  destruct r1 as [results|e].
  - destruct (Hok results eq_refl) as (added & Hr & Ha & Hn & Hf).
    simpl in Hr. subst added.
    destruct (py_max avg_hit results) as [best_cand|] eqn:Em.
    + pose proof (py_max_In _ _ _ Em) as Hin.
      rewrite Forall_forall in Hf. destruct (Hf _ Hin) as (Hpos & Hi).
      assert (Hst : forall st2 r2,
                db st2 = record d "all" (c_name best_cand) (c_desc best_cand)
                           (c_cc best_cand) (avg_hit best_cand) "" ->
                (st2, r2) = (st', r) ->
                exists new0,
                  db st' = db st ++ new0
                  /\ Forall (row_between i (S i)) new0
                  /\ List.length new0 <= ncand * List.length wls + 1
                  /\ forall sig : signal, r = Ok sig ->
                       exists d0 results0,
                         (d, @Ok (list cand) results) = (d0, Ok results0)
                         /\ List.length results0 <= ncand
                         /\ List.length new0
                            = List.length results0 * List.length wls
                              + match results0 with [] => 0 | _ :: _ => 1 end).
      { intros st2 r2 Hdb [= <- <-]. eexists. rewrite Hdb. unfold record.
        rewrite Hd, <- app_assoc. split; [reflexivity|].
        split.
        { apply Forall_app. split; [exact Hb|]. constructor; [|constructor].
          unfold row_between. simpl. repeat split; auto; lia. }
        rewrite length_app. simpl. split; [nia|].
        intros sig _. exists d, results. split; [now rewrite Hd|]. split; [exact Ha|].
        destruct results; [discriminate|]. lia. }
      destruct (early_exit _ _); apply Hst; reflexivity.
    + intros [= <- <-]. simpl. exists new. split; [exact Hd|]. split; [exact Hb|].
      split; [lia|]. intros sig _. exists d, results. split; [reflexivity|].
      split; [exact Ha|]. destruct results; [lia|discriminate].
  - intros [= <- <-]. simpl. exists new. split; [exact Hd|]. split; [exact Hb|].
    split; [lia|]. discriminate.
Qed.

Lemma sorted_app {A : Type} (R : A -> A -> Prop) (l1 l2 : list A) :
  StronglySorted R l1 -> StronglySorted R l2 ->
  (forall a b, In a l1 -> In b l2 -> R a b) ->
  StronglySorted R (l1 ++ l2).
Proof.
  induction 1 as [|a l1 Hs IH Ha]; intros H2 Hc; simpl; [exact H2|].
  constructor.
  - apply IH; [exact H2|]. intros x y Hx Hy. apply Hc; [now right|exact Hy].
  - apply Forall_app. split; [exact Ha|].
    apply Forall_forall. intros y Hy. apply Hc; [now left|exact Hy].
Qed.

Lemma same_iteration_sorted (i : nat) (l : list row) :
  Forall (row_between i (S i)) l ->
  StronglySorted
    (fun a b => p_iter (row_cpp_file_path a) <= p_iter (row_cpp_file_path b)) l.
Proof.
  induction 1 as [|r l Hr Hf IH]; constructor; [exact IH|].
  apply Forall_forall. intros y Hy. rewrite Forall_forall in Hf.
  specialize (Hf y Hy). unfold row_between in *. lia.
Qed.

(** X12: the loop only appends to the table, also when it ends with an
    exception.  The rows it appends have their score equal to their hit
    rate, which is not negative, an empty workload description, and the
    file of an iteration of the loop; they are in the order of the
    iterations; and there are at most [ncand * |workloads| + 1] of them per
    iteration. *)
Theorem table_grows_in_iteration_order (n : nat) :
  forall i st st' r,
    for_range w wls ncand i n st = (st', r) ->
    exists new,
      db st' = db st ++ new
      /\ Forall (row_between i (i + n)) new
      /\ StronglySorted
           (fun a b => p_iter (row_cpp_file_path a) <= p_iter (row_cpp_file_path b))
           new
      /\ List.length new <= n * (ncand * List.length wls + 1).
Proof.
  induction n as [|n IH]; intros i st st' r; simpl.
  - intros [= <- <-]. exists []. rewrite app_nil_r.
    split; [reflexivity|]. split; [constructor|]. split; [constructor|simpl; lia].
  - destruct (iteration w wls ncand i st) as [st1 r1] eqn:Ei.
    destruct (iteration_rows _ _ _ _ Ei) as (new1 & Hd1 & Hb1 & Hl1 & _).
    assert (Hstop : forall r0, (st1, r0) = (st', r) ->
              exists new, db st' = db st ++ new
                /\ Forall (row_between i (i + S n)) new
                /\ StronglySorted
                     (fun a b => p_iter (row_cpp_file_path a)
                                 <= p_iter (row_cpp_file_path b)) new
                /\ List.length new <= ncand * List.length wls + 1
                                      + n * (ncand * List.length wls + 1)).
    { intros r0 [= <- <-]. exists new1. split; [exact Hd1|]. split.
      - eapply Forall_impl; [|exact Hb1]. intros a.
        apply row_between_weaken; lia.
      - split; [now apply (same_iteration_sorted i)|lia]. }
    destruct r1 as [[]|e]; try (apply Hstop).
    intros H. apply IH in H. destruct H as (new2 & Hd2 & Hb2 & Hs2 & Hl2).
    exists (new1 ++ new2). rewrite Hd2, Hd1, app_assoc. split; [reflexivity|].
    split.
    { apply Forall_app. split.
      - eapply Forall_impl; [|exact Hb1]. intros a. apply row_between_weaken; lia.
      - eapply Forall_impl; [|exact Hb2]. intros a. apply row_between_weaken; lia. }
    split.
    { apply sorted_app; [now apply (same_iteration_sorted i)|exact Hs2|].
      intros a b Ha Hb. rewrite Forall_forall in Hb1, Hb2.
      specialize (Hb1 a Ha). specialize (Hb2 b Hb). unfold row_between in *. lia. }
    rewrite length_app. lia.
Qed.

(** X13: an iteration that ends normally with [k] candidates in
    [candidate_results] has added [k * |workloads|] rows to the table, and
    one more, the row of the chosen candidate, when [k] is not 0; [k] is at
    most the number of slots. *)
Theorem iteration_row_count (i : nat) (st st' : state) (sig : signal) :
  iteration w wls ncand i st = (st', Ok sig) ->
  exists d results,
    slots w wls i 0 ncand [] (db (feedback i st)) = (d, Ok results)
    /\ List.length results <= ncand
    /\ List.length (db st')
       = List.length (db st) + List.length results * List.length wls
         + match results with [] => 0 | _ :: _ => 1 end.
Proof.
  intros H. destruct (iteration_rows _ _ _ _ H) as (new & Hd & _ & _ & Hok).
  destruct (Hok sig eq_refl) as (d & results & Hs & Hle & Hn).
  exists d, results. split; [exact Hs|]. split; [exact Hle|].
  rewrite Hd, length_app. lia.
Qed.

(** X14: an iteration in which no slot gives a candidate writes nothing to
    the table and keeps the score and the policy that are fed back; it
    moves on to the next iteration with the state its head left.  The
    table alone tells: an iteration that ends normally and leaves the table
    as it was chose no candidate and does not end the loop. *)
Theorem iteration_without_candidate (i : nat) (st : state) :
  (forall d,
      slots w wls i 0 ncand [] (db (feedback i st)) = (d, Ok []) ->
      iteration w wls ncand i st = (feedback i st, Ok Next)
      /\ db (feedback i st) = db st
      /\ current_hit (feedback i st) = current_hit st
      /\ prev (feedback i st) = prev st)
  /\ (forall st' sig,
        iteration w wls ncand i st = (st', Ok sig) ->
        db st' = db st ->
        st' = feedback i st /\ sig = Next).
Proof.
  split.
  - intros d Hs.
    destruct (slots_rows _ _ _ _ _ _ _ Hs) as (new & Hd & _ & _ & Hok).
    destruct (Hok [] eq_refl) as (added & Ha & _ & Hn & _).
    simpl in Ha. subst added. simpl in Hn.
    destruct new; [|discriminate]. rewrite app_nil_r in Hd. subst d.
    unfold iteration. rewrite Hs. simpl. rewrite with_db_same.
    split; [reflexivity|]. split; [apply feedback_db|].
    split; [apply feedback_current|apply feedback_prev].
  - intros st' sig H Hdb.
    pose proof H as H0. unfold iteration in H0.
    destruct (slots w wls i 0 ncand [] (db (feedback i st))) as [d r1] eqn:Es.
    destruct (slots_rows _ _ _ _ _ _ _ Es) as (new & Hd & _ & _ & _).
    rewrite feedback_db in Hd.
    destruct r1 as [results|e]; [|discriminate].
    destruct (py_max avg_hit results) as [best_cand|] eqn:Em.
    + exfalso.
      assert (Hlen : List.length (db st') = S (List.length d)).
      { destruct (early_exit _ _); injection H0 as <- _; simpl; unfold record;
          rewrite length_app; simpl; lia. }
      rewrite Hdb, Hd, length_app in Hlen. lia.
    + injection H0 as <- <-. split; [|reflexivity].
      simpl in Hdb. rewrite <- feedback_db with (i := i) in Hdb.
      rewrite Hdb. apply with_db_same.
Qed.

Lemma recorded_app (d new : list row) (x : Q) :
  recorded d x -> recorded (d ++ new) x.
Proof.
  intros (r & Hin & Hr). exists r. split; [|exact Hr]. apply in_or_app. now left.
Qed.

Lemma backed_feedback (initial : Q) (i : nat) (st : state) :
  backed initial st -> backed initial (feedback i st).
Proof.
  intros [Hb Hc]. unfold feedback. destruct (i =? 0); [now split|].
  destruct (Qgtb (current_hit st) (best_hit st)); [|now split].
  split; simpl; [|exact Hc].
  destruct (prev st) as [[[name desc] code]|]; [|now left].
  right. destruct Hc as (r & Hin & Ha & Hs & _). exists r. auto.
Qed.

Lemma backed_app (initial : Q) (st : state) (new : list row) :
  backed initial st -> backed initial (with_db st (db st ++ new)).
Proof.
  intros [Hb Hc]. split; simpl.
  - destruct Hb as [Hb|Hb]; [now left|right; now apply recorded_app].
  - destruct (prev st) as [[[name desc] code]|]; [|exact Hc].
    destruct Hc as (r & Hin & Hr). exists r. split; [|exact Hr].
    apply in_or_app. now left.
Qed.

Lemma backed_iteration (initial : Q) (i : nat) (st st' : state) r :
  backed initial st -> iteration w wls ncand i st = (st', r) ->
  backed initial st'.
Proof.
  intros Hb. apply (backed_feedback initial i) in Hb. unfold iteration.
  destruct (slots w wls i 0 ncand [] (db (feedback i st))) as [d r1] eqn:Es.
  destruct (slots_rows _ _ _ _ _ _ _ Es) as (new & Hd & _).
  destruct r1 as [results|e].
  - destruct (py_max avg_hit results) as [best_cand|].
    + assert (Hst : backed initial
                {| best_hit := best_hit (feedback i st);
                   current_hit := avg_hit best_cand;
                   prev := Some (c_name best_cand, c_desc best_cand, c_code best_cand);
                   db := record d "all" (c_name best_cand) (c_desc best_cand)
                           (c_cc best_cand) (avg_hit best_cand) "" |}).
      { split; simpl.
        - destruct Hb as [[Hb|Hb] _]; [now left|right].
          unfold record. apply recorded_app. rewrite Hd. now apply recorded_app.
        - eexists. split; [unfold record; apply in_or_app; right; now left|].
          simpl. auto. }
      destruct (early_exit _ _); intros [= <- <-]; exact Hst.
    + intros [= <- <-]. rewrite Hd. now apply backed_app.
  - intros [= <- <-]. rewrite Hd. now apply backed_app.
Qed.

(** X15: wherever the loop stands or stops, [best_hit] is the initial
    score or the score of a row of the table recorded under ['all']; and
    either no candidate was chosen so far, [current_hit] is the initial
    score and there is no previous policy, or [current_hit] is the score of
    a row recorded under ['all'] whose policy and description are the ones
    fed back to the generator. *)
Theorem scores_are_backed_by_the_table (initial : Q) (n : nat) :
  forall i st st' r,
    backed initial st ->
    for_range w wls ncand i n st = (st', r) ->
    backed initial st'.
Proof.
  induction n as [|n IH]; intros i st st' r Hb; simpl.
  - now intros [= <- <-].
  - destruct (iteration w wls ncand i st) as [st1 r1] eqn:Ei.
    pose proof (backed_iteration _ _ _ _ _ Hb Ei) as Hb1.
    destruct r1 as [[]|e]; try (now intros [= <- <-]).
    now apply IH.
Qed.

End TableFacts.

(** ** The same on sample runs *)
Section TableWitnesses.

(** Slot 1 of [tie_world]: five rows, an average of one half. *)
Lemma slot_candidate_witness :
  exists d c,
    slot tie_world WORKLOADS 0 1 [] = (d, Ok (Some c))
    /\ Forall2 (measured tie_world (c_cc c)) WORKLOADS (per_wl c)
    /\ d = [] ++ map (rate_row (c_name c) (c_desc c) (c_cc c)) (per_wl c)
    /\ (0 <= avg_hit c)%Q.
Proof.
  do 2 eexists. split; [vm_compute; reflexivity|].
  assert (H := slot_candidate tie_world WORKLOADS 0 1 [] _ _ eq_refl).
  destruct H as (_ & _ & _ & _ & Hf & Hd & _ & Hpos).
  split; [exact Hf|]. split; [exact Hd|exact Hpos].
Defined.

(** In [failing_run_world] the run on the second workload fails: the row of
    the first workload is in the table when the exception leaves the slot. *)
Lemma slot_interrupted_witness :
  slot failing_run_world WORKLOADS 0 0 []
  = ([] ++ map (rate_row "Streaming DRRIP"
                  "Set-dueling DRRIP with a streaming detector."
                  {| p_iter := 0; p_slot := 0; p_base := "streaming_drrip_t02" |})
             [("astar", 50 # 100)],
     Raise (CalledProcessError 1)).
Proof.
  eapply (proj1 (proj2 (proj2 (proj2 (slot_interrupted failing_run_world WORKLOADS 0 0 [])
            complete_response "Streaming DRRIP"
            "Set-dueling DRRIP with a streaming detector."
            "#include <vector>
void InitReplacementState() {}" eq_refl eq_refl)))
          (firstn 1 WORKLOADS)
          {| wl_name := "lbm"; trace_path := "ChampSim_CRC2/traces/lbm_564B.trace.gz" |}
          (skipn 2 WORKLOADS) [("astar", 50 # 100)] (CalledProcessError 1)).
  - reflexivity.
  - reflexivity.
  - reflexivity.
  - repeat constructor. eexists. split; [reflexivity|]. vm_compute. reflexivity.
  - left. reflexivity.
Defined.

(** Two iterations of [tie_world] from a score of 0: 32 rows. *)
Lemma table_grows_in_iteration_order_witness :
  exists st',
    for_range tie_world WORKLOADS 3 0 2 (start 0) = (st', Ok tt)
    /\ List.length (db st') = 32
    /\ exists new,
         db st' = db (start 0) ++ new
         /\ Forall (row_between 0 (0 + 2)) new
         /\ StronglySorted
              (fun a b => p_iter (row_cpp_file_path a) <= p_iter (row_cpp_file_path b))
              new
         /\ List.length new <= 2 * (3 * List.length WORKLOADS + 1).
Proof.
  eexists. split; [vm_compute; reflexivity|]. split; [reflexivity|].
  apply (table_grows_in_iteration_order tie_world WORKLOADS 3 2 0 (start 0) _ (Ok tt)).
  vm_compute. reflexivity.
Defined.

(** The first iteration of [tie_world]: three candidates, sixteen rows. *)
Lemma iteration_row_count_witness :
  exists st' d results,
    iteration tie_world WORKLOADS 3 0 (start 0.3) = (st', Ok Break)
    /\ slots tie_world WORKLOADS 0 0 3 [] (db (feedback 0 (start 0.3)))
       = (d, Ok results)
    /\ List.length results = 3
    /\ List.length (db st') = 16.
Proof.
  eexists.
  destruct (iteration_row_count tie_world WORKLOADS 3 0 (start 0.3) _ Break eq_refl)
    as (d & results & Hs & _ & _).
  exists d, results. split; [vm_compute; reflexivity|]. split; [exact Hs|].
  vm_compute in Hs. injection Hs as <- <-. split; reflexivity.
Defined.

(** With three slots no slot of [flaky_world] gives a candidate. *)
Lemma iteration_without_candidate_witness :
  iteration flaky_world WORKLOADS 3 1 (start 0.5) = (feedback 1 (start 0.5), Ok Next)
  /\ db (feedback 1 (start 0.5)) = db (start 0.5)
  /\ current_hit (feedback 1 (start 0.5)) = current_hit (start 0.5)
  /\ prev (feedback 1 (start 0.5)) = prev (start 0.5).
Proof.
  apply (proj1 (iteration_without_candidate flaky_world WORKLOADS 3 1 (start 0.5)) []).
  vm_compute. reflexivity.
Defined.

(** After two iterations of [tie_world] both scores are in the table. *)
Lemma scores_are_backed_by_the_table_witness :
  exists st',
    for_range tie_world WORKLOADS 3 0 2 (start 0) = (st', Ok tt)
    /\ backed 0 st'.
Proof.
  eexists. split; [vm_compute; reflexivity|].
  apply (scores_are_backed_by_the_table tie_world WORKLOADS 3 0 2 0 (start 0) _ (Ok tt)).
  - split; [now left|reflexivity].
  - vm_compute. reflexivity.
Defined.

End TableWitnesses.

(** ** More on [sanitize] *)
Section SanitizeFacts.

Lemma lstrip_fixed (p : ascii -> bool) (l : list ascii) :
  first_is p l = false -> lstrip p l = l.
Proof. destruct l as [|c l]; simpl; [reflexivity|]. now intros ->. Qed.

Lemma strip_by_fixed (p : ascii -> bool) (l : list ascii) :
  first_is p l = false -> last_is p l = false -> strip_by p l = l.
Proof.
  intros Hf Hl. unfold strip_by, rstrip. rewrite (lstrip_fixed p l Hf).
  unfold last_is in Hl. rewrite (lstrip_fixed p (rev l) Hl). apply rev_involutive.
Qed.

Lemma strip_by_nil (p : ascii -> bool) (l : list ascii) :
  strip_by p l = [] <-> Forall (fun c => p c = true) l.
Proof.
  destruct (strip_by_split p l) as (pre & post & Hs & Hpre & Hpost & Hf & _).
  split.
  - intros E. rewrite E in Hs. rewrite Hs. simpl. now apply Forall_app.
  - intros Hall. destruct (strip_by p l) as [|c core]; [reflexivity|].
    simpl in Hf. rewrite Forall_forall in Hall.
    rewrite Hall in Hf; [discriminate|].
    rewrite Hs. apply in_or_app. right. now left.
Qed.

Lemma lower_fixed (c : ascii) : lower (lower c) = lower c.
Proof. each_char c. Qed.

Lemma replace_lower_fixed (c : ascii) :
  replace_non_alnum (lower (replace_non_alnum c)) = lower (replace_non_alnum c).
Proof. each_char c. Qed.

Lemma is_sep_lower (c : ascii) : is_sep (lower c) = is_sep c.
Proof. each_char c. Qed.

Lemma is_sep_replace (c : ascii) :
  is_sep (replace_non_alnum c) = negb (isalnum c).
Proof. each_char c. Qed.

Lemma first_is_map_lower (l : list ascii) :
  first_is is_sep (map lower l) = first_is is_sep l.
Proof. destruct l; simpl; [reflexivity|apply is_sep_lower]. Qed.

Lemma strip_by_length (p : ascii -> bool) (l : list ascii) :
  List.length (strip_by p l) <= List.length l.
Proof.
  destruct (strip_by_split p l) as (pre & post & Hs & _).
  rewrite Hs at 2. rewrite !length_app. lia.
Qed.

(** X16: [sanitize] is idempotent: a sanitized name is its own sanitized
    form, so applying it to a file base changes nothing. *)
Theorem sanitize_idempotent (name : string) :
  sanitize (sanitize name) = sanitize name.
Proof.
  destruct (strip_by_split is_sep (map replace_non_alnum (chars name)))
    as (pre & post & Hs & _ & _ & Hf & Hl).
  set (core := strip_by is_sep (map replace_non_alnum (chars name))) in *.
  change (sanitize name) with (str (map lower core)).
  change (sanitize (str (map lower core)))
    with (str (map lower (strip_by is_sep
                 (map replace_non_alnum (chars (str (map lower core))))))).
  rewrite chars_str.
  assert (Hin : forall c, In c core -> exists y, c = replace_non_alnum y).
  { intros c Hc.
    assert (Hc' : In c (map replace_non_alnum (chars name))).
    { rewrite Hs. apply in_or_app. right. apply in_or_app. now left. }
    apply in_map_iff in Hc'. destruct Hc' as (y & <- & _). now exists y. }
  assert (Hmap : map replace_non_alnum (map lower core) = map lower core).
  { rewrite map_map. apply map_ext_in. intros c Hc.
    destruct (Hin c Hc) as (y & ->). apply replace_lower_fixed. }
  rewrite Hmap. rewrite strip_by_fixed.
  - rewrite map_map. f_equal. apply map_ext. intros c. apply lower_fixed.
  - now rewrite first_is_map_lower.
  - unfold last_is in *. rewrite <- map_rev. now rewrite first_is_map_lower.
Qed.

(** X17: on a name of Latin-1 characters, the sanitized name is empty
    exactly when the name has no alphanumeric character, and it is never
    longer than the name.  (Beyond Latin-1 lower-casing can lengthen a
    name: [Wide.lower] of U+0130 is two characters.) *)
Theorem sanitize_empty_iff (name : string) :
  (sanitize name = "" <-> forallb (fun c => negb (isalnum c)) (chars name) = true)
  /\ String.length (sanitize name) <= String.length name.
Proof.
  split.
  - change (sanitize name)
      with (str (map lower (strip_by is_sep (map replace_non_alnum (chars name))))).
    split.
    + intros E. apply (f_equal chars) in E. rewrite chars_str in E. simpl in E.
      apply map_eq_nil in E. apply strip_by_nil in E.
      apply forallb_forall. intros c Hc. rewrite Forall_forall in E.
      rewrite <- is_sep_replace. apply E. now apply in_map.
    + intros H. rewrite forallb_forall in H.
      assert (E : strip_by is_sep (map replace_non_alnum (chars name)) = []).
      { apply strip_by_nil. apply Forall_forall. intros c Hc.
        apply in_map_iff in Hc. destruct Hc as (y & <- & Hy).
        rewrite is_sep_replace. now apply H. }
      now rewrite E.
  - change (sanitize name)
      with (str (map lower (strip_by is_sep (map replace_non_alnum (chars name))))).
    rewrite <- (str_chars name) at 2. rewrite !length_str, length_map.
    etransitivity; [apply strip_by_length|]. now rewrite length_map.
Qed.

End SanitizeFacts.

(** ** The names of the files *)
Section FileNames.
Import FileName.

Lemma decimal_value (d : Decimal.uint) :
  forall acc,
    digits_val (Z.of_nat acc) (chars (DecimalString.NilEmpty.string_of_uint d))
    = Z.of_nat (Nat.of_uint_acc d acc).
Proof.
  induction d; intros acc; [reflexivity|..];
    cbn [DecimalString.NilEmpty.string_of_uint Nat.of_uint_acc];
    change (chars (String ?c ?s)) with (c :: chars s);
    cbn [digits_val]; rewrite <- IHd, Nat.tail_mul_spec; f_equal;
    match goal with
    | |- context [digit_val ?c] =>
        let v := eval vm_compute in (digit_val c) in change (digit_val c) with v
    end; lia.
Qed.

Lemma decimal_digits (d : Decimal.uint) :
  forallb isdigit09 (chars (DecimalString.NilEmpty.string_of_uint d)) = true.
Proof. induction d; simpl; auto. Qed.

Lemma zeros_value (m : nat) (l : list ascii) :
  digits_val 0 (repeat "0"%char m ++ l) = digits_val 0 l.
Proof. induction m as [|m IH]; simpl; [reflexivity|exact IH]. Qed.

Lemma zeros_digits (m : nat) : forallb isdigit09 (repeat "0"%char m) = true.
Proof. induction m as [|m IH]; simpl; [reflexivity|exact IH]. Qed.

Lemma chars_zfill (width : nat) (s : string) :
  chars (zfill width s) = repeat "0"%char (width - String.length s) ++ chars s.
Proof. unfold zfill. now rewrite chars_app, chars_str. Qed.

Lemma field_digits (width n : nat) :
  forallb isdigit09 (chars (zfill width (decimal n))) = true.
Proof.
  rewrite chars_zfill, forallb_app, zeros_digits. apply decimal_digits.
Qed.

Lemma field_value (width n : nat) :
  digits_val 0 (chars (zfill width (decimal n))) = Z.of_nat n.
Proof.
  rewrite chars_zfill, zeros_value. unfold decimal.
  change 0%Z with (Z.of_nat 0).
  rewrite (decimal_value (Nat.to_uint n) 0).
  fold (Nat.of_uint (Nat.to_uint n)). now rewrite DecimalNat.Unsigned.of_to.
Qed.

Lemma decimal_nonempty (n : nat) : chars (decimal n) <> [].
Proof.
  intros E. pose proof (decimal_value (Nat.to_uint n) 0) as H.
  unfold decimal in E. rewrite E in H. cbn [digits_val] in H.
  fold (Nat.of_uint (Nat.to_uint n)) in H.
  rewrite DecimalNat.Unsigned.of_to in H.
  assert (Hn : n = 0) by lia. subst n. vm_compute in E. discriminate.
Qed.

(** Two texts that start with digits up to a first character that is not a
    digit agree on the digits and on the rest. *)
Lemma digits_prefix (a : list ascii) :
  forall b x y r s,
    forallb isdigit09 a = true -> forallb isdigit09 b = true ->
    isdigit09 x = false -> isdigit09 y = false ->
    a ++ x :: r = b ++ y :: s -> a = b /\ r = s.
Proof.
  induction a as [|c a IH]; intros [|e b] x y r s Ha Hb Hx Hy H; simpl in *.
  - now injection H as _ ->.
  - injection H as -> _. apply andb_prop in Hb. destruct Hb as [Hb _]. congruence.
  - injection H as -> _. apply andb_prop in Ha. destruct Ha as [Ha _]. congruence.
  - injection H as -> H. apply andb_prop in Ha, Hb.
    destruct (IH b x y r s (proj2 Ha) (proj2 Hb) Hx Hy H) as [-> ->]. auto.
Qed.

Lemma chars_file_name (cc : path) :
  chars (file_name cc)
  = chars (zfill 3 (decimal (p_iter cc)))
    ++ "_"%char :: chars (zfill 2 (decimal (p_slot cc)))
    ++ "_"%char :: chars (p_base cc) ++ chars ".cc".
Proof. unfold file_name. now rewrite !chars_app. Qed.

(** X18: the iteration and the slot can be read back from the name of a
    file: its first field is not empty, is made of digits, and is the
    iteration as a number; after one separator the same holds of the
    second field and the slot; the fields have at least three and two
    characters. *)
Theorem file_name_fields (cc : path) :
  exists f1 f2,
    file_name cc = (f1 ++ "_" ++ f2 ++ "_" ++ p_base cc ++ ".cc")%string
    /\ int f1 = Ok (Z.of_nat (p_iter cc))
    /\ int f2 = Ok (Z.of_nat (p_slot cc))
    /\ 3 <= String.length f1 /\ 2 <= String.length f2
    /\ (p_iter cc < 1000 -> String.length f1 = 3)
    /\ (p_slot cc < 100 -> String.length f2 = 2).
Proof.
  exists (zfill 3 (decimal (p_iter cc))), (zfill 2 (decimal (p_slot cc))).
  split; [reflexivity|].
  assert (Hint : forall width n, int (zfill width (decimal n)) = Ok (Z.of_nat n)).
  { intros width n. unfold int, int_of_str.
    pose proof (field_digits width n) as Hd.
    pose proof (field_value width n) as Hv.
    destruct (chars (zfill width (decimal n))) as [|c l] eqn:E.
    - exfalso. rewrite chars_zfill in E. apply app_eq_nil in E.
      now apply (decimal_nonempty n).
    - now rewrite Hd, Hv. }
  assert (Hlen : forall width n,
            String.length (zfill width (decimal n))
            = Nat.max width (String.length (decimal n))).
  { intros width n. rewrite <- (length_chars (zfill width (decimal n))).
    rewrite chars_zfill, length_app, repeat_length, length_chars. lia. }
  split; [apply Hint|]. split; [apply Hint|].
  rewrite !Hlen. split; [lia|]. split; [lia|].
  assert (Hshort : forall bound width, 
            forallb (fun n => String.length (decimal n) <=? width) (seq 0 bound) = true ->
            forall n, n < bound -> String.length (decimal n) <= width).
  { intros bound width H n Hn. rewrite forallb_forall in H.
    apply Nat.leb_le. apply H. apply in_seq. lia. }
  split; intros Hn.
  - pose proof (Hshort 1000 3 eq_refl _ Hn). lia.
  - pose proof (Hshort 100 2 eq_refl _ Hn). lia.
Qed.

Lemma file_name_inj (a b : path) : file_name a = file_name b -> a = b.
Proof.
  intros H. apply (f_equal chars) in H. rewrite !chars_file_name in H.
  apply digits_prefix in H; try apply field_digits; try reflexivity.
  destruct H as [H1 H].
  apply digits_prefix in H; try apply field_digits; try reflexivity.
  destruct H as [H2 H].
  apply app_inv_tail in H.
  apply (f_equal (digits_val 0)) in H1, H2. rewrite !field_value in H1, H2.
  apply (f_equal str) in H. rewrite !str_chars in H.
  destruct a, b; simpl in *. f_equal; [lia|lia|exact H].
Qed.

Lemma increasing_slots_distinct (l : list cand) :
  StronglySorted (fun a b => slot_of a < slot_of b) l ->
  NoDup (map (fun c => file_name (c_cc c)) l).
Proof.
  induction 1 as [|c l Hs IH Hc]; simpl; constructor; [|exact IH].
  intros Hin. apply in_map_iff in Hin. destruct Hin as (c' & He & Hc').
  apply file_name_inj in He. rewrite Forall_forall in Hc.
  specialize (Hc c' Hc'). unfold slot_of in Hc. rewrite He in Hc. lia.
Qed.

(** X19: the name of a file determines its iteration, its slot and its
    base: two files of different iterations or slots never have the same
    name, whatever the names of their policies.  So the candidates of an
    iteration are in files with different names: no candidate overwrites
    the file of another. *)
Theorem files_never_collide (w : world) (wls : list workload) :
  (forall a b, file_name a = file_name b -> a = b)
  /\ (forall i n d d' results,
        slots w wls i 0 n [] d = (d', Ok results) ->
        NoDup (map (fun c => file_name (c_cc c)) results)).
Proof.
  split; [exact file_name_inj|].
  intros i n d d' results H.
  destruct (slots_sorted _ _ _ _ _ _ _ _ _ H) as (new & -> & Hs & _).
  now apply increasing_slots_distinct.
Qed.

Lemma files_never_collide_witness :
  exists d' results,
    slots tie_world WORKLOADS 0 0 3 [] [] = (d', Ok results)
    /\ map (fun c => file_name (c_cc c)) results
       = ["000_00_streaming_drrip_t02.cc"; "000_01_streaming_drrip_t02.cc";
          "000_02_streaming_drrip_t02.cc"]
    /\ NoDup (map (fun c => file_name (c_cc c)) results).
Proof.
  do 2 eexists. split; [vm_compute; reflexivity|]. split; [vm_compute; reflexivity|].
  eapply (proj2 (files_never_collide tie_world WORKLOADS) 0 3 []).
  vm_compute. reflexivity.
Defined.

End FileNames.

(** ** The sections of a response *)
Section ResponseSections.

(** A lazy repeat stops at the first place where the rest matches. *)
Lemma lazy_minimal {R : Type} (ok : ascii -> bool) (k : list ascii -> nat -> option R)
  (s : list ascii) :
  forall pos res, lazy ok k s pos = Some res ->
  exists wd s1,
    s = wd ++ s1 /\ k s1 (pos + List.length wd) = Some res
    /\ forall a x b, wd = a ++ x :: b ->
         k (x :: b ++ s1) (pos + List.length a) = None.
Proof.
  induction s as [|x s IH]; intros pos res; simpl.
  - destruct (k [] pos) eqn:Ek; [|discriminate].
    intros [= ->]. exists [], []. rewrite Nat.add_0_r.
    split; [reflexivity|]. split; [exact Ek|].
    intros [|? ?] ? ? H; discriminate.
  - destruct (k (x :: s) pos) eqn:Ek.
    + intros [= ->]. exists [], (x :: s). rewrite Nat.add_0_r.
      split; [reflexivity|]. split; [exact Ek|].
      intros [|? ?] ? ? H; discriminate.
    + destruct (ok x) eqn:Ex; [|discriminate].
      intros Hl. destruct (IH _ _ Hl) as (wd & s1 & -> & Hk & Hmin).
      exists (x :: wd), s1. simpl.
      replace (pos + S (List.length wd)) with (S pos + List.length wd) by lia.
      split; [reflexivity|]. split; [exact Hk|].
      intros [|y a] z b H; simpl in H; injection H as <- H.
      * subst wd. now rewrite Nat.add_0_r.
      * simpl. replace (pos + S (List.length a)) with (S pos + List.length a) by lia.
        now apply Hmin.
Qed.

(** The successful path of a match goes through the junction of a
    pattern in two parts. *)
Lemma match_here_focus (fl : flags) (pre rest : regex) :
  forall s pos caps res,
    match_here fl (pre ++ rest) s pos caps = Some res ->
    exists s1 p1 c1,
      derives fl pre s pos caps s1 p1 c1
      /\ match_here fl rest s1 p1 c1 = Some res.
Proof.
  induction pre as [|n r IH]; intros s pos caps res H; simpl in H.
  - exists s, pos, caps. split; [constructor|exact H].
  - destruct n as [c q| |].
    + destruct q.
      * destruct s as [|x s]; [discriminate|].
        destruct (accepts fl c x) eqn:Ex; [|discriminate].
        destruct (IH _ _ _ _ H) as (s1 & p1 & c1 & Hd & Hm). exists s1, p1, c1.
        split; [|exact Hm].
        apply (d_atom fl c Once r [x] s); simpl; [now rewrite Ex|reflexivity|].
        now replace (pos + 1) with (S pos) by lia.
      * assert (Hskip : match_here fl (r ++ rest) s pos caps = Some res ->
                  exists s1 p1 c1,
                    derives fl (Atom c Opt :: r) s pos caps s1 p1 c1
                    /\ match_here fl rest s1 p1 c1 = Some res).
        { intros H0. destruct (IH _ _ _ _ H0) as (s1 & p1 & c1 & Hd & Hm).
          exists s1, p1, c1. split; [|exact Hm].
          apply (d_atom fl c Opt r [] s); simpl; [reflexivity|lia|].
          now rewrite Nat.add_0_r. }
        destruct s as [|x s]; [now apply Hskip|].
        destruct (accepts fl c x) eqn:Ex; [|now apply Hskip].
        destruct (match_here fl (r ++ rest) s (S pos) caps) as [res'|] eqn:Em;
          [|now apply Hskip].
        injection H as ->.
        destruct (IH _ _ _ _ Em) as (s1 & p1 & c1 & Hd & Hm). exists s1, p1, c1.
        split; [|exact Hm].
        apply (d_atom fl c Opt r [x] s); simpl; [now rewrite Ex|lia|].
        now replace (pos + 1) with (S pos) by lia.
      * destruct (greedy_sound _ _ _ _ _ H) as (wd & s0 & -> & Hall & Hk).
        destruct (IH _ _ _ _ Hk) as (s1 & p1 & c1 & Hd & Hm). exists s1, p1, c1.
        split; [|exact Hm]. now apply d_atom.
      * destruct s as [|x s]; [discriminate|].
        destruct (accepts fl c x) eqn:Ex; [|discriminate].
        destruct (greedy_sound _ _ _ _ _ H) as (wd & s0 & -> & Hall & Hk).
        destruct (IH _ _ _ _ Hk) as (s1 & p1 & c1 & Hd & Hm). exists s1, p1, c1.
        split; [|exact Hm].
        apply (d_atom fl c Plus r (x :: wd) s0); simpl; [now rewrite Ex|lia|].
        now replace (pos + S (List.length wd)) with (S pos + List.length wd) by lia.
      * destruct (lazy_sound _ _ _ _ _ H) as (wd & s0 & -> & Hall & Hk).
        destruct (IH _ _ _ _ Hk) as (s1 & p1 & c1 & Hd & Hm). exists s1, p1, c1.
        split; [|exact Hm]. now apply d_atom.
    + destruct (IH _ _ _ _ H) as (s1 & p1 & c1 & Hd & Hm). exists s1, p1, c1.
      split; [now constructor|exact Hm].
    + destruct (IH _ _ _ _ H) as (s1 & p1 & c1 & Hd & Hm). exists s1, p1, c1.
      split; [now constructor|exact Hm].
Qed.

(** The text of the group of a pattern [pre ( .*? ) post]: the rest of the
    pattern matches nowhere inside it. *)
Lemma lazy_group_text (fl : flags) (pattern : string) (post : regex)
  (text : string) (m : Match) :
  lazy_group pattern post ->
  search pattern text fl = Some m ->
  exists wd s1,
    group 1 m = str wd
    /\ forall a x b, wd = a ++ x :: b ->
         exists p caps, match_here fl post (x :: b ++ s1) p caps = None.
Proof.
  intros (pre & Hc & Hpre & Hpost) H. unfold search in H. rewrite Hc in H.
  apply (search_from_inv fl _ (chars text) m (chars text) 0 eq_refl) in H.
  destruct H as (p & H). unfold match_at in H.
  destruct (match_here fl _ _ p []) as [[e caps]|] eqn:Em; [|discriminate].
  injection H as <-.
  apply match_here_focus in Em. destruct Em as (s1 & p1 & c1 & Hd & Hm).
  pose proof (derives_groupless _ _ _ _ _ _ _ _ Hd Hpre) as ->.
  destruct (derives_slice _ _ _ _ _ _ _ _ _ eq_refl Hd) as (Hs1 & _).
  cbn [match_here] in Hm.
  apply lazy_minimal in Hm. destruct Hm as (wd & s2 & Hs & Hk & Hmin).
  exists wd, s2. split.
  - destruct (match_here_sound _ _ _ _ _ _ _ Hk) as (s' & Hd').
    pose proof (derives_groupless _ _ _ _ _ _ _ _ Hd' Hpost) as ->.
    unfold group. simpl. unfold slice. rewrite Hs1, Hs.
    replace (p1 + List.length wd - p1) with (List.length wd) by lia.
    now rewrite firstn_prefix.
  - intros a x b Hw. eexists. eexists. apply (Hmin a x b Hw).
Qed.


Lemma strip_stripped (s : string) : stripped (strip s).
Proof.
  unfold stripped, strip. rewrite chars_str.
  destruct (strip_by_split isspace (chars s)) as (_ & _ & _ & _ & _ & Hf & Hl).
  auto.
Qed.

Lemma strip_infix (p : list ascii) (s : string) :
  infix_of p (chars (strip s)) -> infix_of p (chars s).
Proof.
  unfold strip. rewrite chars_str.
  destruct (strip_by_split isspace (chars s)) as (pre & post & Hs & _).
  intros (a & b & E). rewrite Hs, E. exists (pre ++ a), (b ++ post).
  now rewrite <- !app_assoc.
Qed.



Lemma pat_code_lazy :
  lazy_group CODE_PATTERN
    [Atom CSpace Star; Atom (CLit "`"%char) Once; Atom (CLit "`"%char) Once;
     Atom (CLit "`"%char) Once].
Proof.
  exists (firstn 7 (match compile CODE_PATTERN with Some r => r | None => [] end)).
  repeat split; vm_compute; reflexivity.
Qed.



(** X21: the code that [parse_policy_content] returns holds no closing
    fence, and no whitespace at its ends: the block ends at the first
    fence after its opening. *)
Theorem code_has_no_fence (text v : string) :
  snd (parse_policy_content text) = Some v ->
  ~ infix_of fence (chars v) /\ stripped v.
Proof.
  unfold parse_policy_content, _extract. simpl.
  destruct (search CODE_PATTERN text fl_SI) as [m|] eqn:Es; [|discriminate].
  intros [= <-]. split; [|apply strip_stripped].
  destruct (lazy_group_text _ _ _ _ _ pat_code_lazy Es) as (wd & s1 & Hg & Hmin).
  rewrite Hg. intros Hin. apply strip_infix in Hin. rewrite chars_str in Hin.
  destruct Hin as (a & b & Hw).
  destruct (Hmin a "`"%char ("`"%char :: "`"%char :: b) Hw) as (p & caps & Hnone).
  discriminate Hnone.
Qed.


Lemma code_has_no_fence_witness :
  exists v,
    snd (parse_policy_content complete_response) = Some v
    /\ ~ infix_of fence (chars v) /\ stripped v.
Proof.
  eexists. split; [vm_compute; reflexivity|].
  apply (code_has_no_fence complete_response). vm_compute. reflexivity.
Defined.

End ResponseSections.
